(** * A heap model of the pointer-based splay tree of [SplayTree.ts]

    The TypeScript class keeps one mutable field [root] and a graph of
    [Node<T>] objects linked by [left], [right] and [parent] references.
    Objects are modelled as cells of a store indexed by addresses, so that
    reference equality ([===] on nodes) is equality of addresses and two
    fields holding the same reference really alias.  Keys are integers
    (the test-suite instantiates [T] with [number]).

    Loops and recursive helpers take a [fuel] argument: [None] means that
    the fuel ran out, never that the method returned.

    The development has four parts: the embedding of the class, method by
    method; the notions the specification speaks of (well-formed trees,
    depth, parent-consistency) with the invariant of the loop of [splay];
    the statements about the methods, most of them settled by following
    what the two rotations do to the store; and what the methods do on
    well-formed trees where [rightRotate] is not involved or is harmless. *)

From stdpp Require Import gmap list sorting.
From Stdlib Require Import ZArith Lia.

Local Open Scope Z_scope.

(** ** Data model: [types.d.ts] *)

Abbreviation addr := nat (only parsing).

Record Node := mkNode {
  data : Z;
  left : option addr;
  right : option addr;
  parent : option addr
}.

Record SplayTree := mkTree {
  root : option addr;
  heap : gmap addr Node;
  next : addr
}.

Definition blank : Node := mkNode 0 None None None.

(** Field read [a.f]: look the object up in the store.  Every reference the
    methods follow comes from [root], from a field or from [alloc], so the
    cell exists; [blank] is only there to make the read total. *)
Definition get (s : SplayTree) (a : addr) : Node :=
  default blank (heap s !! a).

Definition put (a : addr) (n : Node) (s : SplayTree) : SplayTree :=
  mkTree (root s) (<[a := n]> (heap s)) (next s).

(** Field writes [a.left = v], [a.right = v], [a.parent = v], [this.root = v]. *)
Definition set_left (a : addr) (v : option addr) (s : SplayTree) : SplayTree :=
  put a (mkNode (data (get s a)) v (right (get s a)) (parent (get s a))) s.

Definition set_right (a : addr) (v : option addr) (s : SplayTree) : SplayTree :=
  put a (mkNode (data (get s a)) (left (get s a)) v (parent (get s a))) s.

Definition set_parent (a : addr) (v : option addr) (s : SplayTree) : SplayTree :=
  put a (mkNode (data (get s a)) (left (get s a)) (right (get s a)) v) s.

Definition set_root (v : option addr) (s : SplayTree) : SplayTree :=
  mkTree v (heap s) (next s).

(** Object literal [{ data, left: null, right: null, parent: null }]: a cell
    at a fresh address. *)
Definition alloc (d : Z) (s : SplayTree) : addr * SplayTree :=
  (next s, mkTree (root s) (<[next s := mkNode d None None None]> (heap s)) (S (next s))).

(** ** The class [SplayTreeImpl] *)

(** [constructor()] *)
Definition constructor : SplayTree := mkTree None ∅ 0%nat.

(** [getRoot()] *)
Definition getRoot (s : SplayTree) : option addr := root s.

(** [leftRotate(node)] *)
Definition leftRotate (node : addr) (s : SplayTree) : SplayTree :=
  let newParent := right (get s node) in
  let s :=
    match newParent with
    | Some np =>
        let s := set_right node (left (get s np)) s in
        let s := match left (get s np) with
                 | Some c => set_parent c (Some node) s
                 | None => s
                 end in
        set_parent np (parent (get s node)) s
    | None => s
    end in
  let s :=
    match parent (get s node) with
    | None => set_root newParent s
    | Some p =>
        if decide (left (get s p) = Some node)
        then set_left p newParent s
        else set_right p newParent s
    end in
  match newParent with
  | Some np => set_parent node (Some np) (set_left np (Some node) s)
  | None => s
  end.

(** [rightRotate(node)]; the first assignment reads [newParent.left], as the
    source does. *)
Definition rightRotate (node : addr) (s : SplayTree) : SplayTree :=
  let newParent := left (get s node) in
  let s :=
    match newParent with
    | Some np =>
        let s := set_left node (left (get s np)) s in
        let s := match right (get s np) with
                 | Some c => set_parent c (Some node) s
                 | None => s
                 end in
        set_parent np (parent (get s node)) s
    | None => s
    end in
  let s :=
    match parent (get s node) with
    | None => set_root newParent s
    | Some p =>
        if decide (right (get s p) = Some node)
        then set_right p newParent s
        else set_left p newParent s
    end in
  match newParent with
  | Some np => set_parent node (Some np) (set_right np (Some node) s)
  | None => s
  end.

(** [search(data)]: the descent reads fields only; the method hands back the
    tree it was called on together with its result. *)
Fixpoint search_loop (fuel : nat) (d : Z) (node : option addr) (s : SplayTree)
  : option (option addr) :=
  match node with
  | None => Some None
  | Some n =>
      match fuel with
      | O => None
      | S fuel =>
          if decide (data (get s n) = d) then Some (Some n)
          else if decide (data (get s n) > d)
               then search_loop fuel d (left (get s n)) s
               else search_loop fuel d (right (get s n)) s
      end
  end.

Definition search (fuel : nat) (d : Z) (s : SplayTree)
  : option (option addr * SplayTree) :=
  match search_loop fuel d (root s) s with
  | Some r => Some (r, s)
  | None => None
  end.

(** One iteration of the [while] loop of [splay]; [root0] is the constant
    [root] captured before the loop. *)
Definition splay_body (root0 node : addr) (s : SplayTree) : SplayTree :=
  if decide (parent (get s node) = Some root0) then
    if decide (left (get s root0) = Some node)
    then rightRotate root0 s
    else leftRotate root0 s
  else
    match parent (get s node) with
    | Some p =>
        match parent (get s p) with
        | Some g =>
            if decide (left (get s g) = Some p) then
              if decide (left (get s p) = Some node)
              then rightRotate p (rightRotate g s)
              else rightRotate g (leftRotate p s)
            else if decide (right (get s g) = Some p) then
              if decide (right (get s p) = Some node)
              then leftRotate p (leftRotate g s)
              else leftRotate g (rightRotate p s)
            else s
        | None => s
        end
    | None => s
    end.

Fixpoint splay_loop (fuel : nat) (root0 node : addr) (s : SplayTree)
  : option SplayTree :=
  if decide (root s = Some node) then Some s
  else match fuel with
       | O => None
       | S fuel => splay_loop fuel root0 node (splay_body root0 node s)
       end.

(** [splay(node)] *)
Definition splay (fuel : nat) (node : addr) (s : SplayTree) : option SplayTree :=
  match root s with
  | None => Some s
  | Some root0 => splay_loop fuel root0 node s
  end.

(** [findMax(node)], [findMin(node)] *)
Fixpoint findMax (fuel : nat) (node : addr) (s : SplayTree) : option addr :=
  match right (get s node) with
  | None => Some node
  | Some r =>
      match fuel with
      | O => None
      | S fuel => findMax fuel r s
      end
  end.

Fixpoint findMin (fuel : nat) (node : addr) (s : SplayTree) : option addr :=
  match left (get s node) with
  | None => Some node
  | Some l =>
      match fuel with
      | O => None
      | S fuel => findMin fuel l s
      end
  end.

(** The descent of [insert]: returns the last node visited ([parent]). *)
Fixpoint insert_descend (fuel : nat) (d : Z) (current par : option addr)
    (s : SplayTree) : option (option addr) :=
  match current with
  | None => Some par
  | Some c =>
      match fuel with
      | O => None
      | S fuel =>
          if decide (d < data (get s c))
          then insert_descend fuel d (left (get s c)) (Some c) s
          else insert_descend fuel d (right (get s c)) (Some c) s
      end
  end.

(** [insert(data)] *)
Definition insert (fuel : nat) (d : Z) (s : SplayTree) : option SplayTree :=
  match search fuel d s with
  | None => None
  | Some (Some node, s) => splay fuel node s
  | Some (None, s) =>
      let '(newNode, s) := alloc d s in
      match root s with
      | None => Some (set_root (Some newNode) s)
      | Some r =>
          match insert_descend fuel d (Some r) None s with
          | None => None
          | Some par =>
              let s :=
                match par with
                | Some p =>
                    let s := if decide (d < data (get s p))
                             then set_left p (Some newNode) s
                             else set_right p (Some newNode) s in
                    set_parent newNode (Some p) s
                | None => s
                end in
              splay fuel newNode s
          end
      end
  end.

(** [delete(data)] *)
Definition delete (fuel : nat) (d : Z) (s : SplayTree) : option SplayTree :=
  match search fuel d s with
  | None => None
  | Some (None, s) => Some s
  | Some (Some node, s) =>
      match splay fuel node s with
      | None => None
      | Some s =>
          match left (get s node) with
          | Some l =>
              match findMax fuel l s with
              | None => None
              | Some max =>
                  match splay fuel max s with
                  | None => None
                  | Some s =>
                      Some (set_root (Some max)
                              (set_right max (right (get s node)) s))
                  end
              end
          | None => Some (set_root (right (get s node)) s)
          end
      end
  end.

(** [inorder()]: [inorderHelper] pushes onto the shared [result] array. *)
Fixpoint inorderHelper (fuel : nat) (node : option addr) (s : SplayTree)
    (result : list Z) : option (list Z) :=
  match node with
  | None => Some result
  | Some n =>
      match fuel with
      | O => None
      | S fuel =>
          match inorderHelper fuel (left (get s n)) s result with
          | None => None
          | Some result =>
              inorderHelper fuel (right (get s n)) s (result ++ [data (get s n)])
          end
      end
  end.

Definition inorder (fuel : nat) (s : SplayTree) : option (list Z) :=
  inorderHelper fuel (root s) s [].

(** ** Sequences of calls on the public interface *)

Inductive op := Insert (d : Z) | Delete (d : Z) | Search (d : Z).

Definition run_op (fuel : nat) (o : op) (s : SplayTree) : option SplayTree :=
  match o with
  | Insert d => insert fuel d s
  | Delete d => delete fuel d s
  | Search d => snd <$> search fuel d s
  end.

Fixpoint run (fuel : nat) (ops : list op) (s : SplayTree) : option SplayTree :=
  match ops with
  | [] => Some s
  | o :: ops =>
      match run_op fuel o s with
      | None => None
      | Some s => run fuel ops s
      end
  end.

(** ** Well-formed trees (the data model of the specification)

    A store is well formed when it lays out an abstract binary search tree:
    every node of the tree is a cell whose [left], [right] and [parent]
    fields are the tops of its subtrees and its owner, no cell occurs twice,
    and keys respect the search-tree order. *)

Inductive tree := Leaf | Br (l : tree) (a : addr) (k : Z) (r : tree).

Definition top (t : tree) : option addr :=
  match t with Leaf => None | Br _ a _ _ => Some a end.

Fixpoint addrs (t : tree) : list addr :=
  match t with Leaf => [] | Br l a _ r => addrs l ++ a :: addrs r end.

Fixpoint keys (t : tree) : list Z :=
  match t with Leaf => [] | Br l _ k r => keys l ++ k :: keys r end.

(** Parent-consistency and absence of dangling links, subtree by subtree. *)
Fixpoint shape (s : SplayTree) (par : option addr) (t : tree) : Prop :=
  match t with
  | Leaf => True
  | Br l a k r =>
      heap s !! a = Some (mkNode k (top l) (top r) par) ∧
      shape s (Some a) l ∧ shape s (Some a) r
  end.

(** BST order: keys on the left are smaller, keys on the right larger. *)
Fixpoint bst (t : tree) : Prop :=
  match t with
  | Leaf => True
  | Br l _ k r =>
      (∀ k', k' ∈ keys l → k' < k) ∧ (∀ k', k' ∈ keys r → k < k') ∧
      bst l ∧ bst r
  end.

Definition well_formed (s : SplayTree) (t : tree) : Prop :=
  root s = top t ∧ shape s None t ∧ NoDup (addrs t) ∧ bst t.

(** Ancestors of [x] in [t], nearest first; its length is the depth of [x]. *)
Fixpoint path (t : tree) (x : addr) : list addr :=
  match t with
  | Leaf => []
  | Br l a _ r =>
      if decide (x = a) then []
      else if decide (x ∈ addrs l) then path l x ++ [a]
      else path r x ++ [a]
  end.

(** Rightmost node of a tree: what [findMax] walks to. *)
Fixpoint rightmost (t : tree) (d : addr) : addr :=
  match t with
  | Leaf => d
  | Br _ a _ r => rightmost r a
  end.

(** Depth read off the store: the number of [parent] links up to a node
    without parent.  It stays meaningful when the store is no longer a tree. *)
Inductive node_depth (s : SplayTree) : addr → nat → Prop :=
  | depth_root a : parent (get s a) = None → node_depth s a 0
  | depth_child a p d :
      parent (get s a) = Some p → node_depth s p d → node_depth s a (S d).

(** Nodes reachable from the root through child links. *)
Inductive reachable (s : SplayTree) : addr → Prop :=
  | reach_root r : root s = Some r → reachable s r
  | reach_left a b : reachable s a → left (get s a) = Some b → reachable s b
  | reach_right a b : reachable s a → right (get s a) = Some b → reachable s b.

(** The root has no parent, and every other reachable node is exactly one of
    the two children of its parent. *)
Definition parent_consistent (s : SplayTree) : Prop :=
  (∀ r, root s = Some r → parent (get s r) = None) ∧
  (∀ n, reachable s n → root s ≠ Some n →
     ∃ p, parent (get s n) = Some p ∧
          (left (get s p) = Some n ∧ right (get s p) ≠ Some n ∨
           left (get s p) ≠ Some n ∧ right (get s p) = Some n)).

(** ** The invariant of the loop of [splay]

    [rightRotate] duplicates one subtree and drops another, so the store
    stops being a tree after the first zig-zig.  What the loop needs, and
    keeps, is weaker: the chain of ancestors of the splayed node [x] is
    sound.  [chain] lists these ancestors, nearest first; each one has the
    previous one as a child on exactly one side, and no other child link of
    a node of [x :: chain] points back into [x :: chain]. *)

Definition offspine (S : list addr) (o : option addr) : Prop :=
  ∀ c, o = Some c → c ∉ S.

Definition edge (s : SplayTree) (S : list addr) (p x : addr) : Prop :=
  parent (get s x) = Some p ∧
  ((left (get s p) = Some x ∧ offspine S (right (get s p))) ∨
   (right (get s p) = Some x ∧ offspine S (left (get s p)))).

Fixpoint links (s : SplayTree) (S : list addr) (x : addr) (chain : list addr)
    (top : option addr) : Prop :=
  match chain with
  | [] => parent (get s x) = top
  | p :: chain => edge s S p x ∧ links s S p chain top
  end.

Definition spine (s : SplayTree) (x : addr) (chain : list addr) : Prop :=
  NoDup (x :: chain) ∧
  offspine (x :: chain) (left (get s x)) ∧
  offspine (x :: chain) (right (get s x)) ∧
  links s (x :: chain) x chain None ∧
  root s = Some (List.last chain x).

(** What a rotation at [n] does to the parent of [n]: the child link that
    pointed to [n] now points to [l]. *)
Definition relink (n l : addr) (nd : Node) : Node :=
  mkNode (data nd)
    (if decide (left nd = Some n) then Some l else left nd)
    (if decide (right nd = Some n) then Some l else right nd)
    (parent nd).

(** A chain all of whose links are right-child links. *)
Fixpoint rlinks (s : SplayTree) (x : addr) (chain : list addr) : Prop :=
  match chain with
  | [] => True
  | p :: chain => right (get s p) = Some x ∧ rlinks s p chain
  end.

(** ** Operations on abstract trees

    What the rotations and the linking step of [insert] do, read on the
    tree that a well-formed store lays out. *)

(** The subtree of [t] whose top is the node [n]. *)
Fixpoint subtree (t : tree) (n : addr) : tree :=
  match t with
  | Leaf => Leaf
  | Br l a _ r =>
      if decide (a = n) then t
      else if decide (n ∈ addrs l) then subtree l n else subtree r n
  end.

(** [t] with the subtree whose top is [n] replaced by [u]. *)
Fixpoint graft (t : tree) (n : addr) (u : tree) : tree :=
  match t with
  | Leaf => Leaf
  | Br l a k r =>
      if decide (a = n) then u
      else if decide (n ∈ addrs l) then Br (graft l n u) a k r
      else Br l a k (graft r n u)
  end.

(** Left rotation of the top of a tree, and at the node [n] of a tree. *)
Definition rotl_top (t : tree) : tree :=
  match t with
  | Br a n k (Br b r kr c) => Br (Br a n k b) r kr c
  | _ => t
  end.

Definition rotl (t : tree) (n : addr) : tree := graft t n (rotl_top (subtree t n)).

(** Right rotation of the top of a tree, and at the node [n] of a tree. *)
Definition rotr_top (t : tree) : tree :=
  match t with
  | Br (Br a l kl b) n k c => Br a l kl (Br b n k c)
  | _ => t
  end.

Definition rotr (t : tree) (n : addr) : tree := graft t n (rotr_top (subtree t n)).

(** The tree with a new leaf of key [d] at address [a], hung where the
    descent of [insert] stops. *)
Fixpoint attach (t : tree) (a : addr) (d : Z) : tree :=
  match t with
  | Leaf => Br Leaf a d Leaf
  | Br l b k r =>
      if decide (d < k) then Br (attach l a d) b k r
      else Br l b k (attach r a d)
  end.

(** The two assignments of [insert] that hang the new node under the node
    [p] where the descent stopped. *)
Definition link_leaf (d : Z) (new p : addr) (s : SplayTree) : SplayTree :=
  set_parent new (Some p)
    (if decide (d < data (get s p))
     then set_left p (Some new) s
     else set_right p (Some new) s).

(** ** Trees used as examples *)

(** The tree obtained from the empty one by a list of calls. *)
Definition built (ops : list op) : SplayTree :=
  default constructor (run (length ops) ops constructor).

(** The left chain 3 - 2 - 1. *)
Definition chain3 : SplayTree := built [Insert 1; Insert 2; Insert 3].

Definition chain3_tree : tree :=
  Br (Br (Br Leaf 0%nat 1 Leaf) 1%nat 2 Leaf) 2%nat 3 Leaf.

(** The right chain 1 - 2 - 3. *)
Definition right_chain3 : SplayTree := built [Insert 3; Insert 2; Insert 1].

(** Root 2 with children 1 and 3: the right chain after [insert(2)], which
    only splays the node of key 2. *)
Definition balanced3 : SplayTree := built [Insert 3; Insert 2; Insert 1; Insert 2].

Definition balanced3_tree : tree :=
  Br (Br Leaf 2%nat 1 Leaf) 1%nat 2 (Br Leaf 0%nat 3 Leaf).

(** * Reasoning about the store *)

(** ** The last element of a list *)

Lemma last_cons_irrel {A} (a : A) l d d' : List.last (a :: l) d = List.last (a :: l) d'.
Proof. revert a. induction l as [|b l IH]; intros a; [done|]. exact (IH b). Qed.

Lemma last_cons_self {A} (a : A) l : List.last (a :: l) a = List.last l a.
Proof. by destruct l. Qed.

Lemma last_in {A} (l : list A) (a : A) : List.last l a ∈ a :: l.
Proof.
  revert a. induction l as [|b l IH]; intros a; [left|].
  right. rewrite (last_cons_irrel b l a b).
  replace (List.last (b :: l) b) with (List.last l b) by (by destruct l).
  apply IH.
Qed.

Lemma last_tail (l : list addr) (r0 : addr) :
  List.last l r0 = r0 → List.last (tail l) r0 = r0.
Proof.
  destruct l as [|a [|b l]]; simpl; try done.
Qed.

(** ** Reads after writes *)

Lemma get_put s a n b : get (put a n s) b = if decide (b = a) then n else get s b.
Proof.
  unfold get, put; simpl. case_decide as E.
  - subst. by rewrite lookup_insert_eq.
  - by rewrite lookup_insert_ne.
Qed.

Lemma node_eq (m n : Node) :
  data m = data n -> left m = left n -> right m = right n -> parent m = parent n -> m = n.
Proof. destruct m, n; simpl; congruence. Qed.

Create Rewrite HintDb heap.
Section fields.
Context (s : SplayTree) (a b : addr) (v : option addr).
Lemma data_set_left : data (get (set_left a v s) b) = data (get s b).
Proof. unfold set_left; rewrite get_put; case_decide; by subst. Qed.

Lemma data_set_right : data (get (set_right a v s) b) = data (get s b).
Proof. unfold set_right; rewrite get_put; case_decide; by subst. Qed.

Lemma data_set_parent : data (get (set_parent a v s) b) = data (get s b).
Proof. unfold set_parent; rewrite get_put; case_decide; by subst. Qed.

Lemma left_set_left : left (get (set_left a v s) b) = if decide (b = a) then v else left (get s b).
Proof. unfold set_left; rewrite get_put; case_decide; by subst. Qed.

Lemma left_set_right : left (get (set_right a v s) b) = left (get s b).
Proof. unfold set_right; rewrite get_put; case_decide; by subst. Qed.

Lemma left_set_parent : left (get (set_parent a v s) b) = left (get s b).
Proof. unfold set_parent; rewrite get_put; case_decide; by subst. Qed.

Lemma right_set_left : right (get (set_left a v s) b) = right (get s b).
Proof. unfold set_left; rewrite get_put; case_decide; by subst. Qed.

Lemma right_set_right : right (get (set_right a v s) b) = if decide (b = a) then v else right (get s b).
Proof. unfold set_right; rewrite get_put; case_decide; by subst. Qed.

Lemma right_set_parent : right (get (set_parent a v s) b) = right (get s b).
Proof. unfold set_parent; rewrite get_put; case_decide; by subst. Qed.

Lemma parent_set_left : parent (get (set_left a v s) b) = parent (get s b).
Proof. unfold set_left; rewrite get_put; case_decide; by subst. Qed.

Lemma parent_set_right : parent (get (set_right a v s) b) = parent (get s b).
Proof. unfold set_right; rewrite get_put; case_decide; by subst. Qed.

Lemma parent_set_parent : parent (get (set_parent a v s) b) = if decide (b = a) then v else parent (get s b).
Proof. unfold set_parent; rewrite get_put; case_decide; by subst. Qed.

Lemma get_set_root : get (set_root v s) b = get s b.
Proof. reflexivity. Qed.

Lemma root_set_left : root (set_left a v s) = root s. Proof. reflexivity. Qed.

Lemma root_set_right : root (set_right a v s) = root s. Proof. reflexivity. Qed.

Lemma root_set_parent : root (set_parent a v s) = root s. Proof. reflexivity. Qed.

Lemma root_set_root : root (set_root v s) = v. Proof. reflexivity. Qed.
End fields.

#[export] Hint Rewrite data_set_left data_set_right data_set_parent
  left_set_left left_set_right left_set_parent
  right_set_left right_set_right right_set_parent
  parent_set_left parent_set_right parent_set_parent
  get_set_root root_set_left root_set_right root_set_parent root_set_root : heap.

Ltac heap_simpl :=
  repeat (autorewrite with heap; try (case_decide; simplify_eq/=)).

Ltac rot_cases := apply node_eq; heap_simpl; try congruence.

(** ** What one rotation does

    The fields of every node [y] after [rightRotate n], when [n] has a left
    child [l]: [n] takes over [l.left] (not [l.right]), [l] gets [n] as right
    child and the parent of [n], and the parent of [n] is re-linked to [l].
    The node [c = l.right] only has its parent field rewritten, and is left
    out.  [leftRotate] is described the same way. *)

Lemma rightRotate_get s n l y :
  left (get s n) = Some l -> l ≠ n ->
  parent (get s n) ≠ Some n -> parent (get s n) ≠ Some l ->
  (∀ c, right (get s l) = Some c -> c ≠ n ∧ c ≠ y) ->
  get (rightRotate n s) y =
    if decide (y = n) then mkNode (data (get s n)) (left (get s l)) (right (get s n)) (Some l)
    else if decide (y = l) then mkNode (data (get s l)) (left (get s l)) (Some n) (parent (get s n))
    else if decide (parent (get s n) = Some y) then
      (if decide (right (get s y) = Some n)
       then mkNode (data (get s y)) (left (get s y)) (Some l) (parent (get s y))
       else mkNode (data (get s y)) (Some l) (right (get s y)) (parent (get s y)))
    else get s y.
Proof.
  intros Hl Hne Hp1 Hp2 Hc. unfold rightRotate. rewrite Hl. cbv zeta.
  autorewrite with heap.
  destruct (right (get s l)) as [c|] eqn:Ec.
  - destruct (Hc c eq_refl) as [Hcn Hcy]. clear Hc.
    autorewrite with heap. rewrite (decide_False (P := n = c)) by congruence.
    autorewrite with heap. rewrite (decide_False (P := n = l)) by congruence.
    destruct (parent (get s n)) as [g|] eqn:Eg; rot_cases.
  - clear Hc.
    autorewrite with heap. rewrite (decide_False (P := n = l)) by congruence.
    destruct (parent (get s n)) as [g|] eqn:Eg; rot_cases.
Qed.

Lemma rightRotate_root s n l :
  left (get s n) = Some l -> l ≠ n ->
  (∀ c, right (get s l) = Some c -> c ≠ n) ->
  root (rightRotate n s) =
    match parent (get s n) with None => Some l | Some _ => root s end.
Proof.
  intros Hl Hne Hc. unfold rightRotate. rewrite Hl. cbv zeta.
  autorewrite with heap.
  destruct (right (get s l)) as [c|] eqn:Ec.
  - specialize (Hc c eq_refl).
    autorewrite with heap. rewrite (decide_False (P := n = c)) by congruence.
    autorewrite with heap. rewrite (decide_False (P := n = l)) by congruence.
    destruct (parent (get s n)) as [g|] eqn:Eg; heap_simpl; done.
  - autorewrite with heap. rewrite (decide_False (P := n = l)) by congruence.
    destruct (parent (get s n)) as [g|] eqn:Eg; heap_simpl; done.
Qed.

Lemma leftRotate_get s n r y :
  right (get s n) = Some r -> r ≠ n ->
  parent (get s n) ≠ Some n -> parent (get s n) ≠ Some r ->
  (∀ c, left (get s r) = Some c -> c ≠ n ∧ c ≠ y) ->
  get (leftRotate n s) y =
    if decide (y = n) then mkNode (data (get s n)) (left (get s n)) (left (get s r)) (Some r)
    else if decide (y = r) then mkNode (data (get s r)) (Some n) (right (get s r)) (parent (get s n))
    else if decide (parent (get s n) = Some y) then
      (if decide (left (get s y) = Some n)
       then mkNode (data (get s y)) (Some r) (right (get s y)) (parent (get s y))
       else mkNode (data (get s y)) (left (get s y)) (Some r) (parent (get s y)))
    else get s y.
Proof.
  intros Hr Hne Hp1 Hp2 Hc. unfold leftRotate. rewrite Hr. cbv zeta.
  autorewrite with heap.
  destruct (left (get s r)) as [c|] eqn:Ec.
  - destruct (Hc c eq_refl) as [Hcn Hcy]. clear Hc.
    autorewrite with heap. rewrite (decide_False (P := n = c)) by congruence.
    autorewrite with heap. rewrite (decide_False (P := n = r)) by congruence.
    destruct (parent (get s n)) as [g|] eqn:Eg; rot_cases.
  - clear Hc.
    autorewrite with heap. rewrite (decide_False (P := n = r)) by congruence.
    destruct (parent (get s n)) as [g|] eqn:Eg; rot_cases.
Qed.

Lemma leftRotate_root s n r :
  right (get s n) = Some r -> r ≠ n ->
  (∀ c, left (get s r) = Some c -> c ≠ n) ->
  root (leftRotate n s) =
    match parent (get s n) with None => Some r | Some _ => root s end.
Proof.
  intros Hr Hne Hc. unfold leftRotate. rewrite Hr. cbv zeta.
  autorewrite with heap.
  destruct (left (get s r)) as [c|] eqn:Ec.
  - specialize (Hc c eq_refl).
    autorewrite with heap. rewrite (decide_False (P := n = c)) by congruence.
    autorewrite with heap. rewrite (decide_False (P := n = r)) by congruence.
    destruct (parent (get s n)) as [g|] eqn:Eg; heap_simpl; done.
  - autorewrite with heap. rewrite (decide_False (P := n = r)) by congruence.
    destruct (parent (get s n)) as [g|] eqn:Eg; heap_simpl; done.
Qed.

(** ** Chains of ancestors *)

Lemma offspine_mono S S' o :
  (∀ y, y ∈ S' → y ∈ S) → offspine S o → offspine S' o.
Proof. intros HS H c Hc Hin. exact (H c Hc (HS _ Hin)). Qed.

Lemma offspine_ne S o n : offspine S o → n ∈ S → o ≠ Some n.
Proof. intros H Hn ->. exact (H n eq_refl Hn). Qed.

Lemma relink_id n l nd :
  left nd ≠ Some n → right nd ≠ Some n → relink n l nd = nd.
Proof.
  intros Hl Hr. unfold relink. rewrite !decide_False by done. by destruct nd.
Qed.

Lemma links_no_child s S a c top n y :
  links s S a c top → n ∈ S → n ∉ a :: c → y ∈ c →
  left (get s y) ≠ Some n ∧ right (get s y) ≠ Some n.
Proof.
  revert a. induction c as [|b c IH]; intros a Hl Hn Hnot Hy.
  - by apply elem_of_nil in Hy.
  - destruct Hl as [[_ He] Hl].
    apply elem_of_cons in Hy as [->|Hy].
    + assert (a ≠ n) by (intros ->; apply Hnot; left).
      destruct He as [[E O]|[E O]]; rewrite E; split;
        try congruence; by apply (offspine_ne S).
    + apply (IH b); auto. intros Hx. apply Hnot. by right.
Qed.

Lemma links_relink s s' S S' n l a c top :
  n ∈ S → n ∉ a :: c → (∀ y, y ∈ S' → y ∈ S) →
  (∀ y, y ∈ a :: c → get s' y = relink n l (get s y)) →
  links s S a c top → links s' S' a c top.
Proof.
  intros Hn. revert a. induction c as [|b c IH]; intros a Hnot HS Hg Hl.
  - simpl in *. rewrite Hg by left. done.
  - destruct Hl as [[Hp He] Hl]. split.
    + assert (a ≠ n) by (intros ->; apply Hnot; left).
      split.
      * rewrite Hg by left. done.
      * rewrite (Hg b) by (right; left). simpl.
        destruct He as [[E O]|[E O]]; [left|right]; rewrite E;
          rewrite (decide_False (P := Some a = Some n)) by congruence;
          (split; [done|]);
          rewrite decide_False by (by apply (offspine_ne S));
          by apply (offspine_mono S).
    + apply IH; auto.
      * intros Hx. apply Hnot. by right.
      * intros y Hy. apply Hg. by right.
Qed.

(** Replacing [n] by [l] at the bottom of a chain of links. *)
Lemma links_lift s s' S S' n l rest :
  NoDup (n :: rest) → n ∈ S → (∀ y, y ∈ S' → y ∈ S) →
  links s S n rest None → root s = Some (List.last rest n) →
  parent (get s' l) = parent (get s n) →
  (∀ y, y ∈ rest → get s' y = relink n l (get s y)) →
  root s' = match parent (get s n) with None => Some l | Some _ => root s end →
  links s' S' l rest None ∧ root s' = Some (List.last rest l).
Proof.
  intros Hnd Hn HS Hl Hroot Hpl Hg Hr.
  destruct rest as [|gg rest].
  - simpl in *. rewrite Hl in *. done.
  - destruct Hl as [[Hp He] Hl]. rewrite Hp in *.
    apply NoDup_cons in Hnd as [Hnot Hnd].
    split; [split; [split|]|].
    + done.
    + rewrite (Hg gg) by left. simpl.
      destruct He as [[E O]|[E O]]; [left|right]; rewrite E;
        rewrite (decide_True (P := Some n = Some n)) by done;
        (split; [done|]);
        rewrite decide_False by (by apply (offspine_ne S));
        by apply (offspine_mono S).
    + apply (links_relink s s' S S' n l); auto.
    + rewrite Hr, Hroot. f_equal. apply last_cons_irrel.
Qed.

Lemma relink_right_first s S p x rest y :
  NoDup (p :: rest) → p ∈ S →
  links s S p rest None → y ∈ rest →
  (if decide (parent (get s p) = Some y) then
     (if decide (right (get s y) = Some p)
      then mkNode (data (get s y)) (left (get s y)) (Some x) (parent (get s y))
      else mkNode (data (get s y)) (Some x) (right (get s y)) (parent (get s y)))
   else get s y) = relink p x (get s y).
Proof.
  intros Hnd Hp Hl Hy.
  pose proof Hnd as Hnd'. apply NoDup_cons in Hnd as [Hp' Hnd].
  destruct rest as [|gg rest]; [by apply elem_of_nil in Hy|].
  destruct Hl as [[Hpp He] Hl]. rewrite Hpp.
  case_decide as E.
  - simplify_eq. unfold relink.
    destruct He as [[E O]|[E O]]; rewrite E.
    + rewrite (decide_False (P := right (get s y) = Some p)) by (by apply (offspine_ne S)).
      rewrite decide_True by done.
      rewrite decide_False by (by apply (offspine_ne S)). done.
    + rewrite !(decide_True (P := Some p = Some p)) by done.
      rewrite decide_False by (by apply (offspine_ne S)). done.
  - apply elem_of_cons in Hy as [->|Hy]; [done|].
    destruct (links_no_child s S gg rest None p y) as [? ?]; auto.
    by rewrite relink_id.
Qed.

Lemma relink_left_first s S p x rest y :
  NoDup (p :: rest) → p ∈ S →
  links s S p rest None → y ∈ rest →
  (if decide (parent (get s p) = Some y) then
     (if decide (left (get s y) = Some p)
      then mkNode (data (get s y)) (Some x) (right (get s y)) (parent (get s y))
      else mkNode (data (get s y)) (left (get s y)) (Some x) (parent (get s y)))
   else get s y) = relink p x (get s y).
Proof.
  intros Hnd Hp Hl Hy.
  pose proof Hnd as Hnd'. apply NoDup_cons in Hnd as [Hp' Hnd].
  destruct rest as [|gg rest]; [by apply elem_of_nil in Hy|].
  destruct Hl as [[Hpp He] Hl]. rewrite Hpp.
  case_decide as E.
  - simplify_eq. unfold relink.
    destruct He as [[E O]|[E O]]; rewrite E.
    + pose proof (offspine_ne S _ p O Hp).
      repeat case_decide; simplify_eq; done.
    + pose proof (offspine_ne S _ p O Hp).
      repeat case_decide; simplify_eq; done.
  - apply elem_of_cons in Hy as [->|Hy]; [done|].
    destruct (links_no_child s S gg rest None p y) as [? ?]; auto.
    by rewrite relink_id.
Qed.

Lemma parent_not_below s S p rest x :
  NoDup (p :: rest) → x ∉ rest → links s S p rest None →
  parent (get s p) ≠ Some p ∧ parent (get s p) ≠ Some x.
Proof.
  intros Hnd Hx Hl. destruct rest as [|gg rest]; simpl in Hl.
  - rewrite Hl. done.
  - destruct Hl as [[-> _] _]. apply NoDup_cons in Hnd as [Hp _].
    split; intros [= <-]; [apply Hp|apply Hx]; left.
Qed.

Lemma spine_edge_left s S p x :
  x ∈ S → edge s S p x → left (get s p) = Some x → offspine S (right (get s p)).
Proof.
  intros Hx [_ [[_ O]|[_ O]]] E; [done|]. by destruct (offspine_ne S _ x O Hx E).
Qed.

Lemma spine_edge_right s S p x :
  x ∈ S → edge s S p x → left (get s p) ≠ Some x →
  right (get s p) = Some x ∧ offspine S (left (get s p)).
Proof. intros Hx [_ [[E _]|[E O]]] Hne; [done|]. done. Qed.

Lemma spine_edge_right' s S p x :
  x ∈ S → edge s S p x → right (get s p) = Some x → offspine S (left (get s p)).
Proof.
  intros Hx [_ [[_ O]|[_ O]]] E; [|done]. by destruct (offspine_ne S _ x O Hx E).
Qed.

(** [rightRotate p] lifts the left child [x] of [p] one level up the spine. *)
Lemma lift_right s x p rest :
  spine s x (p :: rest) → left (get s p) = Some x →
  spine (rightRotate p s) x rest ∧
  get (rightRotate p s) x
    = mkNode (data (get s x)) (left (get s x)) (Some p) (parent (get s p)) ∧
  get (rightRotate p s) p
    = mkNode (data (get s p)) (left (get s x)) (right (get s p)) (Some x) ∧
  (∀ y, y ∈ rest → get (rightRotate p s) y = relink p x (get s y)).
Proof.
  intros (Hnd & Ol & Or & [He Hl] & Hroot) Hpx.
  set (S := x :: p :: rest) in *.
  assert (HxS : x ∈ S) by left.
  assert (HpS : p ∈ S) by (right; left).
  pose proof Hnd as Hnd0.
  apply NoDup_cons in Hnd as [Hx Hnd].
  assert (Hxp : x ≠ p) by (intros ->; apply Hx; left).
  assert (Hxr : x ∉ rest) by (intros ?; apply Hx; by right).
  destruct (parent_not_below s S p rest x Hnd Hxr Hl) as [Hpp1 Hpp2].
  assert (Hget : ∀ y, y ∈ S → get (rightRotate p s) y =
    if decide (y = p) then mkNode (data (get s p)) (left (get s x)) (right (get s p)) (Some x)
    else if decide (y = x) then mkNode (data (get s x)) (left (get s x)) (Some p) (parent (get s p))
    else if decide (parent (get s p) = Some y) then
      (if decide (right (get s y) = Some p)
       then mkNode (data (get s y)) (left (get s y)) (Some x) (parent (get s y))
       else mkNode (data (get s y)) (Some x) (right (get s y)) (parent (get s y)))
    else get s y).
  { intros y Hy. apply rightRotate_get; auto.
    intros c Hc. split; intros ->; exact (Or _ Hc ltac:(done)). }
  assert (Hgx : get (rightRotate p s) x
    = mkNode (data (get s x)) (left (get s x)) (Some p) (parent (get s p))).
  { rewrite Hget by done. rewrite decide_False by done. by rewrite decide_True. }
  assert (Hgp : get (rightRotate p s) p
    = mkNode (data (get s p)) (left (get s x)) (right (get s p)) (Some x)).
  { rewrite Hget by done. by rewrite decide_True. }
  assert (Hgr : ∀ y, y ∈ rest → get (rightRotate p s) y = relink p x (get s y)).
  { intros y Hy. rewrite Hget by (right; by right).
    apply NoDup_cons in Hnd as [Hp Hnd'].
    rewrite decide_False by (intros ->; done).
    rewrite decide_False by (intros ->; done).
    apply (relink_right_first s S p x rest y); auto.
    apply NoDup_cons; done. }
  split; [|done].
  assert (HS : ∀ y, y ∈ x :: rest → y ∈ S).
  { intros y [->|Hy]%elem_of_cons; [left|right; by right]. }
  destruct (links_lift s (rightRotate p s) S (x :: rest) p x rest) as [Hl' Hr']; auto.
  { rewrite Hroot. f_equal. simpl. destruct rest; [done|]. apply last_cons_irrel. }
  { by rewrite Hgx. }
  { apply rightRotate_root; auto. intros c Hc ->. exact (Or _ Hc ltac:(done)). }
  split; [|split; [|split; [|split]]]; auto.
  - apply NoDup_cons. split; [done|]. by apply NoDup_cons in Hnd as [_ ?].
  - rewrite Hgx. simpl. by apply (offspine_mono S).
  - rewrite Hgx. simpl. intros c [= <-] Hin.
    apply NoDup_cons in Hnd as [Hp _].
    apply elem_of_cons in Hin as [->|Hin]; done.
Qed.

(** [leftRotate p] lifts the right child [x] of [p] one level up the spine. *)
Lemma lift_left s x p rest :
  spine s x (p :: rest) → right (get s p) = Some x →
  spine (leftRotate p s) x rest ∧
  get (leftRotate p s) x
    = mkNode (data (get s x)) (Some p) (right (get s x)) (parent (get s p)) ∧
  get (leftRotate p s) p
    = mkNode (data (get s p)) (left (get s p)) (left (get s x)) (Some x) ∧
  (∀ y, y ∈ rest → get (leftRotate p s) y = relink p x (get s y)).
Proof.
  intros (Hnd & Ol & Or & [He Hl] & Hroot) Hpx.
  set (S := x :: p :: rest) in *.
  assert (HxS : x ∈ S) by left.
  assert (HpS : p ∈ S) by (right; left).
  pose proof Hnd as Hnd0.
  apply NoDup_cons in Hnd as [Hx Hnd].
  assert (Hxp : x ≠ p) by (intros ->; apply Hx; left).
  assert (Hxr : x ∉ rest) by (intros ?; apply Hx; by right).
  destruct (parent_not_below s S p rest x Hnd Hxr Hl) as [Hpp1 Hpp2].
  assert (Hget : ∀ y, y ∈ S → get (leftRotate p s) y =
    if decide (y = p) then mkNode (data (get s p)) (left (get s p)) (left (get s x)) (Some x)
    else if decide (y = x) then mkNode (data (get s x)) (Some p) (right (get s x)) (parent (get s p))
    else if decide (parent (get s p) = Some y) then
      (if decide (left (get s y) = Some p)
       then mkNode (data (get s y)) (Some x) (right (get s y)) (parent (get s y))
       else mkNode (data (get s y)) (left (get s y)) (Some x) (parent (get s y)))
    else get s y).
  { intros y Hy. apply leftRotate_get; auto.
    intros c Hc. split; intros ->; exact (Ol _ Hc ltac:(done)). }
  assert (Hgx : get (leftRotate p s) x
    = mkNode (data (get s x)) (Some p) (right (get s x)) (parent (get s p))).
  { rewrite Hget by done. rewrite decide_False by done. by rewrite decide_True. }
  assert (Hgp : get (leftRotate p s) p
    = mkNode (data (get s p)) (left (get s p)) (left (get s x)) (Some x)).
  { rewrite Hget by done. by rewrite decide_True. }
  assert (Hgr : ∀ y, y ∈ rest → get (leftRotate p s) y = relink p x (get s y)).
  { intros y Hy. rewrite Hget by (right; by right).
    apply NoDup_cons in Hnd as [Hp Hnd'].
    rewrite decide_False by (intros ->; done).
    rewrite decide_False by (intros ->; done).
    apply (relink_left_first s S p x rest y); auto.
    apply NoDup_cons; done. }
  split; [|done].
  assert (HS : ∀ y, y ∈ x :: rest → y ∈ S).
  { intros y [->|Hy]%elem_of_cons; [left|right; by right]. }
  destruct (links_lift s (leftRotate p s) S (x :: rest) p x rest) as [Hl' Hr']; auto.
  { rewrite Hroot. f_equal. simpl. destruct rest; [done|]. apply last_cons_irrel. }
  { by rewrite Hgx. }
  { apply leftRotate_root; auto. intros c Hc ->. exact (Ol _ Hc ltac:(done)). }
  split; [|split; [|split; [|split]]]; auto.
  - apply NoDup_cons. split; [done|]. by apply NoDup_cons in Hnd as [_ ?].
  - rewrite Hgx. simpl. intros c [= <-] Hin.
    apply NoDup_cons in Hnd as [Hp _].
    apply elem_of_cons in Hin as [->|Hin]; done.
  - rewrite Hgx. simpl. by apply (offspine_mono S).
Qed.

(** [rightRotate g] lifts [p], the left child of [g], and [x] rides along as
    the left child of [p]. *)
Lemma lift_parent_right s x p g rest :
  spine s x (p :: g :: rest) →
  left (get s g) = Some p → left (get s p) = Some x →
  spine (rightRotate g s) x (p :: rest) ∧
  get (rightRotate g s) x = get s x ∧
  get (rightRotate g s) p
    = mkNode (data (get s p)) (left (get s p)) (Some g) (parent (get s g)) ∧
  get (rightRotate g s) g
    = mkNode (data (get s g)) (left (get s p)) (right (get s g)) (Some p) ∧
  (∀ y, y ∈ rest → get (rightRotate g s) y = relink g p (get s y)).
Proof.
  intros (Hnd & Ol & Or & [He [Heg Hl]] & Hroot) Hgp Hpx.
  set (S := x :: p :: g :: rest) in *.
  assert (HxS : x ∈ S) by left.
  assert (HpS : p ∈ S) by (right; left).
  assert (HgS : g ∈ S) by (right; right; left).
  pose proof Hnd as Hnd0.
  apply NoDup_cons in Hnd as [Hx Hnd]. apply NoDup_cons in Hnd as [Hp Hnd].
  assert (Hxp : x ≠ p) by (intros ->; apply Hx; left).
  assert (Hxg : x ≠ g) by (intros ->; apply Hx; right; left).
  assert (Hpg : p ≠ g) by (intros ->; apply Hp; left).
  assert (Hxr : x ∉ rest) by (intros ?; apply Hx; right; by right).
  assert (Hpr : p ∉ rest) by (intros ?; apply Hp; by right).
  destruct (parent_not_below s S g rest x Hnd Hxr Hl) as [Hgg1 Hgg2].
  destruct (parent_not_below s S g rest p Hnd Hpr Hl) as [_ Hgg3].
  pose proof (spine_edge_left s S p x HxS He Hpx) as Osib.
  assert (Hget : ∀ y, y ∈ S → get (rightRotate g s) y =
    if decide (y = g) then mkNode (data (get s g)) (left (get s p)) (right (get s g)) (Some p)
    else if decide (y = p) then mkNode (data (get s p)) (left (get s p)) (Some g) (parent (get s g))
    else if decide (parent (get s g) = Some y) then
      (if decide (right (get s y) = Some g)
       then mkNode (data (get s y)) (left (get s y)) (Some p) (parent (get s y))
       else mkNode (data (get s y)) (Some p) (right (get s y)) (parent (get s y)))
    else get s y).
  { intros y Hy. apply rightRotate_get; auto.
    intros c Hc. split; intros ->; exact (Osib _ Hc ltac:(done)). }
  assert (Hgx : get (rightRotate g s) x = get s x).
  { rewrite Hget by done. rewrite !decide_False by done. done. }
  assert (Hgp' : get (rightRotate g s) p
    = mkNode (data (get s p)) (left (get s p)) (Some g) (parent (get s g))).
  { rewrite Hget by done. rewrite decide_False by done. by rewrite decide_True. }
  assert (Hgg : get (rightRotate g s) g
    = mkNode (data (get s g)) (left (get s p)) (right (get s g)) (Some p)).
  { rewrite Hget by done. by rewrite decide_True. }
  assert (Hgr : ∀ y, y ∈ rest → get (rightRotate g s) y = relink g p (get s y)).
  { intros y Hy. rewrite Hget by (right; right; by right).
    apply NoDup_cons in Hnd as [Hg Hnd'].
    rewrite decide_False by (intros ->; done).
    rewrite decide_False by (intros ->; done).
    apply (relink_right_first s S g p rest y); auto.
    apply NoDup_cons; done. }
  split; [|done].
  assert (HS : ∀ y, y ∈ x :: p :: rest → y ∈ S).
  { intros y [->|[->|Hy]%elem_of_cons]%elem_of_cons; [done..|]. right; right; by right. }
  destruct (links_lift s (rightRotate g s) S (x :: p :: rest) g p rest) as [Hl' Hr']; auto.
  { rewrite Hroot. f_equal. simpl. destruct rest; [done|]. apply last_cons_irrel. }
  { by rewrite Hgp'. }
  { apply rightRotate_root; auto. intros c Hc ->. exact (Osib _ Hc ltac:(done)). }
  assert (Hgn : g ∉ x :: p :: rest).
  { apply NoDup_cons in Hnd as [Hg _].
    intros [->|[->|?]%elem_of_cons]%elem_of_cons; done. }
  split; [|split; [|split; [|split]]].
  - apply NoDup_cons. split.
    + intros [->|?]%elem_of_cons; done.
    + apply NoDup_cons. split; [done|]. by apply NoDup_cons in Hnd as [_ ?].
  - rewrite Hgx. by apply (offspine_mono S).
  - rewrite Hgx. by apply (offspine_mono S).
  - split; [|done]. split.
    + rewrite Hgx. by destruct He.
    + left. rewrite Hgp'. simpl. split; [done|]. by intros c [= <-].
  - rewrite Hr'. f_equal. simpl. destruct rest; [done|]. apply last_cons_irrel.
Qed.

(** [leftRotate g] lifts [p], the right child of [g], and [x] rides along as
    the right child of [p]. *)
Lemma lift_parent_left s x p g rest :
  spine s x (p :: g :: rest) →
  right (get s g) = Some p → right (get s p) = Some x →
  spine (leftRotate g s) x (p :: rest) ∧
  get (leftRotate g s) x = get s x ∧
  get (leftRotate g s) p
    = mkNode (data (get s p)) (Some g) (right (get s p)) (parent (get s g)) ∧
  get (leftRotate g s) g
    = mkNode (data (get s g)) (left (get s g)) (left (get s p)) (Some p) ∧
  (∀ y, y ∈ rest → get (leftRotate g s) y = relink g p (get s y)).
Proof.
  intros (Hnd & Ol & Or & [He [Heg Hl]] & Hroot) Hgp Hpx.
  set (S := x :: p :: g :: rest) in *.
  assert (HxS : x ∈ S) by left.
  assert (HpS : p ∈ S) by (right; left).
  assert (HgS : g ∈ S) by (right; right; left).
  pose proof Hnd as Hnd0.
  apply NoDup_cons in Hnd as [Hx Hnd]. apply NoDup_cons in Hnd as [Hp Hnd].
  assert (Hxp : x ≠ p) by (intros ->; apply Hx; left).
  assert (Hxg : x ≠ g) by (intros ->; apply Hx; right; left).
  assert (Hpg : p ≠ g) by (intros ->; apply Hp; left).
  assert (Hxr : x ∉ rest) by (intros ?; apply Hx; right; by right).
  assert (Hpr : p ∉ rest) by (intros ?; apply Hp; by right).
  destruct (parent_not_below s S g rest x Hnd Hxr Hl) as [Hgg1 Hgg2].
  destruct (parent_not_below s S g rest p Hnd Hpr Hl) as [_ Hgg3].
  pose proof (spine_edge_right' s S p x HxS He Hpx) as Osib.
  assert (Hget : ∀ y, y ∈ S → get (leftRotate g s) y =
    if decide (y = g) then mkNode (data (get s g)) (left (get s g)) (left (get s p)) (Some p)
    else if decide (y = p) then mkNode (data (get s p)) (Some g) (right (get s p)) (parent (get s g))
    else if decide (parent (get s g) = Some y) then
      (if decide (left (get s y) = Some g)
       then mkNode (data (get s y)) (Some p) (right (get s y)) (parent (get s y))
       else mkNode (data (get s y)) (left (get s y)) (Some p) (parent (get s y)))
    else get s y).
  { intros y Hy. apply leftRotate_get; auto.
    intros c Hc. split; intros ->; exact (Osib _ Hc ltac:(done)). }
  assert (Hgx : get (leftRotate g s) x = get s x).
  { rewrite Hget by done. rewrite !decide_False by done. done. }
  assert (Hgp' : get (leftRotate g s) p
    = mkNode (data (get s p)) (Some g) (right (get s p)) (parent (get s g))).
  { rewrite Hget by done. rewrite decide_False by done. by rewrite decide_True. }
  assert (Hgg : get (leftRotate g s) g
    = mkNode (data (get s g)) (left (get s g)) (left (get s p)) (Some p)).
  { rewrite Hget by done. by rewrite decide_True. }
  assert (Hgr : ∀ y, y ∈ rest → get (leftRotate g s) y = relink g p (get s y)).
  { intros y Hy. rewrite Hget by (right; right; by right).
    apply NoDup_cons in Hnd as [Hg Hnd'].
    rewrite decide_False by (intros ->; done).
    rewrite decide_False by (intros ->; done).
    apply (relink_left_first s S g p rest y); auto.
    apply NoDup_cons; done. }
  split; [|done].
  assert (HS : ∀ y, y ∈ x :: p :: rest → y ∈ S).
  { intros y [->|[->|Hy]%elem_of_cons]%elem_of_cons; [done..|]. right; right; by right. }
  destruct (links_lift s (leftRotate g s) S (x :: p :: rest) g p rest) as [Hl' Hr']; auto.
  { rewrite Hroot. f_equal. simpl. destruct rest; [done|]. apply last_cons_irrel. }
  { by rewrite Hgp'. }
  { apply leftRotate_root; auto. intros c Hc ->. exact (Osib _ Hc ltac:(done)). }
  assert (Hgn : g ∉ x :: p :: rest).
  { apply NoDup_cons in Hnd as [Hg _].
    intros [->|[->|?]%elem_of_cons]%elem_of_cons; done. }
  split; [|split; [|split; [|split]]].
  - apply NoDup_cons. split.
    + intros [->|?]%elem_of_cons; done.
    + apply NoDup_cons. split; [done|]. by apply NoDup_cons in Hnd as [_ ?].
  - rewrite Hgx. by apply (offspine_mono S).
  - rewrite Hgx. by apply (offspine_mono S).
  - split; [|done]. split.
    + rewrite Hgx. by destruct He.
    + right. rewrite Hgp'. simpl. split; [done|]. by intros c [= <-].
  - rewrite Hr'. f_equal. simpl. destruct rest; [done|]. apply last_cons_irrel.
Qed.

(** Which branch the loop body takes on a spine. *)
Lemma splay_body_zig s x p :
  spine s x [p] →
  splay_body p x s =
    if decide (left (get s p) = Some x) then rightRotate p s else leftRotate p s.
Proof.
  intros (_ & _ & _ & [[Hp _] _] & _). unfold splay_body.
  by rewrite decide_True.
Qed.

Lemma splay_body_deep s x p g rest :
  spine s x (p :: g :: rest) →
  splay_body (List.last rest g) x s =
    if decide (left (get s g) = Some p) then
      if decide (left (get s p) = Some x)
      then rightRotate p (rightRotate g s)
      else rightRotate g (leftRotate p s)
    else
      if decide (right (get s p) = Some x)
      then leftRotate p (leftRotate g s)
      else leftRotate g (rightRotate p s).
Proof.
  intros (Hnd & _ & _ & [[Hp _] [[Hg He] _]] & _). unfold splay_body.
  rewrite Hp, Hg.
  rewrite decide_False.
  2: { intros [= ->]. apply NoDup_cons in Hnd as [_ Hnd].
       apply NoDup_cons in Hnd as [Hnd _]. apply Hnd, last_in. }
  case_decide as E1; [done|].
  destruct He as [[E _]|[E _]]; [done|]. by rewrite (decide_True _ _ E).
Qed.

(** One iteration of the loop shortens the spine by one link (zig) or by two
    (zig-zig, zig-zag). *)
Lemma splay_body_spine s x p rest :
  spine s x (p :: rest) →
  spine (splay_body (List.last rest p) x s) x (tail rest).
Proof.
  intros Hs. destruct rest as [|g rest].
  - simpl. rewrite (splay_body_zig s x p Hs). case_decide as E.
    + by destruct (lift_right s x p [] Hs E).
    + destruct Hs as (Hnd & Ol & Or & [He Hl] & Hroot).
      destruct (spine_edge_right s _ p x ltac:(left) He E) as [E' _].
      by destruct (lift_left s x p [] ltac:(done) E').
  - change (tail (g :: rest)) with rest.
    rewrite (last_cons_irrel g rest p g), last_cons_self.
    rewrite (splay_body_deep s x p g rest Hs).
    pose proof Hs as (Hnd & Ol & Or & [He [Heg Hl]] & Hroot).
    assert (HxS : x ∈ x :: p :: g :: rest) by left.
    assert (HpS : p ∈ x :: p :: g :: rest) by (right; left).
    case_decide as Eg; case_decide as Ep.
    + destruct (lift_parent_right s x p g rest Hs Eg Ep) as (Hs1 & _ & Hp1 & _).
      apply (lift_right _ x p rest Hs1). by rewrite Hp1.
    + destruct (spine_edge_right s _ p x HxS He Ep) as [Ep' _].
      destruct (lift_left s x p (g :: rest) Hs Ep') as (Hs1 & _ & _ & Hr1).
      apply (lift_right _ x g rest Hs1). rewrite Hr1 by left.
      simpl. by rewrite decide_True.
    + destruct (spine_edge_right s _ g p HpS Heg Eg) as [Eg' _].
      destruct (lift_parent_left s x p g rest Hs Eg' Ep) as (Hs1 & _ & Hp1 & _).
      apply (lift_left _ x p rest Hs1). by rewrite Hp1.
    + destruct (spine_edge_right s _ g p HpS Heg Eg) as [Eg' _].
      assert (Ep' : left (get s p) = Some x) by (destruct He as [_ [[? _]|[? _]]]; done).
      destruct (lift_right s x p (g :: rest) Hs Ep') as (Hs1 & _ & _ & Hr1).
      apply (lift_left _ x g rest Hs1). rewrite Hr1 by left.
      simpl. by rewrite decide_True.
Qed.

Lemma links_depth s S x chain :
  links s S x chain None → node_depth s x (length chain).
Proof.
  revert x. induction chain as [|p chain IH]; intros x Hl; simpl in *.
  - by constructor.
  - destruct Hl as [[Hp _] Hl]. econstructor; eauto.
Qed.

Lemma spine_depth s x chain : spine s x chain → node_depth s x (length chain).
Proof. intros (_ & _ & _ & Hl & _). by apply (links_depth s (x :: chain)). Qed.

Lemma spine_root_iff s x chain : spine s x chain → root s = Some x ↔ chain = [].
Proof.
  intros (Hnd & _ & _ & _ & Hr). split.
  - intros E. destruct chain as [|p chain]; [done|].
    rewrite (last_cons_irrel p chain x p), last_cons_self in Hr.
    assert (Hx' : x = List.last chain p) by congruence.
    apply NoDup_cons in Hnd as [Hx _].
    destruct Hx. rewrite Hx' at 1. apply last_in.
  - intros ->. done.
Qed.

Lemma splay_body_done s r0 x : spine s x [] → splay_body r0 x s = s.
Proof.
  intros (_ & _ & _ & Hp & _). simpl in Hp. unfold splay_body. rewrite Hp.
  by rewrite decide_False.
Qed.

Lemma splay_loop_spine x r0 n : ∀ s chain,
  (length chain ≤ n)%nat → spine s x chain → List.last chain r0 = r0 →
  ∃ s', splay_loop n r0 x s = Some s' ∧ spine s' x [].
Proof.
  induction n as [|n IH]; intros s chain Hlen Hs Hlast.
  - destruct chain; [|simpl in Hlen; lia].
    exists s. split; [|done]. simpl. rewrite decide_True; [done|].
    by apply (spine_root_iff s x []).
  - destruct chain as [|p rest].
    + exists s. split; [|done]. simpl. rewrite decide_True; [done|].
      by apply (spine_root_iff s x []).
    + simpl splay_loop. rewrite decide_False.
      2: { intros E. by apply (spine_root_iff s x (p :: rest)) in E. }
      assert (Er : r0 = List.last rest p).
      { rewrite <- Hlast. simpl. destruct rest; [done|]. apply last_cons_irrel. }
      apply (IH _ (tail rest)).
      * simpl in Hlen. destruct rest; simpl in *; lia.
      * rewrite Er. by apply splay_body_spine.
      * destruct rest as [|g rest]; [done|].
        apply last_tail. rewrite <- Hlast at 2. simpl. done.
Qed.

(** ** From well-formed trees to spines *)

Lemma get_heap s a n : heap s !! a = Some n → get s a = n.
Proof. unfold get. by intros ->. Qed.

Lemma top_in_addrs t c : top t = Some c → c ∈ addrs t.
Proof.
  destruct t; [done|]. intros [= ->]. simpl. apply elem_of_app. right. left.
Qed.

Lemma links_snoc s S a par : ∀ c x,
  links s S x c (Some a) →
  (left (get s a) = Some (List.last c x) ∧ offspine S (right (get s a)) ∨
   right (get s a) = Some (List.last c x) ∧ offspine S (left (get s a))) →
  parent (get s a) = par →
  links s S x (c ++ [a]) par.
Proof.
  induction c as [|p c IH]; intros x Hl He Hp.
  - simpl in *. done.
  - destruct Hl as [Hpx Hl]. split; [done|]. apply IH; auto.
    by rewrite (last_cons_irrel p c x p), last_cons_self in He.
Qed.

Lemma shape_path t : ∀ s par x,
  shape s par t → NoDup (addrs t) → x ∈ addrs t →
  (∀ y, y ∈ x :: path t x → y ∈ addrs t) ∧
  NoDup (x :: path t x) ∧
  top t = Some (List.last (path t x) x) ∧
  ∀ S, (∀ y, y ∈ S → y ∈ addrs t → y ∈ x :: path t x) →
       offspine S (left (get s x)) ∧ offspine S (right (get s x)) ∧
       links s S x (path t x) par.
Proof.
  induction t as [|l IHl a k r IHr]; intros s par x Hsh Hnd Hx.
  - by apply elem_of_nil in Hx.
  - simpl in Hsh, Hnd, Hx. destruct Hsh as (Ha & Hl & Hr).
    apply get_heap in Ha.
    apply NoDup_app in Hnd as (Hndl & Hdisj & Hnd).
    apply NoDup_cons in Hnd as [Har Hndr].
    assert (Hal : a ∉ addrs l) by (intros ?; apply (Hdisj a); [done|left]).
    simpl path. case_decide as Exa.
    { subst x. split; [|split; [|split]].
      - intros y ->%list_elem_of_singleton. simpl. apply elem_of_app. right; left.
      - apply NoDup_singleton.
      - done.
      - intros S HS. simpl. rewrite Ha. simpl.
        assert (Hin : ∀ c, c ∈ addrs l ∨ c ∈ addrs r → c ∉ S).
        { intros c Hc Hin.
          assert (c ∈ addrs l ++ a :: addrs r) as Hc'.
          { apply elem_of_app. destruct Hc; [by left|right; by right]. }
          pose proof (HS c Hin Hc') as ->%list_elem_of_singleton.
          destruct Hc; done. }
        split; [|split]; [| |done].
        + intros c Hc. apply Hin. left. by apply top_in_addrs.
        + intros c Hc. apply Hin. right. by apply top_in_addrs. }
    apply elem_of_app in Hx as [Hx|Hx].
    + rewrite decide_True by done.
      destruct (IHl s (Some a) x Hl Hndl Hx) as (Hsub & Hnd' & Htop & HS').
      split; [|split; [|split]].
      * intros y Hy. simpl. rewrite app_comm_cons in Hy.
        apply elem_of_app in Hy as [Hy|Hy%list_elem_of_singleton].
        -- apply elem_of_app. left. by apply Hsub.
        -- subst. apply elem_of_app. right; left.
      * rewrite app_comm_cons. apply NoDup_app. split; [done|]. split.
        -- intros y Hy ->%list_elem_of_singleton. by apply Hsub in Hy.
        -- apply NoDup_singleton.
      * simpl. by rewrite last_last.
      * intros S HS.
        destruct (HS' S) as (O1 & O2 & Hlk).
        { intros y HyS Hyl.
          assert (y ∈ x :: path l x ++ [a]) as Hy.
          { apply HS; [done|]. simpl. apply elem_of_app. by left. }
          rewrite app_comm_cons in Hy.
          apply elem_of_app in Hy as [Hy|Hy%list_elem_of_singleton]; [done|].
          by subst. }
        split; [done|]. split; [done|].
        apply links_snoc; auto; [|by rewrite Ha].
        left. rewrite Ha. simpl. split; [done|].
        intros c Hc%top_in_addrs HcS.
        assert (c ∈ x :: path l x ++ [a]) as Hy.
        { apply HS; [done|]. simpl. apply elem_of_app. right; by right. }
        rewrite app_comm_cons in Hy.
        apply elem_of_app in Hy as [Hy|Hy%list_elem_of_singleton].
        -- apply Hsub in Hy. apply (Hdisj c Hy). by right.
        -- by subst.
    + apply elem_of_cons in Hx as [->|Hx]; [done|].
      rewrite decide_False by (intros Hxl; apply (Hdisj x Hxl); by right).
      destruct (IHr s (Some a) x Hr Hndr Hx) as (Hsub & Hnd' & Htop & HS').
      split; [|split; [|split]].
      * intros y Hy. simpl. rewrite app_comm_cons in Hy.
        apply elem_of_app in Hy as [Hy|Hy%list_elem_of_singleton].
        -- apply elem_of_app. right; right. by apply Hsub.
        -- subst. apply elem_of_app. right; left.
      * rewrite app_comm_cons. apply NoDup_app. split; [done|]. split.
        -- intros y Hy ->%list_elem_of_singleton. by apply Hsub in Hy.
        -- apply NoDup_singleton.
      * simpl. by rewrite last_last.
      * intros S HS.
        destruct (HS' S) as (O1 & O2 & Hlk).
        { intros y HyS Hyl.
          assert (y ∈ x :: path r x ++ [a]) as Hy.
          { apply HS; [done|]. simpl. apply elem_of_app. right; by right. }
          rewrite app_comm_cons in Hy.
          apply elem_of_app in Hy as [Hy|Hy%list_elem_of_singleton]; [done|].
          by subst. }
        split; [done|]. split; [done|].
        apply links_snoc; auto; [|by rewrite Ha].
        right. rewrite Ha. simpl. split; [done|].
        intros c Hc%top_in_addrs HcS.
        assert (c ∈ x :: path r x ++ [a]) as Hy.
        { apply HS; [done|]. simpl. apply elem_of_app. by left. }
        rewrite app_comm_cons in Hy.
        apply elem_of_app in Hy as [Hy|Hy%list_elem_of_singleton].
        -- apply Hsub in Hy. apply (Hdisj c Hc). by right.
        -- by subst.
Qed.

Lemma well_formed_spine s t x :
  well_formed s t → x ∈ addrs t → spine s x (path t x).
Proof.
  intros (Hroot & Hsh & Hnd & _) Hx.
  destruct (shape_path t s None x Hsh Hnd Hx) as (_ & Hnd' & Htop & HS).
  destruct (HS (x :: path t x)) as (O1 & O2 & Hl); [done|].
  repeat split; try done. by rewrite Hroot.
Qed.

Lemma spine_last_root s x chain r0 :
  spine s x chain → root s = Some r0 → List.last chain r0 = r0.
Proof.
  intros (_ & _ & _ & _ & Hr) E. destruct chain as [|p chain]; [done|].
  rewrite (last_cons_irrel p chain r0 x). congruence.
Qed.

(** The loop of [splay] returns the state reached by iterating its body, at
    the first iteration count where the node is the root. *)
Lemma splay_loop_iter fuel r0 x : ∀ s s',
  splay_loop fuel r0 x s = Some s' →
  ∃ i, (i ≤ fuel)%nat ∧ s' = Nat.iter i (splay_body r0 x) s ∧
       ∀ j, (j < i)%nat → root (Nat.iter j (splay_body r0 x) s) ≠ Some x.
Proof.
  induction fuel as [|fuel IH]; intros s s' H; simpl in H.
  - case_decide; [|done]. injection H as <-. exists 0%nat.
    split; [done|]. split; [done|]. intros j Hj. lia.
  - case_decide as E.
    + injection H as <-. exists 0%nat.
      split; [lia|]. split; [done|]. intros j Hj. lia.
    + destruct (IH _ _ H) as (i & Hi & -> & Hbefore). exists (S i).
      split; [lia|]. split; [by rewrite Nat.iter_succ_r|].
      intros [|j] Hj; [done|]. rewrite Nat.iter_succ_r. apply Hbefore. lia.
Qed.

Lemma iter_spine s x r0 chain i :
  spine s x chain → List.last chain r0 = r0 →
  ∃ chain', spine (Nat.iter i (splay_body r0 x) s) x chain' ∧
            List.last chain' r0 = r0.
Proof.
  intros Hs Hlast. induction i as [|i (chain' & Hs' & Hlast')].
  - by exists chain.
  - simpl. set (si := Nat.iter i _ s) in *. destruct chain' as [|p rest].
    + exists []. rewrite (splay_body_done _ r0 x Hs'). done.
    + exists (tail rest). split.
      * assert (Er : r0 = List.last rest p).
        { rewrite <- Hlast'. by rewrite (last_cons_irrel p rest r0 p), last_cons_self. }
        rewrite Er. by apply splay_body_spine.
      * destruct rest as [|g rest]; [done|].
        apply last_tail. rewrite <- Hlast' at 2. done.
Qed.

(** ** The descent of [search] in a well-formed tree *)

Lemma search_loop_shape t : ∀ s par d fuel,
  shape s par t → bst t → (length (addrs t) ≤ fuel)%nat →
  ∃ r, search_loop fuel d (top t) s = Some r ∧
       (d ∈ keys t → ∃ a, r = Some a ∧ a ∈ addrs t ∧ data (get s a) = d) ∧
       (d ∉ keys t → r = None).
Proof.
  induction t as [|l IHl a k r IHr]; intros s par d fuel Hsh Hb Hf.
  - exists None. simpl. split; [by destruct fuel|]. split; [|done].
    intros H. by apply elem_of_nil in H.
  - destruct Hsh as (Ha & Hl & Hr). destruct Hb as (Bl & Br' & Hbl & Hbr).
    apply get_heap in Ha. simpl in Hf. rewrite length_app in Hf. simpl in Hf.
    destruct fuel as [|fuel]; [lia|].
    simpl. rewrite Ha. simpl. case_decide as E1.
    + subst. exists (Some a). split; [done|]. split.
      * intros _. exists a. rewrite Ha. split; [done|]. split; [|done].
        apply elem_of_app. right; left.
      * intros H. destruct H. apply elem_of_app. right; left.
    + case_decide as E2.
      * destruct (IHl s (Some a) d fuel Hl Hbl ltac:(lia)) as (res & Hres & Hin & Hout).
        exists res. split; [done|]. split.
        -- intros [Hd|[->|Hd]%elem_of_cons]%elem_of_app.
           ++ destruct (Hin Hd) as (b & ? & ? & ?). exists b.
              split; [done|]. split; [|done]. apply elem_of_app. by left.
           ++ done.
           ++ apply Br' in Hd. lia.
        -- intros Hd. apply Hout. intros ?. apply Hd. apply elem_of_app. by left.
      * destruct (IHr s (Some a) d fuel Hr Hbr ltac:(lia)) as (res & Hres & Hin & Hout).
        exists res. split; [done|]. split.
        -- intros [Hd|[->|Hd]%elem_of_cons]%elem_of_app.
           ++ apply Bl in Hd. lia.
           ++ done.
           ++ destruct (Hin Hd) as (b & ? & ? & ?). exists b.
              split; [done|]. split; [|done]. apply elem_of_app. right; by right.
        -- intros Hd. apply Hout. intros ?. apply Hd. apply elem_of_app. right; by right.
Qed.

(** Fuel is only a bound: more of it never changes a result. *)
Lemma search_loop_mono d s fuel : ∀ fuel' node r,
  search_loop fuel d node s = Some r → (fuel ≤ fuel')%nat →
  search_loop fuel' d node s = Some r.
Proof.
  induction fuel as [|fuel IH]; intros fuel' node r H Hle.
  - destruct node; [done|]. destruct fuel'; done.
  - destruct node as [n|]; [|by destruct fuel'].
    destruct fuel' as [|fuel']; [lia|]. simpl in *.
    repeat case_decide; try done; apply IH; auto; lia.
Qed.

Lemma splay_loop_mono r0 x fuel : ∀ fuel' s s',
  splay_loop fuel r0 x s = Some s' → (fuel ≤ fuel')%nat →
  splay_loop fuel' r0 x s = Some s'.
Proof.
  induction fuel as [|fuel IH]; intros fuel' s s' H Hle.
  - simpl in H. case_decide; [|done]. destruct fuel'; simpl; by rewrite decide_True.
  - destruct fuel' as [|fuel']; [lia|]. simpl in *.
    case_decide; [done|]. apply IH; auto; lia.
Qed.

Lemma findMax_mono s fuel : ∀ fuel' node r,
  findMax fuel node s = Some r → (fuel ≤ fuel')%nat →
  findMax fuel' node s = Some r.
Proof.
  induction fuel as [|fuel IH]; intros fuel' node r H Hle.
  - simpl in H. destruct fuel'; simpl; destruct (right (get s node)); done.
  - destruct fuel' as [|fuel']; [lia|]. simpl in *.
    destruct (right (get s node)); [|done]. apply IH; auto; lia.
Qed.

Lemma inorderHelper_mono s fuel : ∀ fuel' node acc r,
  inorderHelper fuel node s acc = Some r → (fuel ≤ fuel')%nat →
  inorderHelper fuel' node s acc = Some r.
Proof.
  induction fuel as [|fuel IH]; intros fuel' node acc r H Hle.
  - destruct node; [done|]. by destruct fuel'.
  - destruct node as [n|]; [|by destruct fuel'].
    destruct fuel' as [|fuel']; [lia|]. simpl in *.
    destruct (inorderHelper fuel (left (get s n)) s acc) as [acc1|] eqn:E; [|done].
    rewrite (IH fuel' _ _ _ E) by lia. apply IH; auto; lia.
Qed.

(** ** The second splay of [delete] *)

Lemma rlinks_snoc s a : ∀ c x,
  rlinks s x c → right (get s a) = Some (List.last c x) → rlinks s x (c ++ [a]).
Proof.
  induction c as [|p c IH]; intros x Hl Ha; [by simpl in *|].
  destruct Hl as [Hp Hl]. split; [done|]. apply IH; [done|].
  by rewrite (last_cons_irrel p c x p), last_cons_self in Ha.
Qed.

Lemma rlinks_relink s s' n l : ∀ c a,
  rlinks s a c → n ∉ a :: c →
  (∀ y, y ∈ c → get s' y = relink n l (get s y)) →
  rlinks s' a c.
Proof.
  induction c as [|b c IH]; intros a Hl Hn Hg; simpl in *; [done|].
  destruct Hl as [Hb Hl]. split.
  - rewrite (Hg b) by left. simpl. rewrite Hb.
    rewrite decide_False; [done|]. intros [= ->]. apply Hn. left.
  - apply IH; auto.
    + intros ?. apply Hn. by right.
    + intros y Hy. apply Hg. by right.
Qed.

Lemma links_last_edge s S a top : ∀ c x,
  links s S x (c ++ [a]) top → edge s S a (List.last c x).
Proof.
  induction c as [|p c IH]; intros x Hl; simpl in Hl.
  - by destruct Hl.
  - destruct Hl as [_ Hl]. rewrite (last_cons_irrel p c x p), last_cons_self.
    by apply IH.
Qed.

Lemma rightmost_irrel t d d' : t ≠ Leaf → rightmost t d = rightmost t d'.
Proof. by destruct t. Qed.

Lemma rightmost_path t : ∀ s par d a,
  top t = Some a → shape s par t → NoDup (addrs t) →
  rightmost t d ∈ addrs t ∧
  rlinks s (rightmost t d) (path t (rightmost t d)) ∧
  findMax (length (path t (rightmost t d))) a s = Some (rightmost t d).
Proof.
  induction t as [|l _ a k r IHr]; intros s par d a0 Ht Hsh Hnd; [done|].
  injection Ht as <-. simpl in Hsh. destruct Hsh as (Ha & Hl & Hr).
  apply get_heap in Ha. simpl in Hnd.
  apply NoDup_app in Hnd as (Hndl & Hdisj & Hnd).
  apply NoDup_cons in Hnd as [Har Hndr].
  destruct r as [|rl ra rk rr] eqn:Er.
  - simpl. rewrite decide_True by done. simpl. rewrite Ha. simpl.
    split; [|done]. apply elem_of_app. right; left.
  - rewrite <- Er in *.
    assert (Htr : top r = Some ra) by (by subst r).
    change (rightmost (Br l a k r) d) with (rightmost r a).
    set (m := rightmost r a).
    destruct (IHr s (Some a) a ra Htr Hr Hndr) as (Hm & Hrl & Hfm). fold m in Hm, Hrl, Hfm.
    destruct (shape_path r s (Some a) m Hr Hndr Hm) as (_ & _ & Htop & _).
    assert (Epath : path (Br l a k r) m = path r m ++ [a]).
    { simpl. rewrite decide_False by (intros ->; done).
      rewrite decide_False; [done|]. intros Hml. apply (Hdisj m Hml). by right. }
    rewrite Epath. split; [|split].
    + simpl. apply elem_of_app. right; by right.
    + apply rlinks_snoc; [done|]. rewrite Ha. simpl. done.
    + rewrite length_app. simpl. rewrite Nat.add_1_r. simpl.
      rewrite Ha. simpl. rewrite Htr. done.
Qed.

Lemma splay_loop_done n r0 x s : root s = Some x → splay_loop n r0 x s = Some s.
Proof. intros E. destruct n; simpl; by rewrite decide_True. Qed.

Lemma right_relink_ne n l nd : right nd ≠ Some n → right (relink n l nd) = right nd.
Proof. intros H. simpl. by rewrite decide_False. Qed.

Lemma left_relink_ne n l nd : left nd ≠ Some n → left (relink n l nd) = left nd.
Proof. intros H. simpl. by rewrite decide_False. Qed.

Lemma left_relink_eq n l nd : left nd = Some n → left (relink n l nd) = Some l.
Proof. intros H. simpl. by rewrite decide_True. Qed.

Lemma right_relink_eq n l nd : right nd = Some n → right (relink n l nd) = Some l.
Proof. intros H. simpl. by rewrite decide_True. Qed.

(** The second splay of [delete]: [m] sits at the end of the right spine of
    the left subtree of the root [node]. *)
Lemma delete_splay_loop node R m n : ∀ s chain,
  (length chain ≤ n)%nat →
  spine s m (chain ++ [node]) → rlinks s m chain →
  left (get s node) = Some (List.last chain m) → right (get s node) = R →
  ∃ s2, splay_loop (S n) node m s = Some s2 ∧ spine s2 m [] ∧
        right (get s2 node) = R ∧ parent (get s2 node) = Some m.
Proof.
  induction n as [n IH] using lt_wf_ind. intros s chain Hlen Hs Hrl Hleft Hright.
  assert (Hroot : root s ≠ Some m).
  { intros E. apply (spine_root_iff s m (chain ++ [node]) Hs) in E. by destruct chain. }
  simpl splay_loop. rewrite decide_False by done.
  assert (HmS : m ∈ m :: chain ++ [node]) by left.
  assert (HnS : node ∈ m :: chain ++ [node]).
  { right. apply elem_of_app. right. left. }
  pose proof Hs as (Hnd & _ & _ & Hlk & _).
  pose proof (links_last_edge s _ node None chain m Hlk) as Hedge.
  assert (HlS : List.last chain m ∈ m :: chain ++ [node]).
  { rewrite app_comm_cons. apply elem_of_app. left. apply last_in. }
  pose proof (spine_edge_left s _ node _ HlS Hedge Hleft) as OR.
  destruct chain as [|p [|g rest]].
  - (* zig *)
    simpl in *. rewrite (splay_body_zig s m node Hs). rewrite decide_True by done.
    destruct (lift_right s m node [] Hs Hleft) as (Hs2 & _ & Hn2 & _).
    exists (rightRotate node s). split; [|split; [done|]].
    + apply splay_loop_done. by apply (spine_root_iff _ m []).
    + rewrite Hn2. simpl. by subst.
  - (* zig-zag below the root *)
    simpl in Hs, Hrl, Hleft, Hlk. destruct Hrl as [Hpm _].
    destruct Hlk as [Hepm _].
    pose proof (spine_edge_right' s _ p m HmS Hepm Hpm) as OL.
    assert (HpS : p ∈ [m; p; node]) by (right; left).
    rewrite (splay_body_deep s m p node [] Hs : splay_body node m s = _).
    rewrite decide_True by done.
    rewrite decide_False by (by apply (offspine_ne _ _ m OL)).
    destruct (lift_left s m p [node] Hs Hpm) as (Hs1 & _ & _ & Hr1).
    assert (Hl1 : left (get (leftRotate p s) node) = Some m).
    { rewrite Hr1 by left. by apply left_relink_eq. }
    destruct (lift_right _ m node [] Hs1 Hl1) as (Hs2 & _ & Hn2 & _).
    eexists. split; [|split; [exact Hs2|]].
    + apply splay_loop_done. by apply (spine_root_iff _ m []).
    + rewrite Hn2. simpl. split; [|done]. rewrite Hr1 by left.
      rewrite right_relink_ne; [done|]. by apply (offspine_ne _ _ p OR).
  - (* zig-zig along the right spine *)
    simpl in Hlen.
    change ((p :: g :: rest) ++ [node]) with (p :: g :: rest ++ [node]) in *.
    destruct Hrl as (Hpm & Hgp & Hrl).
    destruct Hlk as (Hepm & Hegp & Hlk).
    assert (HpS : p ∈ m :: p :: g :: rest ++ [node]) by (right; left).
    assert (HgS : g ∈ m :: p :: g :: rest ++ [node]) by (right; right; left).
    pose proof (spine_edge_right' s _ g p HpS Hegp Hgp) as OLg.
    pose proof (splay_body_deep s m p g (rest ++ [node]) Hs) as Hbody.
    rewrite last_last in Hbody. rewrite Hbody.
    rewrite decide_False by (by apply (offspine_ne _ _ p OLg)).
    rewrite decide_True by done.
    destruct (lift_parent_left s m p g (rest ++ [node]) Hs Hgp Hpm)
      as (Hs1 & _ & Hp1 & _ & Hr1).
    assert (Hpm1 : right (get (leftRotate g s) p) = Some m) by (by rewrite Hp1).
    destruct (lift_left _ m p (rest ++ [node]) Hs1 Hpm1) as (Hs2 & _ & _ & Hr2).
    set (s1 := leftRotate g s) in *. set (s2 := leftRotate p s1) in *.
    apply NoDup_cons in Hnd as [Hm Hnd]. apply NoDup_cons in Hnd as [Hp Hnd].
    apply NoDup_cons in Hnd as [Hg Hnd].
    assert (Hnode : node ∈ rest ++ [node]) by (apply elem_of_app; right; left).
    destruct n as [|[|n]]; [lia..|].
    destruct (IH (S n) ltac:(lia) s2 rest) as (s3 & Hloop & Hs3 & HR3 & HP3); try done.
    + lia.
    + destruct rest as [|gg rest']; [done|]. destruct Hrl as [Hgg Hrl]. split.
      * rewrite Hr2, Hr1 by left.
        apply right_relink_eq, right_relink_eq. done.
      * apply (rlinks_relink s1 s2 p m); [apply (rlinks_relink s s1 g p)|..]; try done.
        -- intros Hin. apply Hg. apply elem_of_app. by left.
        -- intros y Hy. apply Hr1. right. apply elem_of_app. by left.
        -- intros Hin. apply Hp. right. apply elem_of_app. by left.
        -- intros y Hy. apply Hr2. right. apply elem_of_app. by left.
    + rewrite Hr2, Hr1 by done. destruct rest as [|gg rest'].
      * apply left_relink_eq, left_relink_eq. exact Hleft.
      * assert (Hz : List.last (p :: g :: gg :: rest') m ∈ gg :: rest').
        { change (List.last (p :: g :: gg :: rest') m)
            with (List.last (gg :: rest') m).
          rewrite (last_cons_irrel gg rest' m gg), last_cons_self. apply last_in. }
        assert (Hzg : left (get s node) ≠ Some g).
        { rewrite Hleft. intros [= E]. apply Hg. rewrite <- E.
          apply elem_of_app. by left. }
        assert (Hzp : left (get s node) ≠ Some p).
        { rewrite Hleft. intros [= E]. apply Hp. right. rewrite <- E.
          apply elem_of_app. by left. }
        rewrite left_relink_ne by (by rewrite left_relink_ne).
        rewrite left_relink_ne by done.
        rewrite Hleft. done.
    + rewrite Hr2, Hr1 by done.
      assert (Hzg : right (get s node) ≠ Some g) by (by apply (offspine_ne _ _ g OR)).
      assert (Hzp : right (get s node) ≠ Some p) by (by apply (offspine_ne _ _ p OR)).
      rewrite right_relink_ne by (by rewrite right_relink_ne).
      by rewrite right_relink_ne.
    + exists s3. split; [|done].
      apply (splay_loop_mono node m (S (S n))); [done|lia].
Qed.

Lemma path_length t s par x :
  shape s par t → NoDup (addrs t) → x ∈ addrs t →
  (S (length (path t x)) ≤ length (addrs t))%nat.
Proof.
  intros Hsh Hnd Hx.
  destruct (shape_path t s par x Hsh Hnd Hx) as (Hsub & Hnd' & _).
  apply (submseteq_length (x :: path t x)). by apply NoDup_submseteq.
Qed.

(** ** Rotations without the required child, and what no rotation touches *)

Lemma leftRotate_no_child n s :
  right (get s n) = None →
  leftRotate n s =
    match parent (get s n) with
    | None => set_root None s
    | Some p => if decide (left (get s p) = Some n)
                then set_left p None s else set_right p None s
    end.
Proof. intros H. unfold leftRotate. by rewrite H. Qed.

Lemma rightRotate_no_child n s :
  left (get s n) = None →
  rightRotate n s =
    match parent (get s n) with
    | None => set_root None s
    | Some p => if decide (right (get s p) = Some n)
                then set_right p None s else set_left p None s
    end.
Proof. intros H. unfold rightRotate. by rewrite H. Qed.

Lemma data_leftRotate n s y : data (get (leftRotate n s) y) = data (get s y).
Proof.
  unfold leftRotate. cbv zeta.
  repeat case_match; repeat case_decide; by autorewrite with heap.
Qed.

Lemma data_rightRotate n s y : data (get (rightRotate n s) y) = data (get s y).
Proof.
  unfold rightRotate. cbv zeta.
  repeat case_match; repeat case_decide; by autorewrite with heap.
Qed.

Lemma data_splay_body r0 x s y : data (get (splay_body r0 x s) y) = data (get s y).
Proof.
  unfold splay_body.
  repeat case_match; repeat case_decide;
    by repeat (rewrite data_leftRotate || rewrite data_rightRotate).
Qed.

Lemma splay_loop_returns fuel r0 x : ∀ s s',
  splay_loop fuel r0 x s = Some s' →
  root s' = Some x ∧ ∀ y, data (get s' y) = data (get s y).
Proof.
  induction fuel as [|fuel IH]; intros s s' H; simpl in H.
  - case_decide; [|done]. by injection H as <-.
  - case_decide; [by injection H as <-|].
    destruct (IH _ _ H) as [Hr Hd]. split; [done|].
    intros y. by rewrite Hd, data_splay_body.
Qed.

Lemma search_loop_found fuel d s : ∀ o n,
  search_loop fuel d o s = Some (Some n) → data (get s n) = d ∧ o ≠ None.
Proof.
  induction fuel as [|fuel IH]; intros o n H.
  - by destruct o.
  - destruct o as [m|]; [|done]. simpl in H.
    case_decide as E; [by injection H as <-|].
    split; [|done]. case_decide; by apply IH in H as [? _].
Qed.

(** When [insert] returns, the root holds the inserted key. *)
Lemma insert_returns_root fuel d s s' :
  insert fuel d s = Some s' →
  ∃ r, getRoot s' = Some r ∧ data (get s' r) = d.
Proof.
  unfold insert, search, getRoot.
  destruct (search_loop fuel d (root s) s) as [[node|]|] eqn:Es; [| |done].
  - apply search_loop_found in Es as [Hd Hr]. unfold splay.
    destruct (root s) as [r0|]; [|done]. intros H.
    apply splay_loop_returns in H as [Hroot Hdata].
    exists node. by rewrite Hdata.
  - unfold alloc. cbv beta iota. simpl root.
    set (s1 := mkTree _ _ _).
    assert (Hnew : data (get s1 (next s)) = d).
    { unfold get, s1. simpl. by rewrite lookup_insert_eq. }
    destruct (root s) as [r0|] eqn:Er.
    + destruct (insert_descend fuel d (Some r0) None s1) as [par|]; [|done].
      unfold splay. intros H.
      match type of H with match root ?s2 with _ => _ end = _ =>
        assert (Hr2 : root s2 = Some r0) by
          (destruct par; repeat case_decide; by autorewrite with heap);
        assert (Hd2 : data (get s2 (next s)) = d) by
          (destruct par; repeat case_decide; by autorewrite with heap);
        rewrite Hr2 in H end.
      apply splay_loop_returns in H as [Hroot Hdata].
      exists (next s). by rewrite Hdata.
    + intros [= <-]. exists (next s). by autorewrite with heap.
Qed.

(** ** Loops that never exit *)

Lemma insert_descend_mono d s fuel : ∀ fuel' cur par r,
  insert_descend fuel d cur par s = Some r → (fuel ≤ fuel')%nat →
  insert_descend fuel' d cur par s = Some r.
Proof.
  induction fuel as [|fuel IH]; intros fuel' cur par r H Hle.
  - destruct cur; [done|]. by destruct fuel'.
  - destruct cur as [c|]; [|by destruct fuel'].
    destruct fuel' as [|fuel']; [lia|]. simpl in *.
    case_decide; apply IH; auto; lia.
Qed.

Lemma splay_loop_stuck r0 x s :
  root s ≠ Some x → splay_body r0 x s = s → ∀ fuel, splay_loop fuel r0 x s = None.
Proof.
  intros Hr Hb fuel. induction fuel as [|fuel IH]; simpl; rewrite decide_False by done.
  - done.
  - by rewrite Hb.
Qed.

Lemma insert_fresh fuel d s r p :
  search fuel d s = Some (None, s) → root s = Some r →
  insert_descend fuel d (Some r) None (snd (alloc d s)) = Some (Some p) →
  insert fuel d s =
    splay fuel (next s)
      (set_parent (next s) (Some p)
         (if decide (d < data (get (snd (alloc d s)) p))
          then set_left p (Some (next s)) (snd (alloc d s))
          else set_right p (Some (next s)) (snd (alloc d s)))).
Proof.
  intros Hs Hr Hd. unfold insert. rewrite Hs.
  set (s0 := snd (alloc d s)) in *.
  change (alloc d s) with (next s, s0). cbv beta iota.
  change (root s0) with (root s). rewrite Hr, Hd. done.
Qed.

Lemma splay_loop_step r0 x s fuel :
  root s ≠ Some x →
  splay_loop (S fuel) r0 x s = splay_loop fuel r0 x (splay_body r0 x s).
Proof. intros H. simpl. by rewrite decide_False. Qed.

(** ** The example trees are well formed *)

Ltac solve_bst :=
  repeat split;
  try (intros ? Hk; simpl in Hk;
       repeat (apply elem_of_cons in Hk as [->|Hk]; [lia|]);
       by apply elem_of_nil in Hk).

Lemma chain3_wf : well_formed chain3 chain3_tree.
Proof.
  split; [reflexivity|]. split; [|split].
  - repeat split; vm_compute; reflexivity.
  - apply (bool_decide_unpack _). vm_compute. exact I.
  - solve_bst.
Qed.

Lemma balanced3_wf : well_formed balanced3 balanced3_tree.
Proof.
  split; [reflexivity|]. split; [|split].
  - repeat split; vm_compute; reflexivity.
  - apply (bool_decide_unpack _). vm_compute. exact I.
  - solve_bst.
Qed.

(** * The claims *)

(** C1 (the code departs from the claim).  The claim: after any sequence of
    [insert] and [delete], [inorder()] is strictly ascending and lists exactly
    the keys inserted and not deleted.  On the code: after inserting 1, 3, 2
    the traversal is [1; 2; 1; 3], and after inserting 1, 2, 3, 0 it is
    [0; 3] (the keys 1 and 2 are lost), whatever the recursion depth allowed. *)
Theorem inorder_after_inserts_is_wrong :
  (∃ s, run 3 [Insert 1; Insert 3; Insert 2] constructor = Some s ∧
        ∀ fuel, inorder (3 + fuel) s = Some [1; 2; 1; 3]) ∧
  (∃ s, run 4 [Insert 1; Insert 2; Insert 3; Insert 0] constructor = Some s ∧
        ∀ fuel, inorder (3 + fuel) s = Some [0; 3]).
Proof.
  split; eexists; (split; [vm_compute; reflexivity|]); intros fuel;
    unfold inorder;
    (eapply (inorderHelper_mono _ 3); [vm_compute; reflexivity|lia]).
Qed.

(** C2 (the code departs from the claim).  The claim: [rightRotate(n)] with
    [l = n.left] sets [n.left = l.right].  On the code, on the left chain
    3 - 2 - 1 built by inserting 1, 2, 3, rotating the root gives
    [n.left = l.left]: both [n] and [l] now have the node of key 1 as left
    child, and the traversal becomes [1; 2; 1; 3]. *)
Theorem rightRotate_takes_left_grandchild :
  ∃ s n l a,
    run 3 [Insert 1; Insert 2; Insert 3] constructor = Some s ∧
    getRoot s = Some n ∧ left (get s n) = Some l ∧
    left (get s l) = Some a ∧ right (get s l) = None ∧
    left (get (rightRotate n s) n) = Some a ∧
    left (get (rightRotate n s) l) = Some a ∧
    inorder 3 s = Some [1; 2; 3] ∧
    inorder 3 (rightRotate n s) = Some [1; 2; 1; 3].
Proof.
  eexists; exists 2%nat, 1%nat, 0%nat.
  split; [vm_compute; reflexivity|]. repeat split.
Qed.

(** C3 (the code departs from the claim).  The claim: a rotation whose
    required child is absent changes nothing.  On the code, on the one-node
    tree, [leftRotate(root)] and [rightRotate(root)] both set the root of the
    tree to absent; and in the tree with root 1 and right child 2,
    [leftRotate] of the childless node 2 removes it from the tree. *)
Theorem rotate_without_child_detaches :
  (∃ s, run 1 [Insert 1] constructor = Some s ∧
        getRoot s = Some 0%nat ∧
        left (get s 0%nat) = None ∧ right (get s 0%nat) = None ∧
        getRoot (leftRotate 0%nat s) = None ∧
        getRoot (rightRotate 0%nat s) = None) ∧
  (∃ s, run 2 [Insert 2; Insert 1] constructor = Some s ∧
        right (get s 0%nat) = None ∧
        inorder 2 s = Some [1; 2] ∧
        inorder 2 (leftRotate 0%nat s) = Some [1]).
Proof.
  split; eexists; (split; [vm_compute; reflexivity|]); repeat split.
Qed.

(** C4 (the code departs from the claim).  The claim: parent-consistency
    holds after every sequence of public operations, and the root has no
    parent.  On the code, after inserting 2 and 1 and deleting 1, the root
    still has the deleted node as its parent. *)
Theorem delete_leaves_stale_parent :
  ∃ s, run 2 [Insert 2; Insert 1; Delete 1] constructor = Some s ∧
       ¬ parent_consistent s.
Proof.
  eexists. split; [vm_compute; reflexivity|].
  intros [Hroot _]. specialize (Hroot 0%nat eq_refl). vm_compute in Hroot. done.
Qed.

(** C5 (the code departs from the claim).  The claim: after [insert(x)] on
    any tree built by the operations, the root holds [x].  On the code,
    [insert(4)] after inserting 1, 2, 3, 1, and [insert(1)] after inserting
    1, 2 and deleting 1, never return: the loop of [splay] reaches a state it
    no longer changes and in which the node is not the root. *)
Theorem insert_diverges :
  (∃ s, run 4 [Insert 1; Insert 2; Insert 3; Insert 1] constructor = Some s ∧
        ∀ fuel, insert fuel 4 s = None) ∧
  (∃ s, run 3 [Insert 1; Insert 2; Delete 1] constructor = Some s ∧
        ∀ fuel, insert fuel 1 s = None).
Proof.
  split.
  - exists (built [Insert 1; Insert 2; Insert 3; Insert 1]).
    split; [vm_compute; reflexivity|].
    set (s := built _).
    intros [|[|[|fuel]]]; [vm_compute; reflexivity..|].
    rewrite (insert_fresh (S (S (S fuel))) 4 s 0%nat 2%nat).
    + unfold splay.
      match goal with |- match root ?s3 with _ => _ end = _ =>
        replace (root s3) with (Some 0%nat) by (vm_compute; reflexivity) end.
      match goal with |- ?lhs = None => destruct lhs as [s'|] eqn:E; [|done] end.
      apply (splay_loop_mono _ _ _ (5 + S (S (S fuel)))) in E; [|lia].
      cbn [Nat.add] in E.
      do 5 (rewrite splay_loop_step in E by (vm_compute; discriminate)).
      rewrite splay_loop_stuck in E; [done|vm_compute; discriminate|vm_compute; reflexivity].
    + unfold search.
      rewrite (search_loop_mono 4 s 3 (S (S (S fuel))) (root s) None); [done| |lia].
      vm_compute; reflexivity.
    + vm_compute; reflexivity.
    + apply (insert_descend_mono 4 _ 3 (S (S (S fuel)))); [vm_compute; reflexivity|lia].
  - exists (built [Insert 1; Insert 2; Delete 1]).
    split; [vm_compute; reflexivity|].
    set (s := built _).
    intros [|fuel]; [vm_compute; reflexivity|].
    rewrite (insert_fresh (S fuel) 1 s 1%nat 1%nat).
    + unfold splay.
      match goal with |- match root ?s3 with _ => _ end = _ =>
        replace (root s3) with (Some 1%nat) by (vm_compute; reflexivity) end.
      rewrite splay_loop_step by (vm_compute; discriminate).
      apply splay_loop_stuck; vm_compute; [discriminate|reflexivity].
    + unfold search.
      rewrite (search_loop_mono 1 s 1 (S fuel) (root s) None); [done| |lia].
      vm_compute; reflexivity.
    + vm_compute; reflexivity.
    + apply (insert_descend_mono 1 _ 1 (S fuel)); [vm_compute; reflexivity|lia].
Qed.

(** C6 (the code departs from the claim).  The claim: after [delete(x)],
    [search(x)] returns absent.  On the code, after inserting 1, 2, 3 and
    deleting 1, [delete(2)] followed by [search(2)] returns a node holding 2. *)
Theorem deleted_key_still_found :
  ∃ s s' a,
    run 3 [Insert 1; Insert 2; Insert 3; Delete 1] constructor = Some s ∧
    delete 3 2 s = Some s' ∧
    search 3 2 s' = Some (Some a, s') ∧ data (get s' a) = 2.
Proof.
  eexists; eexists; exists 1%nat.
  split; [vm_compute; reflexivity|].
  split; [vm_compute; reflexivity|].
  split; vm_compute; reflexivity.
Qed.

(** C7, as stated, fails on the code.  On the right chain 1 - 2 - 3 (built
    by inserting 3, 2, 1), [delete(2)] first splays the node of key 2 to the
    root, with children 1 and 3; the splay of the predecessor 1 then rotates
    the old root, whose parent link, absent before, becomes the predecessor;
    and the parent link of the old right child 3 is not reattached to the
    predecessor. *)
Lemma delete_splay_crosses_old_root :
  ∃ s s1 s' node max c,
    run 3 [Insert 3; Insert 2; Insert 1] constructor = Some s ∧
    search 3 2 s = Some (Some node, s) ∧ splay 3 node s = Some s1 ∧
    getRoot s1 = Some node ∧ parent (get s1 node) = None ∧
    left (get s1 node) = Some max ∧ right (get s1 node) = Some c ∧
    findMax 3 max s1 = Some max ∧
    delete 3 2 s = Some s' ∧
    getRoot s' = Some max ∧ right (get s' max) = Some c ∧
    parent (get s' c) ≠ Some max ∧
    parent (get s' node) = Some max.
Proof.
  eexists; eexists; eexists; exists 1%nat, 2%nat, 0%nat.
  split; [vm_compute; reflexivity|].
  split; [vm_compute; reflexivity|].
  split; [vm_compute; reflexivity|].
  do 5 (split; [reflexivity|]).
  split; [vm_compute; reflexivity|].
  repeat split. vm_compute. discriminate.
Qed.

(** C7, amended.  In [delete] of a present key whose node, once splayed to
    the root, is the root of a well-formed tree and has a left subtree: the
    predecessor found by [findMax] is splayed to the root of the whole tree,
    old root included (the old root, which had no parent, ends with the
    predecessor as its parent); afterwards the predecessor's right child is
    the old root's right child, and the predecessor is the new root of the
    tree, with absent parent. *)
Theorem delete_splays_predecessor_to_root fuel d s node s1 tl k tr :
  search fuel d s = Some (Some node, s) →
  splay fuel node s = Some s1 →
  well_formed s1 (Br tl node k tr) → tl ≠ Leaf →
  (length (addrs tl) ≤ fuel)%nat →
  ∃ l max s',
    left (get s1 node) = Some l ∧ findMax fuel l s1 = Some max ∧
    delete fuel d s = Some s' ∧
    getRoot s' = Some max ∧
    parent (get s' max) = None ∧
    right (get s' max) = right (get s1 node) ∧
    parent (get s1 node) = None ∧ parent (get s' node) = Some max.
Proof.
  intros Hsearch Hsplay Hwf Htl Hfuel.
  pose proof Hwf as (Hroot & Hsh & Hnd & _). simpl in Hroot, Hsh.
  destruct Hsh as (Hnode & Hshl & _). apply get_heap in Hnode.
  destruct (top tl) as [l|] eqn:Etop; [|by destruct tl].
  simpl in Hnd. apply NoDup_app in Hnd as (Hndl & Hdisj & _).
  set (m := rightmost tl node).
  destruct (rightmost_path tl s1 (Some node) node l Etop Hshl Hndl)
    as (Hm & Hrl & Hfm). fold m in Hm, Hrl, Hfm.
  pose proof (path_length tl s1 (Some node) m Hshl Hndl Hm) as Hlen.
  assert (Hmn : m ≠ node) by (intros E; apply (Hdisj m Hm); rewrite E; left).
  assert (Hspine : spine s1 m (path tl m ++ [node])).
  { replace (path tl m ++ [node]) with (path (Br tl node k tr) m).
    - apply well_formed_spine; [done|]. simpl. apply elem_of_app. by left.
    - simpl. rewrite decide_False by done. by rewrite decide_True. }
  destruct (shape_path tl s1 (Some node) m Hshl Hndl Hm) as (_ & _ & Htop & _).
  destruct (delete_splay_loop node (right (get s1 node)) m (length (path tl m))
              s1 (path tl m)) as (s2 & Hloop & Hs2 & HR & HP); auto.
  { rewrite Hnode. simpl. congruence. }
  exists l, m. eexists. split; [by rewrite Hnode|].
  split; [apply (findMax_mono s1 _ fuel _ _ Hfm); lia|].
  assert (Hsplay2 : splay fuel m s1 = Some s2).
  { unfold splay. rewrite Hroot.
    apply (splay_loop_mono node m _ fuel _ _ Hloop). lia. }
  unfold delete. rewrite Hsearch, Hsplay.
  replace (left (get s1 node)) with (Some l) by (by rewrite Hnode).
  cbv beta iota.
  rewrite (findMax_mono s1 _ fuel _ _ Hfm) by lia. rewrite Hsplay2.
  split; [done|]. unfold getRoot. autorewrite with heap.
  rewrite decide_True by done.
  destruct Hs2 as (_ & _ & _ & Hp2 & _). simpl in Hp2.
  repeat split; try done. by rewrite Hnode.
Qed.

(** C7, amended: the theorem at [delete(2)] on the right chain 1 - 2 - 3,
    where the first splay brings the node of key 2 to the root. *)
Lemma delete_splays_predecessor_to_root_witness :
  search 3 2 right_chain3 = Some (Some 1%nat, right_chain3) ∧
  splay 3 1%nat right_chain3 = Some balanced3 ∧
  well_formed balanced3 balanced3_tree ∧
  ∃ l max s',
    left (get balanced3 1%nat) = Some l ∧ findMax 3 l balanced3 = Some max ∧
    delete 3 2 right_chain3 = Some s' ∧
    getRoot s' = Some max ∧
    parent (get s' max) = None ∧
    right (get s' max) = right (get balanced3 1%nat) ∧
    parent (get balanced3 1%nat) = None ∧ parent (get s' 1%nat) = Some max.
Proof.
  assert (H1 : search 3 2 right_chain3 = Some (Some 1%nat, right_chain3))
    by (vm_compute; reflexivity).
  assert (H2 : splay 3 1%nat right_chain3 = Some balanced3)
    by (vm_compute; reflexivity).
  split; [exact H1|]. split; [exact H2|]. split; [exact balanced3_wf|].
  apply (delete_splays_predecessor_to_root 3 2 right_chain3 1%nat balanced3
           (Br Leaf 2%nat 1 Leaf) 2 (Br Leaf 0%nat 3 Leaf) H1 H2 balanced3_wf).
  - discriminate.
  - simpl. lia.
Defined.

(** C8.  [search(data)] changes nothing: the tree it returns is the tree it
    was called on (root and every field of every node), so it does not splay;
    on a well-formed tree it returns a node holding the key when the key is
    present, and absent otherwise. *)
Theorem search_is_pure_lookup s t d :
  well_formed s t →
  (∀ fuel r s', search fuel d s = Some (r, s') → s' = s) ∧
  ∃ r, (∀ fuel, (length (addrs t) ≤ fuel)%nat → search fuel d s = Some (r, s)) ∧
       (d ∈ keys t → ∃ a, r = Some a ∧ a ∈ addrs t ∧ data (get s a) = d) ∧
       (d ∉ keys t → r = None).
Proof.
  intros (Hroot & Hsh & _ & Hb). split.
  - intros fuel r s'. unfold search.
    destruct (search_loop fuel d (root s) s); [|done]. by intros [= _ <-].
  - destruct (search_loop_shape t s None d (length (addrs t)) Hsh Hb)
      as (r & Hr & Hin & Hout); [done|].
    exists r. split; [|done]. intros fuel Hfuel. unfold search.
    rewrite Hroot. by rewrite (search_loop_mono d s _ fuel _ r Hr Hfuel).
Qed.

(** C8: the theorem at the tree with root 2 and children 1 and 3, for key 3. *)
Lemma search_is_pure_lookup_witness :
  well_formed balanced3 balanced3_tree ∧
  (∀ fuel r s', search fuel 3 balanced3 = Some (r, s') → s' = balanced3) ∧
  ∃ r, (∀ fuel, (3 ≤ fuel)%nat → search fuel 3 balanced3 = Some (r, balanced3)) ∧
       (3 ∈ keys balanced3_tree →
        ∃ a, r = Some a ∧ a ∈ addrs balanced3_tree ∧ data (get balanced3 a) = 3) ∧
       (3 ∉ keys balanced3_tree → r = None).
Proof.
  split; [exact balanced3_wf|].
  exact (search_is_pure_lookup balanced3 balanced3_tree 3 balanced3_wf).
Defined.

(** C9.  On a well-formed tree, for a node [x] of the tree at depth [d]
    (the length of its path to the root, which is also its depth read off the
    store): [splay(x)] returns after some number [i ≤ d] of iterations of its
    loop, with [x] as the root; each of these iterations takes the depth of
    [x] from 1 to 0 (zig) or from [d' + 2] to [d'] (zig-zig, zig-zag); and on
    the empty tree [splay] changes nothing. *)
Theorem splay_terminates_at_root s t x :
  well_formed s t → x ∈ addrs t →
  (∃ r0 i,
     let after j := Nat.iter j (splay_body r0 x) s in
     getRoot s = Some r0 ∧
     node_depth s x (length (path t x)) ∧
     (i ≤ length (path t x))%nat ∧
     splay (length (path t x)) x s = Some (after i) ∧
     getRoot (after i) = Some x ∧
     ∀ j, (j < i)%nat →
       getRoot (after j) ≠ Some x ∧
       ((node_depth (after j) x 1 ∧ node_depth (after (S j)) x 0) ∨
        (∃ d, node_depth (after j) x (S (S d)) ∧ node_depth (after (S j)) x d))) ∧
  (∀ fuel y h n, splay fuel y (mkTree None h n) = Some (mkTree None h n)).
Proof.
  intros Hwf Hx. pose proof (well_formed_spine s t x Hwf Hx) as Hs.
  split; [|done].
  destruct (root s) as [r0|] eqn:Er.
  2: { destruct Hs as (_ & _ & _ & _ & Hr). congruence. }
  pose proof (spine_last_root s x _ r0 Hs Er) as Hlast.
  destruct (splay_loop_spine x r0 (length (path t x)) s (path t x))
    as (s' & Hloop & Hs'); auto.
  destruct (splay_loop_iter _ r0 x s s' Hloop) as (i & Hi & -> & Hbefore).
  exists r0, i. cbv zeta. unfold getRoot, splay. rewrite Er.
  split; [done|]. split; [by apply spine_depth|]. split; [done|].
  split; [done|]. split; [by apply (spine_root_iff _ x [])|].
  intros j Hj. split; [by apply Hbefore|].
  destruct (iter_spine s x r0 (path t x) j Hs Hlast) as (chain & Hsj & Hlastj).
  change (Nat.iter (S j) (splay_body r0 x) s)
    with (splay_body r0 x (Nat.iter j (splay_body r0 x) s)).
  set (sj := Nat.iter j _ s) in *. destruct chain as [|p rest].
  { destruct (Hbefore j Hj). by apply (spine_root_iff sj x []). }
  assert (Er0 : r0 = List.last rest p).
  { rewrite <- Hlastj. by rewrite (last_cons_irrel p rest r0 p), last_cons_self. }
  pose proof (splay_body_spine sj x p rest Hsj) as Hnext. rewrite <- Er0 in Hnext.
  apply spine_depth in Hsj, Hnext.
  destruct rest as [|g rest]; [left|right; exists (length rest)]; done.
Qed.

(** C9: the theorem at the deepest node of the left chain 3 - 2 - 1. *)
Lemma splay_terminates_at_root_witness :
  well_formed chain3 chain3_tree ∧ 0%nat ∈ addrs chain3_tree ∧
  ∃ r0 i,
    let after j := Nat.iter j (splay_body r0 0%nat) chain3 in
    getRoot chain3 = Some r0 ∧
    node_depth chain3 0%nat 2 ∧
    (i ≤ 2)%nat ∧
    splay 2 0%nat chain3 = Some (after i) ∧
    getRoot (after i) = Some 0%nat ∧
    ∀ j, (j < i)%nat →
      getRoot (after j) ≠ Some 0%nat ∧
      ((node_depth (after j) 0%nat 1 ∧ node_depth (after (S j)) 0%nat 0) ∨
       (∃ d, node_depth (after j) 0%nat (S (S d)) ∧
             node_depth (after (S j)) 0%nat d)).
Proof.
  assert (Hin : 0%nat ∈ addrs chain3_tree) by (simpl; left).
  split; [exact chain3_wf|]. split; [exact Hin|].
  exact (proj1 (splay_terminates_at_root chain3 chain3_tree 0%nat chain3_wf Hin)).
Defined.

(** C10.  A freshly constructed tree is empty: [getRoot()] is absent and
    [inorder()] is the empty sequence. *)
Theorem constructor_is_empty :
  getRoot constructor = None ∧ ∀ fuel, inorder fuel constructor = Some [].
Proof. split; [done|]. intros fuel. by destruct fuel. Qed.

(** * The methods on well-formed trees

    [leftRotate] is a proper rotation, and so are the splays, inserts and
    deletes that only go through it, or through a [rightRotate] whose
    first assignment reads an absent child. *)

(** ** Traversal and extremal nodes of a well-formed tree *)

Lemma inorderHelper_shape t : ∀ s par fuel acc,
  shape s par t → (length (addrs t) ≤ fuel)%nat →
  inorderHelper fuel (top t) s acc = Some (acc ++ keys t).
Proof.
  induction t as [|l IHl a k r IHr]; intros s par fuel acc Hsh Hf.
  - simpl. rewrite app_nil_r. by destruct fuel.
  - destruct Hsh as (Ha & Hl & Hr). apply get_heap in Ha.
    simpl in Hf. rewrite length_app in Hf. simpl in Hf.
    destruct fuel as [|fuel]; [lia|]. simpl. rewrite Ha. simpl.
    rewrite (IHl s (Some a) fuel acc Hl) by lia.
    rewrite (IHr s (Some a) fuel _ Hr) by lia.
    f_equal. by rewrite <- !app_assoc.
Qed.

Lemma bst_sorted t : bst t → StronglySorted Z.lt (keys t).
Proof.
  induction t as [|l IHl a k r IHr]; intros Hb; simpl.
  - constructor.
  - destruct Hb as (Bl & Br' & Hbl & Hbr).
    apply StronglySorted_app. split; [|split].
    + intros x y Hx [->|Hy]%elem_of_cons; [by apply Bl|].
      apply Bl in Hx. apply Br' in Hy. lia.
    + by apply IHl.
    + apply StronglySorted_cons. split; [|by apply IHr].
      by apply Forall_forall.
Qed.

Lemma shape_subtree t : ∀ s par n,
  shape s par t → NoDup (addrs t) → n ∈ addrs t →
  (∀ p, par = Some p → p ∉ addrs t) →
  top (subtree t n) = Some n ∧
  (∀ y, y ∈ addrs (subtree t n) → y ∈ addrs t) ∧
  shape s (parent (get s n)) (subtree t n) ∧
  (∀ p, parent (get s n) = Some p → p ∉ addrs (subtree t n)) ∧
  (top t = Some n ∧ parent (get s n) = par ∨
   top t ≠ Some n ∧ ∃ p, parent (get s n) = Some p ∧ p ∈ addrs t).
Proof.
  induction t as [|l IHl a k r IHr]; intros s par n Hsh Hnd Hn Hpar.
  - by apply elem_of_nil in Hn.
  - pose proof Hsh as (Ha & Hl & Hr). apply get_heap in Ha.
    simpl in Hnd, Hn. apply NoDup_app in Hnd as (Hndl & Hdisj & Hnd).
    apply NoDup_cons in Hnd as [Har Hndr].
    assert (Hal : a ∉ addrs l) by (intros ?; apply (Hdisj a); [done|left]).
    simpl subtree. case_decide as E.
    { subst a. rewrite Ha. simpl.
      split; [done|]. split; [done|]. split; [done|]. split; [done|]. by left. }
    assert (Hin : ∀ u, (∀ y, y ∈ addrs u → y ∈ addrs l ∨ y ∈ addrs r) →
              ∀ y, y ∈ addrs u → y ∈ addrs (Br l a k r)).
    { intros u Hu y Hy. simpl. apply elem_of_app.
      destruct (Hu y Hy); [by left|right; by right]. }
    apply elem_of_app in Hn as [Hn|[->|Hn]%elem_of_cons]; [|done|].
    + rewrite decide_True by done.
      destruct (IHl s (Some a) n Hl Hndl Hn) as (Ht & Hsub & Hs & Hp & Hcase).
      { by intros p [= <-]. }
      split; [done|]. split; [apply Hin; auto|]. split; [done|]. split; [done|].
      right. split; [by intros [= ->]|].
      destruct Hcase as [[_ ->]|(_ & p & -> & Hpin)].
      * exists a. split; [done|]. simpl. apply elem_of_app. right; left.
      * exists p. split; [done|]. simpl. apply elem_of_app. by left.
    + rewrite decide_False by (intros Hnl; apply (Hdisj n Hnl); by right).
      destruct (IHr s (Some a) n Hr Hndr Hn) as (Ht & Hsub & Hs & Hp & Hcase).
      { by intros p [= <-]. }
      split; [done|]. split; [apply Hin; auto|]. split; [done|]. split; [done|].
      right. split; [by intros [= ->]|].
      destruct Hcase as [[_ ->]|(_ & p & -> & Hpin)].
      * exists a. split; [done|]. simpl. apply elem_of_app. right; left.
      * exists p. split; [done|]. simpl. apply elem_of_app. right; by right.
Qed.

Lemma bst_subtree t n : bst t → bst (subtree t n).
Proof.
  induction t as [|l IHl a k r IHr]; intros Hb; [done|].
  simpl. repeat case_decide; [done|..]; destruct Hb as (_ & _ & ? & ?); auto.
Qed.

Lemma subtree_length t n : (length (addrs (subtree t n)) ≤ length (addrs t))%nat.
Proof.
  induction t as [|l IHl a k r IHr]; [done|].
  simpl. repeat case_decide; simpl; rewrite ?length_app; simpl; lia.
Qed.

Lemma findMax_shape t : ∀ s par a fuel,
  top t = Some a → shape s par t → bst t → (length (addrs t) ≤ fuel)%nat →
  ∃ m, findMax fuel a s = Some m ∧ m ∈ addrs t ∧ right (get s m) = None ∧
       data (get s m) ∈ keys t ∧ ∀ k, k ∈ keys t → k ≤ data (get s m).
Proof.
  induction t as [|l _ b k r IHr]; intros s par a fuel Ht Hsh Hb Hf; [done|].
  injection Ht as <-. destruct Hsh as (Ha & Hl & Hr). apply get_heap in Ha.
  destruct Hb as (Bl & Br' & _ & Hbr).
  simpl in Hf. rewrite length_app in Hf. simpl in Hf.
  destruct r as [|rl ra rk rr] eqn:Er.
  - exists b. split; [|split; [|split; [|split]]].
    + destruct fuel; simpl; by rewrite Ha.
    + simpl. apply elem_of_app. right; left.
    + by rewrite Ha.
    + rewrite Ha. simpl. apply elem_of_app. right; left.
    + rewrite Ha. simpl. intros k' [Hk|[->|Hk]%elem_of_cons]%elem_of_app.
      * apply Bl in Hk. lia.
      * lia.
      * by apply elem_of_nil in Hk.
  - rewrite <- Er in *. assert (Htr : top r = Some ra) by (by subst r).
    destruct fuel as [|fuel]; [subst r; simpl in Hf; lia|].
    destruct (IHr s (Some b) ra fuel Htr Hr Hbr ltac:(lia))
      as (m & Hfm & Hm & Hrm & Hdm & Hmax).
    exists m. split; [|split; [|split; [|split]]].
    + simpl. rewrite Ha. simpl. by rewrite Htr.
    + simpl. apply elem_of_app. right; by right.
    + done.
    + simpl. apply elem_of_app. right; by right.
    + pose proof (Br' _ Hdm).
      intros k' [Hk|[->|Hk]%elem_of_cons]%elem_of_app.
      * apply Bl in Hk. lia.
      * lia.
      * by apply Hmax.
Qed.

Lemma findMin_shape t : ∀ s par a fuel,
  top t = Some a → shape s par t → bst t → (length (addrs t) ≤ fuel)%nat →
  ∃ m, findMin fuel a s = Some m ∧ m ∈ addrs t ∧ left (get s m) = None ∧
       data (get s m) ∈ keys t ∧ ∀ k, k ∈ keys t → data (get s m) ≤ k.
Proof.
  induction t as [|l IHl b k r _]; intros s par a fuel Ht Hsh Hb Hf; [done|].
  injection Ht as <-. destruct Hsh as (Ha & Hl & Hr). apply get_heap in Ha.
  destruct Hb as (Bl & Br' & Hbl & _).
  simpl in Hf. rewrite length_app in Hf. simpl in Hf.
  destruct l as [|ll la lk lr] eqn:El.
  - exists b. split; [|split; [|split; [|split]]].
    + destruct fuel; simpl; by rewrite Ha.
    + simpl. left.
    + by rewrite Ha.
    + rewrite Ha. simpl. left.
    + rewrite Ha. simpl. intros k' [->|Hk]%elem_of_cons; [lia|].
      apply Br' in Hk. lia.
  - rewrite <- El in *. assert (Htl : top l = Some la) by (by subst l).
    destruct fuel as [|fuel]; [subst l; simpl in Hf; lia|].
    destruct (IHl s (Some b) la fuel Htl Hl Hbl ltac:(lia))
      as (m & Hfm & Hm & Hlm & Hdm & Hmin).
    exists m. split; [|split; [|split; [|split]]].
    + simpl. rewrite Ha. simpl. by rewrite Htl.
    + simpl. apply elem_of_app. by left.
    + done.
    + simpl. apply elem_of_app. by left.
    + pose proof (Bl _ Hdm).
      intros k' [Hk|[->|Hk]%elem_of_cons]%elem_of_app.
      * by apply Hmin.
      * lia.
      * apply Br' in Hk. lia.
Qed.

(** ** Cells that exist stay *)

Lemma lookup_get s a : is_Some (heap s !! a) → heap s !! a = Some (get s a).
Proof. intros [v Hv]. unfold get. by rewrite Hv. Qed.

Lemma alloc_put a nd s y :
  is_Some (heap s !! y) → is_Some (heap (put a nd s) !! y).
Proof.
  intros H. unfold put. simpl. destruct (decide (a = y)) as [->|E].
  - rewrite lookup_insert_eq. eauto.
  - by rewrite lookup_insert_ne.
Qed.

Lemma alloc_set_left a v s y :
  is_Some (heap s !! y) → is_Some (heap (set_left a v s) !! y).
Proof. apply alloc_put. Qed.

Lemma alloc_set_right a v s y :
  is_Some (heap s !! y) → is_Some (heap (set_right a v s) !! y).
Proof. apply alloc_put. Qed.

Lemma alloc_set_parent a v s y :
  is_Some (heap s !! y) → is_Some (heap (set_parent a v s) !! y).
Proof. apply alloc_put. Qed.

Lemma alloc_set_root v s y :
  is_Some (heap s !! y) → is_Some (heap (set_root v s) !! y).
Proof. done. Qed.

Ltac alloc_steps :=
  repeat first [ apply alloc_set_left | apply alloc_set_right
               | apply alloc_set_parent | apply alloc_set_root ].

Lemma alloc_leftRotate n s y :
  is_Some (heap s !! y) → is_Some (heap (leftRotate n s) !! y).
Proof.
  intros H. unfold leftRotate. cbv zeta.
  repeat case_match; repeat case_decide; alloc_steps; done.
Qed.

Lemma alloc_rightRotate n s y :
  is_Some (heap s !! y) → is_Some (heap (rightRotate n s) !! y).
Proof.
  intros H. unfold rightRotate. cbv zeta.
  repeat case_match; repeat case_decide; alloc_steps; done.
Qed.

Lemma shape_allocated t : ∀ s par y,
  shape s par t → y ∈ addrs t → is_Some (heap s !! y).
Proof.
  induction t as [|l IHl a k r IHr]; intros s par y Hsh Hy.
  - by apply elem_of_nil in Hy.
  - destruct Hsh as (Ha & Hl & Hr).
    apply elem_of_app in Hy as [Hy|[->|Hy]%elem_of_cons]; eauto.
Qed.

Lemma shape_frame t : ∀ s s' par,
  shape s par t → (∀ y, y ∈ addrs t → heap s' !! y = heap s !! y) →
  shape s' par t.
Proof.
  induction t as [|l IHl a k r IHr]; intros s s' par Hsh Hf; [done|].
  destruct Hsh as (Ha & Hl & Hr). split; [|split].
  - rewrite Hf; [done|]. simpl. apply elem_of_app. right; left.
  - apply (IHl s); [done|]. intros y Hy. apply Hf. simpl. apply elem_of_app. by left.
  - apply (IHr s); [done|]. intros y Hy. apply Hf. simpl.
    apply elem_of_app. right; by right.
Qed.

(** The top of a subtree gets a new parent; nothing else in it changes. *)
Lemma shape_reparent t s s' par par' :
  shape s par t → NoDup (addrs t) →
  (∀ a, top t = Some a →
     heap s' !! a = Some (mkNode (data (get s a)) (left (get s a))
                                 (right (get s a)) par')) →
  (∀ y, y ∈ addrs t → top t ≠ Some y → heap s' !! y = heap s !! y) →
  shape s' par' t.
Proof.
  destruct t as [|l a k r]; [done|]. intros (Ha & Hl & Hr) Hnd Htop Hf.
  simpl in Hnd. apply NoDup_app in Hnd as (_ & Hdisj & Hnd).
  apply NoDup_cons in Hnd as [Har _].
  simpl. rewrite (Htop a eq_refl). apply get_heap in Ha. rewrite Ha. simpl.
  split; [done|]. split.
  - apply (shape_frame l s); [done|]. intros y Hy. apply Hf.
    + simpl. apply elem_of_app. by left.
    + intros [= ->]. apply (Hdisj y Hy). left.
  - apply (shape_frame r s); [done|]. intros y Hy. apply Hf.
    + simpl. apply elem_of_app. right; by right.
    + by intros [= ->].
Qed.

Lemma top_graft_ne t n u : top t ≠ Some n → top (graft t n u) = top t.
Proof.
  destruct t as [|l a k r]; [done|]. simpl. intros H.
  rewrite decide_False by congruence. by case_decide.
Qed.

Lemma top_graft_eq t n u : top t = Some n → graft t n u = u.
Proof.
  destruct t as [|l a k r]; [done|]. simpl. intros [= ->]. by rewrite decide_True.
Qed.

(** ** Replacing a subtree in the store *)

Section graft.
Context (s s' : SplayTree) (n r' : addr) (u : tree) (site : list addr).
Hypothesis Hu_top : top u = Some r'.
Hypothesis Hu : shape s' (parent (get s n)) u.
Hypothesis Hframe : ∀ y,
  is_Some (heap s !! y) → y ∉ site → parent (get s n) ≠ Some y →
  heap s' !! y = heap s !! y.
Hypothesis Hrelink : ∀ p, parent (get s n) = Some p →
  (left (get s p) = Some n → right (get s p) ≠ Some n →
   heap s' !! p = Some (mkNode (data (get s p)) (Some r') (right (get s p))
                               (parent (get s p)))) ∧
  (right (get s p) = Some n → left (get s p) ≠ Some n →
   heap s' !! p = Some (mkNode (data (get s p)) (left (get s p)) (Some r')
                               (parent (get s p)))).

Lemma graft_shape t : ∀ par,
  shape s par t → NoDup (addrs t) → n ∈ addrs t →
  (∀ p, par = Some p → p ∉ addrs t) →
  addrs (subtree t n) = site →
  shape s' par (graft t n u).
Proof.
  induction t as [|l IHl a k r IHr]; intros par Hsh Hnd Hn Hpar Hsite.
  - by apply elem_of_nil in Hn.
  - pose proof Hsh as (Ha & Hl & Hr). apply get_heap in Ha.
    pose proof Hnd as Hnd0.
    simpl in Hnd. apply NoDup_app in Hnd as (Hndl & Hdisj & Hnd).
    apply NoDup_cons in Hnd as [Har Hndr].
    assert (Hal : a ∉ addrs l) by (intros ?; apply (Hdisj a); [done|left]).
    simpl in Hsite |- *. case_decide as E.
    { subst a. rewrite Ha in Hu. exact Hu. }
    assert (Hparl : ∀ p, Some a = Some p → p ∉ addrs l) by (by intros p [= <-]).
    assert (Hparr : ∀ p, Some a = Some p → p ∉ addrs r) by (by intros p [= <-]).
    simpl in Hn. apply elem_of_app in Hn as [Hn|[->|Hn]%elem_of_cons]; [|done|].
    + rewrite decide_True in Hsite |- * by done.
      destruct (shape_subtree l s (Some a) n Hl Hndl Hn Hparl)
        as (_ & Hsub & _ & _ & Hcase).
      rewrite Hsite in Hsub.
      assert (Hnr : n ∉ addrs r) by (intros ?; apply (Hdisj n Hn); by right).
      split; [|split].
      * destruct Hcase as [[Htl Hpn]|(Htl & p & Hpn & Hp)].
        -- rewrite (top_graft_eq l n u Htl), Hu_top.
           destruct (Hrelink a Hpn) as [-> _]; rewrite Ha; simpl; try done.
           intros Hx. apply top_in_addrs in Hx. done.
        -- rewrite (top_graft_ne l n u Htl).
           assert (Hfa : heap s' !! a = heap s !! a).
           { apply Hframe.
             - apply (shape_allocated _ s par a Hsh).
               simpl. apply elem_of_app. right; left.
             - intros Hx. by apply Hsub in Hx.
             - rewrite Hpn. intros [= ->]. done. }
           rewrite Hfa. by destruct Hsh.
      * apply IHl; auto.
      * apply (shape_frame r s); [done|]. intros y Hy. apply Hframe.
        -- by apply (shape_allocated r s (Some a)).
        -- intros Hx. apply Hsub in Hx. apply (Hdisj y Hx). by right.
        -- destruct Hcase as [[_ ->]|(_ & p & -> & Hp)]; intros [= ->];
             [done|]. apply (Hdisj y Hp). by right.
    + assert (Hnl : n ∉ addrs l) by (intros Hx; apply (Hdisj n Hx); by right).
      rewrite decide_False in Hsite |- * by done.
      destruct (shape_subtree r s (Some a) n Hr Hndr Hn Hparr)
        as (_ & Hsub & _ & _ & Hcase).
      rewrite Hsite in Hsub.
      split; [|split].
      * destruct Hcase as [[Htr Hpn]|(Htr & p & Hpn & Hp)].
        -- rewrite (top_graft_eq r n u Htr), Hu_top.
           destruct (Hrelink a Hpn) as [_ ->]; rewrite Ha; simpl; try done.
           intros Hx. apply top_in_addrs in Hx. done.
        -- rewrite (top_graft_ne r n u Htr).
           assert (Hfa : heap s' !! a = heap s !! a).
           { apply Hframe.
             - apply (shape_allocated _ s par a Hsh).
               simpl. apply elem_of_app. right; left.
             - intros Hx. by apply Hsub in Hx.
             - rewrite Hpn. intros [= ->]. done. }
           rewrite Hfa. by destruct Hsh.
      * apply (shape_frame l s); [done|]. intros y Hy. apply Hframe.
        -- by apply (shape_allocated l s (Some a)).
        -- intros Hx. apply Hsub in Hx. apply (Hdisj y Hy). by right.
        -- destruct Hcase as [[_ ->]|(_ & p & -> & Hp)]; intros [= ->];
             [done|]. apply (Hdisj y Hy). by right.
      * apply IHr; auto.
Qed.
End graft.

Lemma subtree_NoDup t n : NoDup (addrs t) → NoDup (addrs (subtree t n)).
Proof.
  induction t as [|l IHl a k r IHr]; intros Hnd; [done|].
  simpl. case_decide; [done|].
  simpl in Hnd. apply NoDup_app in Hnd as (Hndl & _ & Hnd).
  apply NoDup_cons in Hnd as [_ Hndr]. case_decide; auto.
Qed.

Lemma keys_graft t n u :
  keys u = keys (subtree t n) → keys (graft t n u) = keys t.
Proof.
  induction t as [|l IHl a k r IHr]; intros Hu; [done|].
  simpl in *. repeat case_decide; simpl; [done|..]; by rewrite ?IHl, ?IHr.
Qed.

Lemma addrs_graft t n u :
  addrs u = addrs (subtree t n) → addrs (graft t n u) = addrs t.
Proof.
  induction t as [|l IHl a k r IHr]; intros Hu; [done|].
  simpl in *. repeat case_decide; simpl; [done|..]; by rewrite ?IHl, ?IHr.
Qed.

Lemma bst_graft t n u :
  bst t → bst u → keys u = keys (subtree t n) → bst (graft t n u).
Proof.
  induction t as [|l IHl a k r IHr]; intros Hb Hbu Hu; [done|].
  simpl in *. destruct Hb as (Bl & Br' & Hbl & Hbr).
  repeat case_decide; simpl; [done|..].
  - rewrite (keys_graft l n u Hu). auto.
  - rewrite (keys_graft r n u Hu). auto.
Qed.

Lemma keys_rotl_top t : keys (rotl_top t) = keys t.
Proof.
  destruct t as [|a n k [|b r kr c]]; try done. simpl. by rewrite <- app_assoc.
Qed.

Lemma addrs_rotl_top t : addrs (rotl_top t) = addrs t.
Proof.
  destruct t as [|a n k [|b r kr c]]; try done. simpl. by rewrite <- app_assoc.
Qed.

Lemma bst_rotl_top t : bst t → bst (rotl_top t).
Proof.
  destruct t as [|a n k [|b r kr c]]; try done.
  simpl. intros (Ba & Br' & Ha & (Bb & Bc & Hb & Hc)).
  assert (k < kr) by (apply Br'; apply elem_of_app; right; left).
  split; [|split; [|split]]; [| |split; [|split]|]; try done.
  - intros k' [Hk|[->|Hk]%elem_of_cons]%elem_of_app; [|done|by apply Bb].
    apply Ba in Hk. lia.
  - intros k' Hk. apply Br'. apply elem_of_app. by left.
Qed.

(** ** [leftRotate] on a well-formed tree *)

Lemma leftRotate_get_child s n r c :
  right (get s n) = Some r → left (get s r) = Some c →
  r ≠ n → c ≠ n → c ≠ r →
  parent (get s n) ≠ Some n → parent (get s n) ≠ Some r →
  parent (get s n) ≠ Some c →
  get (leftRotate n s) c
    = mkNode (data (get s c)) (left (get s c)) (right (get s c)) (Some n).
Proof.
  intros Hr Hc Hrn Hcn Hcr Hp1 Hp2 Hp3. unfold leftRotate. rewrite Hr. cbv zeta.
  autorewrite with heap. rewrite Hc.
  autorewrite with heap. rewrite (decide_False (P := n = c)) by congruence.
  autorewrite with heap. rewrite (decide_False (P := n = r)) by congruence.
  destruct (parent (get s n)) as [g|] eqn:Eg; rot_cases; reflexivity.
Qed.

Lemma leftRotate_wf s t n :
  well_formed s t → n ∈ addrs t → right (get s n) ≠ None →
  well_formed (leftRotate n s) (rotl t n) ∧
  keys (rotl t n) = keys t ∧ addrs (rotl t n) = addrs t.
Proof.
  intros (Hroot & Hsh & Hnd & Hb) Hn Hright.
  assert (Hk : keys (rotl t n) = keys t).
  { apply keys_graft, keys_rotl_top. }
  assert (Ha : addrs (rotl t n) = addrs t).
  { apply addrs_graft, addrs_rotl_top. }
  split; [|done].
  destruct (shape_subtree t s None n Hsh Hnd Hn) as (Htop & Hsub & Hs & Hp & Hcase);
    [done|].
  pose proof (subtree_NoDup t n Hnd) as Hnds.
  unfold rotl in *.
  destruct (subtree t n) as [|A n' kn R] eqn:Esite; [done|].
  injection Htop as ->.
  pose proof Hs as (Hcn & HA & HR). apply get_heap in Hcn.
  destruct R as [|B r kr C]; [by rewrite Hcn in Hright|].
  pose proof HR as (Hcr & HB & HC). apply get_heap in Hcr.
  set (pn := parent (get s n)) in *.
  simpl in Hnds. apply NoDup_app in Hnds as (HndA & HdA & Hnds).
  apply NoDup_cons in Hnds as [HnR HndR].
  apply NoDup_app in HndR as (HndB & HdB & HndR).
  apply NoDup_cons in HndR as [HrC HndC].
  assert (Hrn : r ≠ n).
  { intros ->. apply HnR. apply elem_of_app. right; left. }
  assert (HnB : n ∉ addrs B) by (intros ?; apply HnR; apply elem_of_app; by left).
  assert (HnC : n ∉ addrs C).
  { intros ?. apply HnR. apply elem_of_app. right; by right. }
  assert (HrB : r ∉ addrs B) by (intros ?; apply (HdB r); [done|left]).
  assert (Hpn : pn ≠ Some n ∧ pn ≠ Some r ∧ ∀ c, c ∈ addrs B → pn ≠ Some c).
  { split; [|split]; [| |intros c Hc]; intros Hx; apply (Hp _ Hx); simpl;
      apply elem_of_app; right; [left|right|right].
    - apply elem_of_app. right; left.
    - apply elem_of_app. by left. }
  destruct Hpn as (Hp1 & Hp2 & Hp3).
  assert (Hright' : right (get s n) = Some r) by (by rewrite Hcn).
  assert (Hget : ∀ y, top B ≠ Some y →
    get (leftRotate n s) y =
      if decide (y = n) then mkNode kn (top A) (top B) (Some r)
      else if decide (y = r) then mkNode kr (Some n) (top C) pn
      else if decide (pn = Some y) then
        (if decide (left (get s y) = Some n)
         then mkNode (data (get s y)) (Some r) (right (get s y)) (parent (get s y))
         else mkNode (data (get s y)) (left (get s y)) (Some r) (parent (get s y)))
      else get s y).
  { intros y Hy. rewrite (leftRotate_get s n r y Hright' Hrn Hp1 Hp2).
    - rewrite Hcn, Hcr. done.
    - rewrite Hcr. simpl. intros c Hc. split; [|congruence].
      intros ->. by apply top_in_addrs in Hc. }
  assert (Hlook : ∀ y, is_Some (heap s !! y) →
    heap (leftRotate n s) !! y = Some (get (leftRotate n s) y)).
  { intros y Hy. by apply lookup_get, alloc_leftRotate. }
  assert (Hsame : ∀ y, is_Some (heap s !! y) →
    y ≠ n → y ≠ r → top B ≠ Some y → pn ≠ Some y →
    heap (leftRotate n s) !! y = heap s !! y).
  { intros y Hy H1 H2 H3 H4. rewrite (Hlook y Hy), (Hget y H3).
    rewrite !decide_False by done. by rewrite lookup_get. }
  assert (Halloc : ∀ y, y ∈ addrs (Br A n kn (Br B r kr C)) → is_Some (heap s !! y)).
  { intros y Hy. exact (shape_allocated _ s pn y Hs Hy). }
  assert (Hu : shape (leftRotate n s) pn (Br (Br A n kn B) r kr C)).
  { assert (Hr_in : r ∈ addrs (Br A n kn (Br B r kr C))).
    { simpl. apply elem_of_app. right; right. apply elem_of_app. right; left. }
    assert (Hn_in : n ∈ addrs (Br A n kn (Br B r kr C))).
    { simpl. apply elem_of_app. right; left. }
    split; [|split; [split; [|split]|]].
    - rewrite (Hlook r) by auto. rewrite Hget.
      + rewrite decide_False by done. by rewrite decide_True.
      + intros Hx. by apply top_in_addrs in Hx.
    - rewrite (Hlook n) by auto. rewrite Hget.
      + by rewrite decide_True.
      + intros Hx. by apply top_in_addrs in Hx.
    - apply (shape_frame A s); [done|]. intros y Hy. apply Hsame.
      + apply Halloc. simpl. apply elem_of_app. by left.
      + intros ->. apply (HdA n Hy). left.
      + intros ->. apply (HdA r Hy). right. apply elem_of_app. right; left.
      + intros Hx%top_in_addrs. apply (HdA y Hy). right. apply elem_of_app. by left.
      + intros Hx. apply (Hp y Hx). simpl. apply elem_of_app. by left.
    - apply (shape_reparent B s _ (Some r)); [done|done| |].
      + intros c Hc. pose proof (top_in_addrs _ _ Hc) as Hcin.
        rewrite Hlook.
        2: { apply Halloc. simpl. apply elem_of_app. right; right.
             apply elem_of_app. by left. }
        f_equal. apply (leftRotate_get_child s n r c); auto.
        * by rewrite Hcr.
        * by intros ->.
        * by intros ->.
      + intros y Hy Hty. apply Hsame; auto.
        * apply Halloc. simpl. apply elem_of_app. right; right.
          apply elem_of_app. by left.
        * by intros ->.
        * by intros ->.
    - apply (shape_frame C s); [done|]. intros y Hy. apply Hsame.
      + apply Halloc. simpl. apply elem_of_app. right; right.
        apply elem_of_app. right; by right.
      + by intros ->.
      + by intros ->.
      + intros Hx%top_in_addrs. apply (HdB y Hx). by right.
      + intros Hx. apply (Hp y Hx). simpl. apply elem_of_app. right; right.
        apply elem_of_app. right; by right. }
  split; [|split; [|split]].
  - rewrite (leftRotate_root s n r Hright' Hrn).
    2: { rewrite Hcr. simpl. intros c Hc ->. by apply top_in_addrs in Hc. }
    fold pn. destruct Hcase as [[Ht Hpar]|(Ht & p & Hpar & _)].
    + rewrite Hpar. by rewrite (top_graft_eq t n _ Ht).
    + rewrite Hpar. by rewrite top_graft_ne.
  - apply (graft_shape s (leftRotate n s) n r _ (addrs (Br A n kn (Br B r kr C))));
      auto.
    + intros y Hy Hsite Hpy. fold pn in Hpy. apply Hsame; auto.
      * intros ->. apply Hsite. simpl. apply elem_of_app. right; left.
      * intros ->. apply Hsite. simpl. apply elem_of_app. right; right.
        apply elem_of_app. right; left.
      * intros Hx%top_in_addrs. apply Hsite. simpl. apply elem_of_app.
        right; right. apply elem_of_app. by left.
    + intros p Hpar. fold pn in Hpar.
      assert (Hpa : is_Some (heap s !! p)).
      { destruct Hcase as [[_ Hx]|(_ & p' & Hx & Hin)]; [congruence|].
        assert (p' = p) as -> by congruence. by apply (shape_allocated t s None). }
      assert (Hgp : get (leftRotate n s) p =
        if decide (left (get s p) = Some n)
        then mkNode (data (get s p)) (Some r) (right (get s p)) (parent (get s p))
        else mkNode (data (get s p)) (left (get s p)) (Some r) (parent (get s p))).
      { rewrite Hget.
        - rewrite decide_False by (intros ->; congruence).
          rewrite decide_False by (intros ->; congruence).
          by rewrite decide_True.
        - intros Hx%top_in_addrs. by apply (Hp3 _ Hx). }
      rewrite (Hlook p Hpa), Hgp. split; intros H1 H2.
      * by rewrite decide_True.
      * by rewrite decide_False.
    + done.
    + by rewrite Esite.
  - by rewrite Ha.
  - apply bst_graft; [done| |].
    + apply bst_rotl_top. rewrite <- Esite. by apply bst_subtree.
    + rewrite Esite. apply keys_rotl_top.
Qed.

(** ** Hanging a new leaf *)

Lemma lookup_put a nd s y :
  heap (put a nd s) !! y = if decide (y = a) then Some nd else heap s !! y.
Proof.
  unfold put. simpl. case_decide as E.
  - subst. apply lookup_insert_eq.
  - by apply lookup_insert_ne.
Qed.

Lemma elem_of_addrs_attach t a d y :
  y ∈ addrs (attach t a d) ↔ y = a ∨ y ∈ addrs t.
Proof.
  induction t as [|l IHl b k r IHr]; simpl.
  - rewrite elem_of_cons. done.
  - case_decide; simpl; rewrite !elem_of_app, !elem_of_cons, ?IHl, ?IHr,
      ?elem_of_app, ?elem_of_cons; tauto.
Qed.

Lemma elem_of_keys_attach t a d k :
  k ∈ keys (attach t a d) ↔ k = d ∨ k ∈ keys t.
Proof.
  induction t as [|l IHl b k' r IHr]; simpl.
  - rewrite elem_of_cons. done.
  - case_decide; simpl; rewrite !elem_of_app, !elem_of_cons, ?IHl, ?IHr,
      ?elem_of_app, ?elem_of_cons; tauto.
Qed.

Lemma NoDup_attach t a d :
  NoDup (addrs t) → a ∉ addrs t → NoDup (addrs (attach t a d)).
Proof.
  induction t as [|l IHl b k r IHr]; intros Hnd Ha; simpl.
  - apply NoDup_singleton.
  - simpl in Hnd, Ha. apply NoDup_app in Hnd as (Hndl & Hdisj & Hnd).
    apply NoDup_cons in Hnd as [Hbr Hndr].
    rewrite elem_of_app, elem_of_cons in Ha.
    case_decide; simpl; apply NoDup_app.
    + split; [apply IHl; tauto|]. split; [|by apply NoDup_cons].
      intros y [->|Hy]%elem_of_addrs_attach; [|by apply Hdisj].
      rewrite elem_of_cons. tauto.
    + split; [done|]. split.
      * intros y Hy [->|[->|Hy']%elem_of_addrs_attach]%elem_of_cons.
        -- apply (Hdisj b Hy). left.
        -- tauto.
        -- apply (Hdisj y Hy). by right.
      * apply NoDup_cons. split; [|apply IHr; tauto].
        intros [->|Hy]%elem_of_addrs_attach; tauto.
Qed.

Lemma bst_attach t a d : bst t → d ∉ keys t → bst (attach t a d).
Proof.
  induction t as [|l IHl b k r IHr]; intros Hb Hd; simpl.
  - repeat split; intros k' Hk; by apply elem_of_nil in Hk.
  - destruct Hb as (Bl & Br' & Hbl & Hbr). simpl in Hd.
    rewrite elem_of_app, elem_of_cons in Hd.
    case_decide; simpl.
    + split; [|split; [done|split; [apply IHl; tauto|done]]].
      intros k' [->|Hk]%elem_of_keys_attach; auto.
    + split; [done|]. split; [|split; [done|apply IHr; tauto]].
      intros k' [->|Hk]%elem_of_keys_attach; auto.
      assert (d ≠ k) by tauto. lia.
Qed.

Lemma length_addrs_attach t a d :
  length (addrs (attach t a d)) = S (length (addrs t)).
Proof.
  induction t as [|l IHl b k r IHr]; simpl; [done|].
  case_decide; simpl; rewrite !length_app; simpl; rewrite ?IHl, ?IHr; lia.
Qed.

Lemma top_attach t a d : t ≠ Leaf → top (attach t a d) = top t.
Proof. destruct t; [done|]. intros _. simpl. by case_decide. Qed.

(** The descent of [insert] stops at a node [p] of the tree, and linking the
    new cell below [p] lays out [attach t new d]. *)
Lemma attach_shape (new : addr) (d : Z) t : ∀ s1 par par0 a0 fuel,
  new ∉ addrs t → NoDup (addrs t) → top t = Some a0 → shape s1 par t →
  heap s1 !! new = Some (mkNode d None None None) →
  (length (addrs t) ≤ fuel)%nat →
  ∃ p, insert_descend fuel d (Some a0) par0 s1 = Some (Some p) ∧ p ∈ addrs t ∧
       shape (link_leaf d new p s1) par (attach t new d).
Proof.
  induction t as [|l IHl b k r IHr];
    intros s1 par par0 a0 fuel Hnew Hnd Ht Hsh Hc Hf; [done|].
  injection Ht as <-. pose proof Hsh as (Hb & Hl & Hr).
  pose proof (get_heap _ _ _ Hb) as Hgb.
  pose proof (get_heap _ _ _ Hc) as Hgn.
  simpl in Hnew, Hf, Hnd. rewrite elem_of_app, elem_of_cons in Hnew.
  apply NoDup_app in Hnd as (Hndl & Hdisj & Hnd).
  apply NoDup_cons in Hnd as [Hbr Hndr].
  assert (Hbl : b ∉ addrs l) by (intros ?; apply (Hdisj b); [done|left]).
  rewrite length_app in Hf. simpl in Hf.
  destruct fuel as [|fuel]; [lia|]. simpl insert_descend. rewrite Hgb. simpl.
  assert (Hbn : b ≠ new) by (intros ->; tauto).
  assert (Hnl : new ∉ addrs l) by tauto.
  assert (Hnr : new ∉ addrs r) by tauto.
  set (link := λ p, link_leaf d new p s1).
  assert (Hother : ∀ p y, y ≠ p → y ≠ new → heap (link p) !! y = heap s1 !! y).
  { intros p y H1 H2. unfold link, link_leaf, set_parent. rewrite lookup_put.
    rewrite decide_False by done.
    case_decide; unfold set_left, set_right; by rewrite lookup_put, decide_False. }
  assert (Hfr : ∀ p u pu, p ∉ addrs u → new ∉ addrs u → shape s1 pu u →
            shape (link p) pu u).
  { intros p u pu Hp Hn Hu. apply (shape_frame u s1); [done|].
    intros y Hy. apply Hother; intros ->; done. }
  assert (Hcell_new : ∀ p, p ≠ new →
    heap (link p) !! new = Some (mkNode d None None (Some p))).
  { intros p Hp. unfold link, link_leaf, set_parent. rewrite lookup_put, decide_True by done.
    case_decide; unfold set_left, set_right;
      rewrite get_put, decide_False by done; by rewrite Hgn. }
  assert (Hcell_b : heap (link b) !! b =
    Some (if decide (d < k) then mkNode k (Some new) (top r) par
          else mkNode k (top l) (Some new) par)).
  { unfold link, link_leaf, set_parent. rewrite lookup_put, decide_False by done.
    rewrite Hgb. cbn [data].
    case_decide; unfold set_left, set_right;
      rewrite lookup_put, decide_True by done; by rewrite Hgb. }
  case_decide as Hd.
  - destruct l as [|ll la lk lr] eqn:El.
    + exists b. split; [by destruct fuel|]. split; [left|].
      cbn [attach shape top]. fold (link b).
      split; [|split; [split; [|done]|]].
      * exact Hcell_b.
      * by apply Hcell_new.
      * by apply Hfr.
    + rewrite <- El in *. assert (Htl : top l = Some la) by (by subst l).
      destruct (IHl s1 (Some b) (Some b) la fuel Hnl Hndl Htl Hl Hc ltac:(lia))
        as (p & Hdesc & Hp & Hs2).
      assert (Hpb : p ≠ b) by (by intros ->).
      exists p. rewrite Htl. split; [done|].
      split; [apply elem_of_app; by left|].
      cbn [attach shape top]. fold (link p).
      split; [|split; [done|]].
      * rewrite Hother by done. rewrite top_attach by (by subst l). done.
      * apply Hfr; [|done|done]. intros Hx. apply (Hdisj p Hp). by right.
  - destruct r as [|rl ra rk rr] eqn:Er.
    + exists b. split; [by destruct fuel|].
      split; [apply elem_of_app; right; left|].
      cbn [attach shape top]. fold (link b).
      split; [|split; [|split; [|done]]].
      * exact Hcell_b.
      * by apply Hfr.
      * by apply Hcell_new.
    + rewrite <- Er in *. assert (Htr : top r = Some ra) by (by subst r).
      destruct (IHr s1 (Some b) (Some b) ra fuel Hnr Hndr Htr Hr Hc ltac:(lia))
        as (p & Hdesc & Hp & Hs2).
      assert (Hpb : p ≠ b) by (by intros ->).
      exists p. rewrite Htr. split; [done|].
      split; [apply elem_of_app; right; by right|].
      cbn [attach shape top]. fold (link p).
      split; [|split; [|done]].
      * rewrite Hother by done. rewrite top_attach by (by subst r). done.
      * apply Hfr; [|done|done]. intros Hx. apply (Hdisj p Hx). by right.
Qed.

(** ** [insert] on a well-formed tree *)

Lemma next_leftRotate n s : next (leftRotate n s) = next s.
Proof. unfold leftRotate. cbv zeta. by repeat case_match; repeat case_decide. Qed.

Lemma next_rightRotate n s : next (rightRotate n s) = next s.
Proof. unfold rightRotate. cbv zeta. by repeat case_match; repeat case_decide. Qed.

Lemma next_splay_body r0 x s : next (splay_body r0 x s) = next s.
Proof.
  unfold splay_body.
  repeat case_match; repeat case_decide;
    by repeat (rewrite next_leftRotate || rewrite next_rightRotate).
Qed.

Lemma next_splay_loop fuel r0 x : ∀ s s',
  splay_loop fuel r0 x s = Some s' → next s' = next s.
Proof.
  induction fuel as [|fuel IH]; intros s s' H; simpl in H.
  - case_decide; [|done]. by injection H as <-.
  - case_decide; [by injection H as <-|].
    by rewrite (IH _ _ H), next_splay_body.
Qed.

(** [splay] of a node of a well-formed tree, with the bound on iterations
    relaxed to any sufficient fuel. *)
Lemma splay_well_formed s t x fuel :
  well_formed s t → x ∈ addrs t → (length (addrs t) ≤ fuel)%nat →
  ∃ s', splay fuel x s = Some s' ∧ root s' = Some x ∧ next s' = next s ∧
        ∀ y, data (get s' y) = data (get s y).
Proof.
  intros Hwf Hx Hf. pose proof (well_formed_spine s t x Hwf Hx) as Hs.
  pose proof Hwf as (Hroot & Hsh & Hnd & _).
  pose proof (path_length t s None x Hsh Hnd Hx) as Hlen.
  unfold splay. destruct (root s) as [r0|] eqn:Er.
  2: { destruct Hs as (_ & _ & _ & _ & Hr). congruence. }
  destruct (splay_loop_spine x r0 (length (path t x)) s (path t x))
    as (s' & Hloop & Hs'); auto.
  { by apply (spine_last_root s x). }
  apply (splay_loop_mono _ _ _ fuel) in Hloop; [|lia].
  exists s'. split; [done|].
  destruct (splay_loop_returns _ _ _ _ _ Hloop) as [Hr Hd].
  split; [done|]. split; [|done]. by apply (next_splay_loop fuel r0 x).
Qed.

Lemma alloc_well_formed s t d :
  well_formed s t → next s ∉ addrs t →
  well_formed (snd (alloc d s)) t ∧
  heap (snd (alloc d s)) !! next s = Some (mkNode d None None None).
Proof.
  intros (Hroot & Hsh & Hnd & Hb) Hnew. unfold alloc. simpl.
  split; [|by rewrite lookup_insert_eq].
  split; [done|]. split; [|done].
  apply (shape_frame t s); [done|]. intros y Hy. simpl.
  apply lookup_insert_ne. by intros <-.
Qed.

Lemma insert_links_leaf s t d fuel :
  well_formed s t → t ≠ Leaf → next s ∉ addrs t → d ∉ keys t →
  (length (addrs t) ≤ fuel)%nat →
  ∃ s2, insert fuel d s = splay fuel (next s) s2 ∧
        well_formed s2 (attach t (next s) d) ∧ next s2 = S (next s) ∧
        data (get s2 (next s)) = d.
Proof.
  intros Hwf Ht Hnew Hd Hf.
  destruct (alloc_well_formed s t d Hwf Hnew) as [Hwf1 Hcell].
  pose proof Hwf as (Hroot & Hsh & Hnd & Hb).
  pose proof Hwf1 as (Hroot1 & Hsh1 & _).
  destruct (top t) as [a0|] eqn:Etop; [|by destruct t].
  destruct (attach_shape (next s) d t (snd (alloc d s)) None None a0 fuel
              Hnew Hnd Etop Hsh1 Hcell Hf) as (p & Hdesc & Hp & Hs2).
  eexists. split.
  - apply (insert_fresh fuel d s a0 p); [|done|done].
    destruct (search_loop_shape t s None d fuel Hsh Hb Hf) as (r & Hr & _ & Hout).
    unfold search. rewrite Hroot, Etop in *. by rewrite Hr, (Hout Hd).
  - split; [|split; [by case_decide|]].
    2: { pose proof (get_heap _ _ _ Hcell) as Hg.
         case_decide; autorewrite with heap; by rewrite Hg. }
    split; [|split; [done|split]].
    + transitivity (root s); [by case_decide|].
      rewrite Hroot. by rewrite top_attach, Etop.
    + by apply NoDup_attach.
    + by apply bst_attach.
Qed.

(** ** Splaying the rightmost node uses left rotations only *)

Lemma links_unique s S S' : ∀ c c' x,
  links s S x c None → links s S' x c' None → c = c'.
Proof.
  induction c as [|p c IH]; intros [|p' c'] x H H'; simpl in *; try done.
  - destruct H' as [[? _] _]. congruence.
  - destruct H as [[? _] _]. congruence.
  - destruct H as [[Hp _] H]. destruct H' as [[Hp' _] H'].
    assert (p' = p) as -> by congruence. f_equal. by apply (IH c' p).
Qed.

Lemma spine_unique s x c c' : spine s x c → spine s x c' → c = c'.
Proof.
  intros (_ & _ & _ & H & _) (_ & _ & _ & H' & _). exact (links_unique s _ _ c c' x H H').
Qed.

Lemma last_middle {A} (l1 l2 : list A) a d :
  List.last (l1 ++ a :: l2) d = List.last (a :: l2) d.
Proof.
  induction l1 as [|b l1 IH]; [done|].
  change ((b :: l1) ++ a :: l2) with (b :: (l1 ++ a :: l2)).
  rewrite <- IH. by destruct l1.
Qed.

Lemma last_cons_ne {A} (a : A) l d d' :
  l ≠ [] → List.last (a :: l) d = List.last l d'.
Proof. destruct l as [|b l]; [done|]. intros _. apply (last_cons_irrel b l). Qed.

Lemma addrs_nil t : addrs t = [] → t = Leaf.
Proof. destruct t as [|l a k r]; [done|]. simpl. by destruct (addrs l). Qed.

Lemma rightmost_last t d d' :
  t ≠ Leaf → rightmost t d = List.last (addrs t) d'.
Proof.
  revert d d'. induction t as [|l _ a k r IHr]; intros d d' Ht; [done|].
  cbn [rightmost addrs]. rewrite last_middle.
  destruct r as [|rl ra rk rr] eqn:Er; [done|]. rewrite <- Er in *.
  assert (Hr : r ≠ Leaf) by (by subst r).
  rewrite (IHr a d' Hr). symmetry. apply last_cons_ne.
  intros E. by apply addrs_nil in E.
Qed.

Lemma path_in t s par x y :
  shape s par t → NoDup (addrs t) → x ∈ addrs t → y ∈ path t x → y ∈ addrs t.
Proof.
  intros Hsh Hnd Hx Hy.
  destruct (shape_path t s par x Hsh Hnd Hx) as (Hsub & _).
  apply Hsub. by right.
Qed.

Lemma splay_rightmost_loop r0 d0 n : ∀ s t,
  well_formed s t → t ≠ Leaf →
  (length (path t (rightmost t d0)) ≤ n)%nat →
  List.last (path t (rightmost t d0)) r0 = r0 →
  ∃ s' t', splay_loop n r0 (rightmost t d0) s = Some s' ∧
           well_formed s' t' ∧ keys t' = keys t ∧ addrs t' = addrs t ∧
           root s' = Some (rightmost t d0) ∧ next s' = next s.
Proof.
  induction n as [n IH] using lt_wf_ind. intros s t Hwf Ht Hlen Hlast.
  pose proof Hwf as (Hroot & Hsh & Hnd & Hb).
  destruct (top t) as [a0|] eqn:Etop; [|by destruct t].
  set (m := rightmost t d0) in *.
  destruct (rightmost_path t s None d0 a0 Etop Hsh Hnd) as (Hm & Hrl & _).
  fold m in Hm, Hrl.
  pose proof (well_formed_spine s t m Hwf Hm) as Hs.
  destruct (path t m) as [|p [|g rest]] eqn:Epath.
  - assert (Hrm : root s = Some m) by (by apply (spine_root_iff s m [])).
    exists s, t. split; [by apply splay_loop_done|done].
  - (* zig *)
    destruct Hrl as [Hpm _]. simpl in Hlast. subst r0.
    pose proof Hs as (_ & _ & _ & [Hepm _] & _).
    pose proof (spine_edge_right' s _ p m ltac:(left) Hepm Hpm) as OL.
    assert (Hp : p ∈ addrs t).
    { apply (path_in t s None m); auto. rewrite Epath. left. }
    destruct n as [|n]; [simpl in Hlen; lia|].
    rewrite splay_loop_step.
    2: { intros E. by apply (spine_root_iff s m [p] Hs) in E. }
    pose proof (splay_body_spine s m p [] Hs) as Hs1. simpl in Hs1.
    assert (Hbody : splay_body p m s = leftRotate p s).
    { rewrite (splay_body_zig s m p Hs). case_decide as Hd; [|done].
      exfalso. apply (offspine_ne _ _ m OL); [left|done]. }
    rewrite Hbody in *.
    destruct (leftRotate_wf s t p Hwf Hp) as (Hwf1 & Hk1 & Ha1).
    { by rewrite Hpm. }
    exists (leftRotate p s), (rotl t p). split; [|split; [done|]].
    + apply splay_loop_done. by apply (spine_root_iff _ m []).
    + split; [done|]. split; [done|]. split; [|apply next_leftRotate].
      by apply (spine_root_iff _ m []).
  - (* zig-zig *)
    destruct Hrl as (Hpm & Hgp & Hrl).
    pose proof Hs as (_ & _ & _ & (Hepm & Hegp & _) & _).
    assert (HpS : p ∈ m :: p :: g :: rest) by (right; left).
    pose proof (spine_edge_right' s _ g p HpS Hegp Hgp) as OLg.
    assert (Er0 : r0 = List.last rest g).
    { rewrite <- Hlast. rewrite (last_cons_ne p (g :: rest) r0 g) by done.
      apply last_cons_self. }
    assert (Hp : p ∈ addrs t).
    { apply (path_in t s None m); auto. rewrite Epath. left. }
    assert (Hg : g ∈ addrs t).
    { apply (path_in t s None m); auto. rewrite Epath. right; left. }
    destruct n as [|n]; [simpl in Hlen; lia|].
    rewrite splay_loop_step.
    2: { intros E. by apply (spine_root_iff s m _ Hs) in E. }
    pose proof (splay_body_spine s m p (g :: rest) Hs) as Hs2.
    rewrite (last_cons_irrel g rest p g), last_cons_self, <- Er0 in Hs2.
    cbn [tail] in Hs2.
    assert (Hbody : splay_body r0 m s = leftRotate p (leftRotate g s)).
    { rewrite Er0, (splay_body_deep s m p g rest Hs).
      case_decide as Hd.
      - exfalso. by apply (offspine_ne _ _ p OLg).
      - by repeat case_decide. }
    rewrite Hbody in *.
    destruct (leftRotate_wf s t g Hwf Hg) as (Hwf1 & Hk1 & Ha1).
    { by rewrite Hgp. }
    destruct (lift_parent_left s m p g rest Hs Hgp Hpm) as (_ & _ & Hp1 & _).
    destruct (leftRotate_wf (leftRotate g s) (rotl t g) p Hwf1)
      as (Hwf2 & Hk2 & Ha2).
    { by rewrite Ha1. }
    { rewrite Hp1. simpl. by rewrite Hpm. }
    set (t2 := rotl (rotl t g) p) in *.
    set (s2 := leftRotate p (leftRotate g s)) in *.
    assert (Ht2 : t2 ≠ Leaf).
    { intros E. apply Ht, addrs_nil. by rewrite <- Ha1, <- Ha2, E. }
    assert (Hm2 : rightmost t2 d0 = m).
    { unfold m. rewrite (rightmost_last t2 d0 d0 Ht2), (rightmost_last t d0 d0 Ht).
      by rewrite Ha2, Ha1. }
    assert (Hpath2 : path t2 m = rest).
    { apply (spine_unique s2 m); [|done].
      apply well_formed_spine; [done|]. by rewrite Ha2, Ha1. }
    destruct (IH n ltac:(lia) s2 t2 Hwf2 Ht2) as (s' & t' & Hloop & Hwf' & Hk' & Ha' & Hr' & Hn').
    + rewrite Hm2, Hpath2. simpl in Hlen. lia.
    + rewrite Hm2, Hpath2. destruct rest as [|gg rest']; [done|].
      rewrite (last_cons_irrel gg rest' r0 g). by rewrite Er0.
    + rewrite Hm2 in *. exists s', t'. split; [done|]. split; [done|].
      split; [congruence|]. split; [congruence|]. split; [done|].
      rewrite Hn'. unfold s2. by rewrite !next_leftRotate.
Qed.

Lemma splay_rightmost_wf s t d0 fuel :
  well_formed s t → t ≠ Leaf → (length (addrs t) ≤ fuel)%nat →
  ∃ s' t', splay fuel (rightmost t d0) s = Some s' ∧
           well_formed s' t' ∧ keys t' = keys t ∧ addrs t' = addrs t ∧
           root s' = Some (rightmost t d0) ∧ next s' = next s.
Proof.
  intros Hwf Ht Hf. pose proof Hwf as (Hroot & Hsh & Hnd & Hb).
  destruct (top t) as [a0|] eqn:Etop; [|by destruct t].
  destruct (rightmost_path t s None d0 a0 Etop Hsh Hnd) as (Hm & _).
  pose proof (path_length t s None _ Hsh Hnd Hm) as Hlen.
  destruct (shape_path t s None _ Hsh Hnd Hm) as (_ & _ & Hlast & _).
  unfold splay. rewrite Hroot.
  apply splay_rightmost_loop; [done|done|lia|].
  rewrite Etop in Hlast. injection Hlast as Hlast.
  destruct (path t (rightmost t d0)) as [|p c]; [done|].
  rewrite Hlast at 2. apply last_cons_irrel.
Qed.

Lemma attach_max t a d :
  (∀ k, k ∈ keys t → k < d) →
  keys (attach t a d) = keys t ++ [d] ∧ addrs (attach t a d) = addrs t ++ [a].
Proof.
  induction t as [|l _ b k r IHr]; intros Hmax; [done|].
  cbn [attach]. rewrite decide_False.
  2: { assert (k < d); [|lia]. apply Hmax. simpl.
       apply elem_of_app. right. left. }
  cbn [keys addrs]. destruct IHr as [-> ->].
  { intros k' Hk'. apply Hmax. simpl. apply elem_of_app. right. by right. }
  by rewrite <- !app_assoc.
Qed.

Lemma insert_max_wf s t d fuel :
  well_formed s t → next s ∉ addrs t → (∀ k, k ∈ keys t → k < d) →
  (length (addrs t) < fuel)%nat →
  ∃ s' t', insert fuel d s = Some s' ∧ well_formed s' t' ∧
           keys t' = keys t ++ [d] ∧ addrs t' = addrs t ++ [next s] ∧
           root s' = Some (next s) ∧ next s' = S (next s).
Proof.
  intros Hwf Hnew Hmax Hf. pose proof Hwf as (Hroot & Hsh & Hnd & Hb).
  assert (Hd : d ∉ keys t).
  { intros Hd. apply Hmax in Hd. lia. }
  destruct t as [|l a k r] eqn:Et.
  - exists (set_root (Some (next s)) (snd (alloc d s))),
           (Br Leaf (next s) d Leaf).
    unfold insert, search. rewrite Hroot. simpl.
    replace (search_loop fuel d None s) with (Some (@None nat)) by (by destruct fuel).
    simpl. rewrite Hroot. simpl. split; [done|].
    split; [|done]. split; [done|]. split.
    + simpl. by rewrite lookup_insert_eq.
    + split; [apply NoDup_singleton|]. simpl.
      repeat split; intros k' Hk'; by apply elem_of_nil in Hk'.
  - rewrite <- Et in *. assert (Ht : t ≠ Leaf) by (by subst t).
    destruct (insert_links_leaf s t d fuel Hwf Ht Hnew Hd ltac:(lia))
      as (s2 & -> & Hwf2 & Hn2 & Hd2).
    destruct (attach_max t (next s) d Hmax) as [Hk Ha].
    set (t2 := attach t (next s) d) in *.
    assert (Ht2 : t2 ≠ Leaf).
    { intros E. rewrite E in Ha. by destruct (addrs t). }
    assert (Hm : rightmost t2 0%nat = next s).
    { rewrite (rightmost_last t2 _ 0%nat Ht2), Ha. apply last_last. }
    destruct (splay_rightmost_wf s2 t2 0%nat fuel Hwf2 Ht2)
      as (s' & t' & Hsp & Hwf' & Hk' & Ha' & Hr' & Hn').
    { rewrite Ha, length_app. simpl. lia. }
    rewrite Hm in *. exists s', t'. split; [done|]. split; [done|].
    split; [congruence|]. split; [congruence|]. split; [done|]. congruence.
Qed.

(** Keys inserted in ascending order. *)
Lemma run_app fuel ops1 ops2 s :
  run fuel (ops1 ++ ops2) s =
    match run fuel ops1 s with
    | Some s' => run fuel ops2 s'
    | None => None
    end.
Proof.
  revert s. induction ops1 as [|o ops1 IH]; intros s; [done|].
  simpl. by destruct (run_op fuel o s).
Qed.

Lemma ascending_inserts_wf fuel (l : list Z) :
  StronglySorted Z.lt l → (length l < fuel)%nat →
  ∃ s t, run fuel (Insert <$> l) constructor = Some s ∧
         well_formed s t ∧ keys t = l ∧
         length (addrs t) = length l ∧
         ∀ a, a ∈ addrs t → (a < next s)%nat.
Proof.
  induction l as [|d l IH] using rev_ind; intros Hsorted Hf.
  - exists constructor, Leaf. split; [done|]. split; [|split; [done|]].
    + split; [done|]. split; [done|]. split; [apply NoDup_nil_2|done].
    + split; [done|]. intros a Ha. by apply elem_of_nil in Ha.
  - apply StronglySorted_app in Hsorted as (Hlt & Hl & _).
    rewrite length_app in Hf. simpl in Hf.
    destruct (IH Hl ltac:(lia)) as (s & t & Hrun & Hwf & Hk & Hlen & Hfresh).
    destruct (insert_max_wf s t d fuel Hwf)
      as (s' & t' & Hins & Hwf' & Hk' & Ha' & Hr' & Hn').
    + intros Hin. apply Hfresh in Hin. lia.
    + intros k Hin. rewrite Hk in Hin. apply (Hlt k d Hin). left.
    + lia.
    + exists s', t'. rewrite fmap_app, run_app, Hrun. simpl. rewrite Hins.
      split; [done|]. split; [done|]. split; [by rewrite Hk', Hk|].
      split; [rewrite Ha', !length_app, Hlen; done|].
      intros a. rewrite Ha', Hn', elem_of_app, list_elem_of_singleton.
      intros [Hin| ->]; [apply Hfresh in Hin|]; lia.
Qed.

(** ** [delete] below a well-formed root *)

Lemma rightmost_in t d : t ≠ Leaf → rightmost t d ∈ addrs t.
Proof.
  revert d. induction t as [|l _ a k r IHr]; intros d Ht; [done|].
  simpl. apply elem_of_app. right.
  destruct r as [|rl ra rk rr] eqn:Er; [left|].
  rewrite <- Er in *. right. apply IHr. by subst r.
Qed.

Lemma rightmost_top l a k r d0 :
  NoDup (addrs (Br l a k r)) → rightmost (Br l a k r) d0 = a → r = Leaf.
Proof.
  intros Hnd E. destruct r as [|rl ra rk rr] eqn:Er; [done|]. rewrite <- Er in *.
  exfalso. simpl in Hnd, E. apply NoDup_app in Hnd as (_ & _ & Hnd).
  apply NoDup_cons in Hnd as [Har _]. apply Har.
  pose proof (rightmost_in r a ltac:(by subst r)) as Hin. by rewrite E in Hin.
Qed.

Lemma rotl_left l a k r n :
  n ≠ a → n ∈ addrs l → rotl (Br l a k r) n = Br (rotl l n) a k r.
Proof.
  intros Hna Hn. unfold rotl. simpl. by repeat case_decide; simplify_eq.
Qed.

Lemma path_left l a k r x :
  x ≠ a → x ∈ addrs l → path (Br l a k r) x = path l x ++ [a].
Proof. intros Hxa Hx. simpl. by repeat case_decide. Qed.

(** The last rotation of the second splay: the predecessor [mx] is the left
    child of the old root [m] and has no right child. *)
Lemma delete_final_zig s LL mx kx m d R :
  well_formed s (Br (Br LL mx kx Leaf) m d R) →
  splay_body m mx s = rightRotate m s ∧
  root (rightRotate m s) = Some mx ∧
  right (get (rightRotate m s) m) = top R ∧
  heap (rightRotate m s) !! mx = Some (mkNode kx (top LL) (Some m) None) ∧
  shape (rightRotate m s) (Some mx) LL ∧
  shape (rightRotate m s) (Some m) R ∧
  next (rightRotate m s) = next s.
Proof.
  intros Hwf. pose proof Hwf as (Hroot & Hsh & Hnd & Hb).
  pose proof Hsh as (Hm & (Hmx & HLL & _) & HR).
  pose proof (get_heap _ _ _ Hm) as Gm. pose proof (get_heap _ _ _ Hmx) as Gmx.
  simpl in Hnd. apply NoDup_app in Hnd as (HndL & Hdisj & Hnd).
  apply NoDup_cons in Hnd as [HmR HndR].
  apply NoDup_app in HndL as (HndLL & HdLL & _).
  assert (Hne : mx ≠ m).
  { intros ->. apply (Hdisj m); [|left]. apply elem_of_app. right; left. }
  assert (Hleft : left (get s m) = Some mx) by (by rewrite Gm).
  assert (Hget : ∀ y, get (rightRotate m s) y =
    if decide (y = m) then mkNode d (top LL) (top R) (Some mx)
    else if decide (y = mx) then mkNode kx (top LL) (Some m) None
    else get s y).
  { intros y. rewrite (rightRotate_get s m mx y Hleft Hne).
    - rewrite Gm, Gmx. simpl. repeat case_decide; done.
    - by rewrite Gm.
    - by rewrite Gm.
    - by rewrite Gmx. }
  assert (Hlook : ∀ y, is_Some (heap s !! y) →
    heap (rightRotate m s) !! y = Some (get (rightRotate m s) y)).
  { intros y Hy. by apply lookup_get, alloc_rightRotate. }
  assert (Hsame : ∀ y, is_Some (heap s !! y) → y ≠ m → y ≠ mx →
    heap (rightRotate m s) !! y = heap s !! y).
  { intros y Hy H1 H2. rewrite (Hlook y Hy), Hget.
    rewrite !decide_False by done. by rewrite lookup_get. }
  split; [|split; [|split; [|split; [|split; [|split]]]]].
  - assert (Hs : spine s mx [m]).
    { replace [m] with (path (Br (Br LL mx kx Leaf) m d R) mx).
      - apply well_formed_spine; [done|]. simpl. apply elem_of_app. left.
        apply elem_of_app. right; left.
      - rewrite path_left; [|done|simpl; apply elem_of_app; right; left].
        simpl. by rewrite decide_True. }
    rewrite (splay_body_zig s mx m Hs). by rewrite decide_True.
  - rewrite (rightRotate_root s m mx Hleft Hne); [by rewrite Gm|].
    by rewrite Gmx.
  - rewrite Hget. by rewrite decide_True.
  - rewrite Hlook by eauto. rewrite Hget.
    rewrite decide_False by done. by rewrite decide_True.
  - apply (shape_frame LL s); [done|]. intros y Hy. apply Hsame.
    + by apply (shape_allocated LL s (Some mx)).
    + intros ->. apply (Hdisj m); [|left]. apply elem_of_app. by left.
    + intros ->. apply (HdLL mx Hy). left.
  - apply (shape_frame R s); [done|]. intros y Hy. apply Hsame.
    + by apply (shape_allocated R s (Some m)).
    + by intros ->.
    + intros ->. apply (Hdisj mx); [|by right]. apply elem_of_app. right; left.
  - apply next_rightRotate.
Qed.

(** A rightmost node whose path is empty is the top, and has no right subtree. *)
Lemma rightmost_no_path s par L d0 :
  shape s par L → NoDup (addrs L) → L ≠ Leaf → path L (rightmost L d0) = [] →
  ∃ LL kx, L = Br LL (rightmost L d0) kx Leaf.
Proof.
  intros Hsh Hnd HL Hpath.
  destruct (shape_path L s par _ Hsh Hnd (rightmost_in L d0 HL)) as (_ & _ & Htop & _).
  rewrite Hpath in Htop. simpl in Htop.
  destruct L as [|LL a kx R'] eqn:EL; [done|]. rewrite <- EL in *.
  assert (Ha : rightmost L d0 = a) by (subst L; simpl in *; congruence).
  rewrite Ha. rewrite EL in Hnd, Ha.
  rewrite (rightmost_top LL a kx R' d0 Hnd Ha) in EL. by exists LL, kx.
Qed.

Lemma delete_second_splay m d R d0 n : ∀ s L,
  well_formed s (Br L m d R) → L ≠ Leaf →
  (length (path L (rightmost L d0)) < n)%nat →
  ∃ s' LL kx,
    splay_loop n m (rightmost L d0) s = Some s' ∧
    root s' = Some (rightmost L d0) ∧
    right (get s' m) = top R ∧
    heap s' !! rightmost L d0 = Some (mkNode kx (top LL) (Some m) None) ∧
    shape s' (Some (rightmost L d0)) LL ∧
    shape s' (Some m) R ∧
    bst (Br LL (rightmost L d0) kx Leaf) ∧
    keys LL ++ [kx] = keys L ∧ addrs LL ++ [rightmost L d0] = addrs L ∧
    next s' = next s.
Proof.
  induction n as [n IH] using lt_wf_ind. intros s L Hwf HL Hlen.
  pose proof Hwf as (Hroot & Hsh & Hnd & Hb).
  pose proof Hsh as (Hm & HshL & HshR). pose proof (get_heap _ _ _ Hm) as Gm.
  pose proof Hnd as Hnd0.
  simpl in Hnd. apply NoDup_app in Hnd as (HndL & Hdisj & Hnd).
  apply NoDup_cons in Hnd as [HmR HndR].
  destruct (top L) as [l|] eqn:Etop; [|by destruct L].
  set (mx := rightmost L d0) in *.
  destruct (rightmost_path L s (Some m) d0 l Etop HshL HndL) as (Hmx & Hrl & _).
  fold mx in Hmx, Hrl.
  assert (Hne : mx ≠ m) by (intros E; apply (Hdisj mx Hmx); rewrite E; left).
  assert (HmxT : mx ∈ addrs (Br L m d R)) by (simpl; apply elem_of_app; by left).
  pose proof (well_formed_spine s _ mx Hwf HmxT) as Hs.
  rewrite (path_left L m d R mx Hne Hmx) in Hs.
  destruct (shape_path L s (Some m) mx HshL HndL Hmx) as (Hsub & _ & Hlast & _).
  assert (Hrs : root s ≠ Some mx).
  { intros E. apply (spine_root_iff s mx _ Hs) in E. by destruct (path L mx). }
  destruct n as [|n]; [lia|]. rewrite (splay_loop_step m mx s n Hrs).
  assert (Hfin : ∀ s1 L1, well_formed s1 (Br L1 m d R) →
    addrs L1 = addrs L → keys L1 = keys L → path L1 mx = [] →
    splay_body m mx s = splay_body m mx s1 → next s1 = next s →
    ∃ s' LL kx,
      splay_loop n m mx (splay_body m mx s) = Some s' ∧ root s' = Some mx ∧
      right (get s' m) = top R ∧
      heap s' !! mx = Some (mkNode kx (top LL) (Some m) None) ∧
      shape s' (Some mx) LL ∧ shape s' (Some m) R ∧
      bst (Br LL mx kx Leaf) ∧
      keys LL ++ [kx] = keys L ∧ addrs LL ++ [mx] = addrs L ∧
      next s' = next s).
  { intros s1 L1 Hwf1 Ha1 Hk1 Hp1 Hbody Hn1.
    pose proof Hwf1 as (_ & (_ & HshL1 & _) & Hnd1 & (_ & _ & HbL1 & _)).
    simpl in Hnd1. apply NoDup_app in Hnd1 as (HndL1 & _).
    assert (HL1 : L1 ≠ Leaf).
    { intros E. rewrite E in Ha1. apply HL, addrs_nil. by rewrite <- Ha1. }
    assert (Hmx1 : rightmost L1 d0 = mx).
    { unfold mx. by rewrite (rightmost_last L1 d0 d0 HL1),
        (rightmost_last L d0 d0 HL), Ha1. }
    destruct (rightmost_no_path s1 (Some m) L1 d0 HshL1 HndL1 HL1)
      as (LL & kx & EL1); [by rewrite Hmx1|].
    rewrite Hmx1 in EL1. rewrite EL1 in Hwf1, HbL1, Ha1, Hk1.
    destruct (delete_final_zig s1 LL mx kx m d R Hwf1)
      as (Hb1 & Hr1 & Hright1 & Hcell1 & HLL1 & HR1 & Hnext1).
    rewrite Hbody, Hb1. exists (rightRotate m s1), LL, kx.
    split; [by apply splay_loop_done|].
    do 5 (split; [done|]). split; [exact HbL1|].
    split; [exact Hk1|]. split; [exact Ha1|]. congruence. }
  destruct (path L mx) as [|p [|g rest]] eqn:Epath.
  - (* zig *)
    apply (Hfin s L); auto.
  - (* zig-zag: the parent is the left child of the old root *)
    destruct Hrl as [Hpm _]. simpl in Hs.
    pose proof Hs as (_ & _ & _ & (Hepm & _) & _).
    assert (HmS : mx ∈ [mx; p; m]) by left.
    pose proof (spine_edge_right' s _ p mx HmS Hepm Hpm) as OL.
    assert (Hp : p ∈ addrs L).
    { apply Hsub. right. left. }
    assert (Hpm' : p ≠ m) by (intros E; apply (Hdisj p Hp); rewrite E; left).
    assert (Hleft : left (get s m) = Some p).
    { rewrite Gm. simpl. rewrite <- Etop, Hlast. done. }
    assert (Hbody : splay_body m mx s = rightRotate m (leftRotate p s)).
    { rewrite (splay_body_deep s mx p m [] Hs : splay_body m mx s = _).
      rewrite decide_True by done. rewrite decide_False; [done|].
      by apply (offspine_ne _ _ mx OL). }
    destruct (leftRotate_wf s _ p Hwf) as (Hwf1 & _).
    { simpl. apply elem_of_app. by left. }
    { by rewrite Hpm. }
    rewrite (rotl_left L m d R p Hpm' Hp) in Hwf1.
    destruct (lift_left s mx p [m] Hs Hpm) as (Hs1 & Hx1 & _).
    assert (Ha1 : addrs (rotl L p) = addrs L) by apply addrs_graft, addrs_rotl_top.
    assert (Hk1 : keys (rotl L p) = keys L) by apply keys_graft, keys_rotl_top.
    assert (Hp1 : path (rotl L p) mx = []).
    { assert (HmxT1 : mx ∈ addrs (Br (rotl L p) m d R)).
      { simpl. rewrite Ha1. apply elem_of_app. by left. }
      pose proof (well_formed_spine _ _ mx Hwf1 HmxT1) as Hs1'.
      rewrite (path_left _ m d R mx Hne) in Hs1' by (by rewrite Ha1).
      pose proof (spine_unique _ _ _ _ Hs1' Hs1) as E.
      destruct (path (rotl L p) mx) as [|? [|? ?]]; done. }
    apply (Hfin (leftRotate p s) (rotl L p)); auto.
    + rewrite Hbody. symmetry.
      destruct (rightmost_no_path (leftRotate p s) (Some m) (rotl L p) d0)
        as (LL & kx & EL1).
      * by destruct Hwf1 as (_ & (_ & ? & _) & _).
      * destruct Hwf1 as (_ & _ & Hnd1 & _). simpl in Hnd1.
        by apply NoDup_app in Hnd1 as (? & _).
      * intros E. rewrite E in Ha1. apply HL, addrs_nil. by rewrite <- Ha1.
      * assert (Hmx1 : rightmost (rotl L p) d0 = mx); [|by rewrite Hmx1].
        unfold mx. rewrite (rightmost_last _ d0 d0), (rightmost_last L d0 d0 HL), Ha1;
          [done|].
        intros E. rewrite E in Ha1. apply HL, addrs_nil. by rewrite <- Ha1.
      * assert (Hmx1 : rightmost (rotl L p) d0 = mx).
        { unfold mx. rewrite (rightmost_last _ d0 d0), (rightmost_last L d0 d0 HL), Ha1;
            [done|].
          intros E. rewrite E in Ha1. apply HL, addrs_nil. by rewrite <- Ha1. }
        rewrite Hmx1 in EL1. rewrite EL1 in Hwf1.
        by destruct (delete_final_zig _ LL mx kx m d R Hwf1) as (-> & _).
    + apply next_leftRotate.
  - (* zig-zig along the right spine *)
    destruct Hrl as (Hpm & Hgp & Hrl).
    change ((p :: g :: rest) ++ [m]) with (p :: g :: rest ++ [m]) in Hs.
    pose proof Hs as (_ & _ & _ & (Hepm & Hegp & _) & _).
    assert (HpS : p ∈ mx :: p :: g :: rest ++ [m]) by (right; left).
    pose proof (spine_edge_right' s _ g p HpS Hegp Hgp) as OLg.
    assert (Hp : p ∈ addrs L) by (apply Hsub; right; left).
    assert (Hg : g ∈ addrs L) by (apply Hsub; right; right; left).
    assert (Hpm' : p ≠ m) by (intros E; apply (Hdisj p Hp); rewrite E; left).
    assert (Hgm' : g ≠ m) by (intros E; apply (Hdisj g Hg); rewrite E; left).
    pose proof (splay_body_spine s mx p (g :: rest ++ [m]) Hs) as Hs2.
    pose proof (splay_body_deep s mx p g (rest ++ [m]) Hs) as Hbody.
    rewrite last_last in Hbody.
    change (List.last (g :: rest ++ [m]) p)
      with (List.last ((g :: rest) ++ [m]) p) in Hs2.
    rewrite last_last in Hs2. cbn [tail] in Hs2.
    assert (Hbody' : splay_body m mx s = leftRotate p (leftRotate g s)).
    { rewrite Hbody. case_decide as Hd.
      - exfalso. by apply (offspine_ne _ _ p OLg).
      - by repeat case_decide. }
    rewrite Hbody' in *.
    destruct (leftRotate_wf s _ g Hwf) as (Hwf1 & _).
    { simpl. apply elem_of_app. by left. }
    { by rewrite Hgp. }
    rewrite (rotl_left L m d R g Hgm' Hg) in Hwf1.
    assert (Ha1 : addrs (rotl L g) = addrs L) by apply addrs_graft, addrs_rotl_top.
    assert (Hk1 : keys (rotl L g) = keys L) by apply keys_graft, keys_rotl_top.
    destruct (lift_parent_left s mx p g (rest ++ [m]) Hs Hgp Hpm) as (_ & _ & Hp1 & _).
    destruct (leftRotate_wf (leftRotate g s) _ p Hwf1) as (Hwf2 & _).
    { simpl. rewrite Ha1. apply elem_of_app. by left. }
    { rewrite Hp1. simpl. by rewrite Hpm. }
    rewrite (rotl_left _ m d R p Hpm') in Hwf2 by (by rewrite Ha1).
    set (L2 := rotl (rotl L g) p) in *.
    set (s2 := leftRotate p (leftRotate g s)) in *.
    assert (Ha2 : addrs L2 = addrs L).
    { unfold L2. rewrite <- Ha1. apply addrs_graft, addrs_rotl_top. }
    assert (Hk2 : keys L2 = keys L).
    { unfold L2. rewrite <- Hk1. apply keys_graft, keys_rotl_top. }
    assert (HL2 : L2 ≠ Leaf).
    { intros E. apply HL, addrs_nil. by rewrite <- Ha2, E. }
    assert (Hmx2 : rightmost L2 d0 = mx).
    { unfold mx. by rewrite (rightmost_last L2 d0 d0 HL2),
        (rightmost_last L d0 d0 HL), Ha2. }
    assert (Hpath2 : path L2 mx = rest).
    { assert (HmxT2 : mx ∈ addrs (Br L2 m d R)).
      { simpl. rewrite Ha2. apply elem_of_app. by left. }
      pose proof (well_formed_spine _ _ mx Hwf2 HmxT2) as Hs2'.
      rewrite (path_left _ m d R mx Hne) in Hs2' by (by rewrite Ha2).
      pose proof (spine_unique _ _ _ _ Hs2' Hs2) as E.
      by apply app_inv_tail in E. }
    destruct (IH n ltac:(lia) s2 L2 Hwf2 HL2)
      as (s' & LL & kx & Hloop & Hr' & Hright' & Hcell' & HLL' & HR' & Hb' & Hk' & Ha' & Hn').
    { rewrite Hmx2, Hpath2. simpl in Hlen. lia. }
    rewrite Hmx2 in *. exists s', LL, kx.
    repeat (split; [done|]). split; [congruence|]. split; [congruence|].
    rewrite Hn'. unfold s2. by rewrite !next_leftRotate.
Qed.

(** What [delete] leaves once the node to remove is the root of a well-formed
    tree: either the right subtree alone, or the predecessor [mx] on top of
    the rest of the left subtree and of the right subtree.  The parent field
    of the top of the right subtree still names the removed node. *)
Lemma delete_from_root fuel d s node s1 tl k tr :
  search fuel d s = Some (Some node, s) →
  splay fuel node s = Some s1 →
  well_formed s1 (Br tl node k tr) → (length (addrs tl) < fuel)%nat →
  ∃ s', delete fuel d s = Some s' ∧ next s' = next s1 ∧
    ((tl = Leaf ∧ s' = set_root (top tr) s1) ∨
     (∃ LL mx kx,
        root s' = Some mx ∧
        heap s' !! mx = Some (mkNode kx (top LL) (top tr) None) ∧
        shape s' (Some mx) LL ∧ shape s' (Some node) tr ∧
        bst (Br LL mx kx Leaf) ∧
        keys LL ++ [kx] = keys tl ∧ addrs LL ++ [mx] = addrs tl)).
Proof.
  intros Hsearch Hsplay Hwf Hf.
  pose proof Hwf as (Hroot & Hsh & Hnd & Hb).
  pose proof Hsh as (Hnode & HshL & HshR). apply get_heap in Hnode.
  unfold delete. rewrite Hsearch, Hsplay. rewrite Hnode. cbn [left right].
  destruct (top tl) as [l|] eqn:Etop.
  2: { eexists. split; [done|]. split; [done|]. left. by destruct tl. }
  assert (Htl : tl ≠ Leaf) by (by intros ->).
  simpl in Hnd. apply NoDup_app in Hnd as (HndL & Hdisj & Hnd).
  apply NoDup_cons in Hnd as [HnR HndR].
  set (mx := rightmost tl 0%nat).
  destruct (rightmost_path tl s1 (Some node) 0%nat l Etop HshL HndL)
    as (Hmx & _ & Hfm). fold mx in Hmx, Hfm.
  pose proof (path_length tl s1 (Some node) mx HshL HndL Hmx) as Hlen.
  rewrite (findMax_mono s1 _ fuel _ _ Hfm) by lia.
  destruct (delete_second_splay node k tr 0%nat fuel s1 tl Hwf Htl)
    as (s2 & LL & kx & Hloop & Hr2 & Hright2 & Hcell2 & HLL2 & HR2 & Hb2 & Hk2 & Ha2 & Hn2).
  { fold mx. lia. }
  fold mx in Hloop, Hr2, Hcell2, HLL2, Hb2, Ha2.
  unfold splay. rewrite Hroot. cbn [top]. rewrite Hloop.
  eexists. split; [done|]. split; [done|]. right. exists LL, mx, kx.
  rewrite <- Ha2 in HndL, Hdisj.
  apply NoDup_app in HndL as (_ & HdLL & _).
  assert (Hframe : ∀ y, y ≠ mx →
    heap (set_root (Some mx) (set_right mx (right (get s2 node)) s2)) !! y
      = heap s2 !! y).
  { intros y Hy. unfold set_root, set_right. simpl.
    by rewrite lookup_insert_ne. }
  split; [done|]. split; [|split; [|split]].
  - unfold set_root, set_right. simpl. rewrite lookup_insert_eq.
    rewrite Hright2, (get_heap _ _ _ Hcell2). done.
  - apply (shape_frame LL s2); [done|]. intros y Hy. apply Hframe.
    intros ->. apply (HdLL mx Hy). left.
  - apply (shape_frame tr s2); [done|]. intros y Hy. apply Hframe.
    intros ->. apply (Hdisj mx); [|by right]. apply elem_of_app. right; left.
  - done.
Qed.

Lemma rightmost_key s par t d0 :
  shape s par t → NoDup (addrs t) → bst t → t ≠ Leaf →
  data (get s (rightmost t d0)) ∈ keys t ∧
  ∀ k, k ∈ keys t → k ≤ data (get s (rightmost t d0)).
Proof.
  intros Hsh Hnd Hb Ht.
  destruct (top t) as [a|] eqn:Etop; [|by destruct t].
  destruct (findMax_shape t s par a (length (addrs t)) Etop Hsh Hb)
    as (m & Hfm & _ & _ & Hin & Hmax); [done|].
  destruct (rightmost_path t s par d0 a Etop Hsh Hnd) as (Hm & _ & Hfm').
  pose proof (path_length t s par _ Hsh Hnd Hm) as Hlen.
  apply (findMax_mono s _ (length (addrs t))) in Hfm'; [|lia].
  assert (m = rightmost t d0) as <- by congruence. done.
Qed.

Lemma rightmost_key_last s par t d0 ks d :
  shape s par t → NoDup (addrs t) → bst t → keys t = ks ++ [d] →
  data (get s (rightmost t d0)) = d.
Proof.
  intros Hsh Hnd Hb Hk.
  assert (Ht : t ≠ Leaf) by (intros ->; by destruct ks).
  destruct (rightmost_key s par t d0 Hsh Hnd Hb Ht) as [Hin Hmax].
  pose proof (bst_sorted t Hb) as Hsorted. rewrite Hk in Hin, Hmax, Hsorted.
  apply StronglySorted_app in Hsorted as (Hlt & _ & _).
  apply elem_of_app in Hin as [Hin|Hin%list_elem_of_singleton]; [|done].
  specialize (Hlt _ d Hin ltac:(left)).
  specialize (Hmax d ltac:(apply elem_of_app; right; left)). lia.
Qed.

(** [search] for the largest key walks down the right spine. *)
Lemma search_loop_rightmost t : ∀ s par d0 fuel,
  shape s par t → NoDup (addrs t) → bst t → t ≠ Leaf →
  (length (addrs t) ≤ fuel)%nat →
  search_loop fuel (data (get s (rightmost t d0))) (top t) s
    = Some (Some (rightmost t d0)).
Proof.
  induction t as [|l _ a k r IHr]; intros s par d0 fuel Hsh Hnd Hb Ht Hf; [done|].
  pose proof Hsh as (Ha & _ & Hr). apply get_heap in Ha.
  pose proof Hb as (_ & Br' & _ & Hbr).
  simpl in Hf. rewrite length_app in Hf. simpl in Hf.
  simpl in Hnd. apply NoDup_app in Hnd as (_ & _ & Hnd).
  apply NoDup_cons in Hnd as [_ Hndr].
  destruct fuel as [|fuel]; [lia|].
  destruct r as [|rl ra rk rr] eqn:Er.
  - simpl. by rewrite decide_True.
  - rewrite <- Er in *. assert (Hr' : r ≠ Leaf) by (by subst r).
    change (rightmost (Br l a k r) d0) with (rightmost r a).
    destruct (rightmost_key s (Some a) r a Hr Hndr Hbr Hr') as [Hin _].
    apply Br' in Hin. cbn [search_loop top]. rewrite Ha. cbn [data right].
    rewrite decide_False by lia. rewrite decide_False by lia.
    apply (IHr s (Some a)); auto. lia.
Qed.

(** The tree whose top is rightmost has no right subtree. *)
Lemma rightmost_root s t d0 m :
  well_formed s t → root s = Some m → rightmost t d0 = m →
  ∃ L k, t = Br L m k Leaf.
Proof.
  intros (Hroot & _ & Hnd & _) Hr Hm. rewrite Hr in Hroot.
  destruct t as [|L a k R]; [done|]. injection Hroot as <-.
  rewrite (rightmost_top L m k R d0 Hnd Hm). by exists L, k.
Qed.

(** ** Keys are written once *)

Lemma splay_returns fuel x s s' :
  splay fuel x s = Some s' →
  next s' = next s ∧ ∀ y, data (get s' y) = data (get s y).
Proof.
  unfold splay. destruct (root s) as [r0|]; [|by intros [= <-]].
  intros H. split; [by apply (next_splay_loop fuel r0 x)|].
  by apply (splay_loop_returns fuel r0 x).
Qed.

Lemma get_alloc d s y :
  y ≠ next s → get (snd (alloc d s)) y = get s y.
Proof. intros Hy. unfold get, alloc. simpl. by rewrite lookup_insert_ne. Qed.

Lemma insert_keeps_data fuel d s s' :
  insert fuel d s = Some s' →
  (next s ≤ next s')%nat ∧
  ∀ y, y ≠ next s → data (get s' y) = data (get s y).
Proof.
  unfold insert, search.
  destruct (search_loop fuel d (root s) s) as [[node|]|] eqn:Es; [| |done].
  - intros H. apply splay_returns in H as [-> Hd]. split; [lia|]. by intros y _.
  - change (alloc d s) with (next s, snd (alloc d s)). cbv beta iota.
    set (s1 := snd (alloc d s)).
    assert (H1 : ∀ y, y ≠ next s → data (get s1 y) = data (get s y)).
    { intros y Hy. unfold s1. by rewrite get_alloc. }
    change (root s1) with (root s).
    destruct (root s) as [r0|] eqn:Er.
    + destruct (insert_descend fuel d (Some r0) None s1) as [par|]; [|done].
      intros H. apply splay_returns in H as [Hn Hd].
      split.
      * rewrite Hn. destruct par; repeat case_decide; simpl; lia.
      * intros y Hy. rewrite Hd, <- (H1 y Hy).
        destruct par; repeat case_decide; by autorewrite with heap.
    + intros [= <-]. split; [simpl; lia|]. intros y Hy.
      autorewrite with heap. by apply H1.
Qed.

Lemma delete_keeps_data fuel d s s' :
  delete fuel d s = Some s' →
  next s' = next s ∧ ∀ y, data (get s' y) = data (get s y).
Proof.
  unfold delete, search.
  destruct (search_loop fuel d (root s) s) as [[node|]|] eqn:Es; [| |done].
  2: { by intros [= <-]. }
  destruct (splay fuel node s) as [s1|] eqn:E1; [|done].
  apply splay_returns in E1 as [Hn1 Hd1].
  destruct (left (get s1 node)) as [l|].
  - destruct (findMax fuel l s1) as [mx|]; [|done].
    destruct (splay fuel mx s1) as [s2|] eqn:E2; [|done].
    apply splay_returns in E2 as [Hn2 Hd2]. intros [= <-].
    split; [simpl; congruence|]. intros y.
    autorewrite with heap. by rewrite Hd2, Hd1.
  - intros [= <-]. split; [done|]. intros y. by autorewrite with heap.
Qed.

Lemma run_op_keeps_data fuel o s s' :
  run_op fuel o s = Some s' →
  (next s ≤ next s')%nat ∧
  ∀ y, (y < next s)%nat → data (get s' y) = data (get s y).
Proof.
  destruct o as [d|d|d]; simpl.
  - intros H. apply insert_keeps_data in H as [Hn Hd]. split; [done|].
    intros y Hy. apply Hd. lia.
  - intros H. apply delete_keeps_data in H as [Hn Hd]. split; [lia|].
    by intros y _.
  - unfold search. destruct (search_loop fuel d (root s) s); [|done].
    by intros [= <-].
Qed.

Lemma keys_rotr_top t : keys (rotr_top t) = keys t.
Proof.
  destruct t as [|[|a l kl b] n k c]; try done. simpl. by rewrite <- app_assoc.
Qed.

Lemma addrs_rotr_top t : addrs (rotr_top t) = addrs t.
Proof.
  destruct t as [|[|a l kl b] n k c]; try done. simpl. by rewrite <- app_assoc.
Qed.

Lemma bst_rotr_top t : bst t → bst (rotr_top t).
Proof.
  destruct t as [|[|a l kl b] n k c]; try done.
  simpl. intros (Bl & Bc & (Ba & Bb & Ha & Hb) & Hc).
  assert (kl < k) by (apply Bl; apply elem_of_app; right; left).
  split; [|split; [|split]]; [| |done|split; [|split]]; try done.
  - intros k' [Hk|[->|Hk]%elem_of_cons]%elem_of_app; [by apply Bb|done|].
    apply Bc in Hk. lia.
  - intros k' Hk. apply Bl. apply elem_of_app. right; by right.
Qed.

(** ** Statements *)

(** The left chain 3 - 2 - 1 occupies the cells 0, 1, 2. *)
Lemma chain3_fresh a : a ∈ addrs chain3_tree → (a < next chain3)%nat.
Proof.
  simpl. rewrite !elem_of_cons, elem_of_nil.
  change (next chain3) with 3%nat. lia.
Qed.

Lemma chain3_next_fresh : next chain3 ∉ addrs chain3_tree.
Proof. intros H%chain3_fresh. lia. Qed.

Lemma sorted_123 : StronglySorted Z.lt [1; 2; 3].
Proof. repeat constructor. Qed.

(** X1.  On a well-formed tree [inorder()] returns, within as many nested
    calls as there are nodes, the keys of the tree from left to right, and
    this list is strictly ascending. *)
Theorem inorder_lists_keys_ascending s t fuel :
  well_formed s t → (length (addrs t) ≤ fuel)%nat →
  inorder fuel s = Some (keys t) ∧ StronglySorted Z.lt (keys t).
Proof.
  intros (Hroot & Hsh & _ & Hb) Hf. split; [|by apply bst_sorted].
  unfold inorder. rewrite Hroot.
  by rewrite (inorderHelper_shape t s None fuel [] Hsh Hf).
Qed.

Lemma inorder_lists_keys_ascending_witness :
  well_formed chain3 chain3_tree ∧
  inorder 3 chain3 = Some [1; 2; 3] ∧ StronglySorted Z.lt [1; 2; 3].
Proof.
  split; [exact chain3_wf|].
  apply (inorder_lists_keys_ascending chain3 chain3_tree 3 chain3_wf).
  simpl. lia.
Defined.

(** X2.  [findMax(node)] on a node of a well-formed tree returns the node
    of the subtree of [node] that holds its largest key; that node has no
    right child. *)
Theorem findMax_returns_largest s t a fuel :
  well_formed s t → a ∈ addrs t → (length (addrs t) ≤ fuel)%nat →
  ∃ m, findMax fuel a s = Some m ∧ m ∈ addrs (subtree t a) ∧
       right (get s m) = None ∧ data (get s m) ∈ keys (subtree t a) ∧
       ∀ k, k ∈ keys (subtree t a) → k ≤ data (get s m).
Proof.
  intros (Hroot & Hsh & Hnd & Hb) Ha Hf.
  destruct (shape_subtree t s None a Hsh Hnd Ha) as (Ht & _ & Hs & _); [done|].
  apply (findMax_shape _ s _ a fuel Ht Hs (bst_subtree t a Hb)).
  pose proof (subtree_length t a). lia.
Qed.

Lemma findMax_returns_largest_witness :
  well_formed balanced3 balanced3_tree ∧
  ∃ m, findMax 3 1%nat balanced3 = Some m ∧
       m ∈ addrs (subtree balanced3_tree 1%nat) ∧
       right (get balanced3 m) = None ∧
       data (get balanced3 m) ∈ keys (subtree balanced3_tree 1%nat) ∧
       ∀ k, k ∈ keys (subtree balanced3_tree 1%nat) → k ≤ data (get balanced3 m).
Proof.
  split; [exact balanced3_wf|].
  apply (findMax_returns_largest balanced3 balanced3_tree 1%nat 3 balanced3_wf).
  - simpl. right; left.
  - simpl. lia.
Defined.

(** X3.  [findMin(node)] on a node of a well-formed tree returns the node
    of the subtree of [node] that holds its smallest key; that node has no
    left child. *)
Theorem findMin_returns_smallest s t a fuel :
  well_formed s t → a ∈ addrs t → (length (addrs t) ≤ fuel)%nat →
  ∃ m, findMin fuel a s = Some m ∧ m ∈ addrs (subtree t a) ∧
       left (get s m) = None ∧ data (get s m) ∈ keys (subtree t a) ∧
       ∀ k, k ∈ keys (subtree t a) → data (get s m) ≤ k.
Proof.
  intros (Hroot & Hsh & Hnd & Hb) Ha Hf.
  destruct (shape_subtree t s None a Hsh Hnd Ha) as (Ht & _ & Hs & _); [done|].
  apply (findMin_shape _ s _ a fuel Ht Hs (bst_subtree t a Hb)).
  pose proof (subtree_length t a). lia.
Qed.

Lemma findMin_returns_smallest_witness :
  well_formed balanced3 balanced3_tree ∧
  ∃ m, findMin 3 1%nat balanced3 = Some m ∧
       m ∈ addrs (subtree balanced3_tree 1%nat) ∧
       left (get balanced3 m) = None ∧
       data (get balanced3 m) ∈ keys (subtree balanced3_tree 1%nat) ∧
       ∀ k, k ∈ keys (subtree balanced3_tree 1%nat) → data (get balanced3 m) ≤ k.
Proof.
  split; [exact balanced3_wf|].
  apply (findMin_returns_smallest balanced3 balanced3_tree 1%nat 3 balanced3_wf).
  - simpl. right; left.
  - simpl. lia.
Defined.

(** X4.  [delete(data)] of a key that a well-formed tree does not hold
    returns the tree it was called on: nothing is splayed and no field is
    written. *)
Theorem delete_missing_key_changes_nothing s t d fuel :
  well_formed s t → d ∉ keys t → (length (addrs t) ≤ fuel)%nat →
  delete fuel d s = Some s.
Proof.
  intros (Hroot & Hsh & _ & Hb) Hd Hf.
  destruct (search_loop_shape t s None d fuel Hsh Hb Hf) as (r & Hr & _ & Hout).
  unfold delete, search. rewrite Hroot, Hr. by rewrite (Hout Hd).
Qed.

Lemma delete_missing_key_changes_nothing_witness :
  well_formed chain3 chain3_tree ∧ delete 3 7 chain3 = Some chain3.
Proof.
  split; [exact chain3_wf|].
  apply (delete_missing_key_changes_nothing chain3 chain3_tree 7 3 chain3_wf).
  - simpl. rewrite !elem_of_cons, elem_of_nil. lia.
  - simpl. lia.
Defined.

(** X5.  [leftRotate(node)] at a node of a well-formed tree that has a right
    child leaves a well-formed tree: the tree rotated left at that node,
    with the same keys in the same order on the same nodes.  [inorder()]
    returns the same list after the rotation as before. *)
Theorem leftRotate_keeps_well_formed s t n :
  well_formed s t → n ∈ addrs t → right (get s n) ≠ None →
  well_formed (leftRotate n s) (rotl t n) ∧
  keys (rotl t n) = keys t ∧ addrs (rotl t n) = addrs t ∧
  ∀ fuel, (length (addrs t) ≤ fuel)%nat →
          inorder fuel (leftRotate n s) = inorder fuel s.
Proof.
  intros Hwf Hn Hr.
  destruct (leftRotate_wf s t n Hwf Hn Hr) as (Hwf' & Hk & Ha).
  do 3 (split; [done|]). intros fuel Hf.
  destruct Hwf as (Hroot & Hsh & _). destruct Hwf' as (Hroot' & Hsh' & _).
  unfold inorder. rewrite Hroot, Hroot'.
  rewrite (inorderHelper_shape t s None fuel [] Hsh Hf).
  rewrite (inorderHelper_shape _ _ None fuel [] Hsh'); [by rewrite Hk|].
  by rewrite Ha.
Qed.

Lemma leftRotate_keeps_well_formed_witness :
  well_formed balanced3 balanced3_tree ∧
  well_formed (leftRotate 1%nat balanced3) (rotl balanced3_tree 1%nat) ∧
  keys (rotl balanced3_tree 1%nat) = keys balanced3_tree ∧
  addrs (rotl balanced3_tree 1%nat) = addrs balanced3_tree ∧
  ∀ fuel, (length (addrs balanced3_tree) ≤ fuel)%nat →
          inorder fuel (leftRotate 1%nat balanced3) = inorder fuel balanced3.
Proof.
  split; [exact balanced3_wf|].
  apply (leftRotate_keeps_well_formed balanced3 balanced3_tree 1%nat balanced3_wf).
  - simpl. right; left.
  - vm_compute. discriminate.
Defined.

(** X6.  On a well-formed tree, [splay] of the node that [findMax] returns
    from the root takes left rotations only and returns a well-formed tree
    with the same keys on the same nodes, that node at the root and without
    right child. *)
Theorem splay_maximum_keeps_well_formed s t r fuel :
  well_formed s t → getRoot s = Some r → (length (addrs t) ≤ fuel)%nat →
  ∃ m s' t', findMax fuel r s = Some m ∧ splay fuel m s = Some s' ∧
             well_formed s' t' ∧ keys t' = keys t ∧ addrs t' = addrs t ∧
             getRoot s' = Some m ∧ right (get s' m) = None.
Proof.
  intros Hwf Hr Hf. pose proof Hwf as (Hroot & Hsh & Hnd & Hb).
  unfold getRoot in *. rewrite Hr in Hroot.
  assert (Ht : t ≠ Leaf) by (by intros ->).
  destruct (rightmost_path t s None 0%nat r (eq_sym Hroot) Hsh Hnd) as (Hm & _ & Hfm).
  pose proof (path_length t s None _ Hsh Hnd Hm) as Hlen.
  destruct (splay_rightmost_wf s t 0%nat fuel Hwf Ht Hf)
    as (s' & t' & Hsp & Hwf' & Hk' & Ha' & Hr' & _).
  exists (rightmost t 0%nat), s', t'.
  split; [apply (findMax_mono s _ fuel _ _ Hfm); lia|].
  do 5 (split; [done|]).
  assert (Ht' : t' ≠ Leaf).
  { intros E. apply Ht, addrs_nil. by rewrite <- Ha', E. }
  destruct (rightmost_root s' t' 0%nat (rightmost t 0%nat) Hwf' Hr') as (L & k & ->).
  { by rewrite (rightmost_last t' _ 0%nat Ht'), (rightmost_last t _ 0%nat Ht), Ha'. }
  destruct Hwf' as (_ & (Hcell & _) & _). by rewrite (get_heap _ _ _ Hcell).
Qed.

Lemma splay_maximum_keeps_well_formed_witness :
  well_formed balanced3 balanced3_tree ∧
  ∃ m s' t', findMax 3 1%nat balanced3 = Some m ∧ splay 3 m balanced3 = Some s' ∧
             well_formed s' t' ∧ keys t' = keys balanced3_tree ∧
             addrs t' = addrs balanced3_tree ∧
             getRoot s' = Some m ∧ right (get s' m) = None.
Proof.
  split; [exact balanced3_wf|].
  apply (splay_maximum_keeps_well_formed balanced3 balanced3_tree 1%nat 3
           balanced3_wf).
  - reflexivity.
  - simpl. lia.
Defined.

(** X7.  [insert(data)] on a well-formed tree whose next fresh cell is not
    in use returns, with a node holding the key at the root, which [search]
    then finds.  A key already present allocates nothing: its own node is
    splayed.  A new key takes exactly one new cell. *)
Theorem insert_on_well_formed_returns s t d fuel :
  well_formed s t → next s ∉ addrs t → (length (addrs t) < fuel)%nat →
  ∃ s' r, insert fuel d s = Some s' ∧
          getRoot s' = Some r ∧ data (get s' r) = d ∧
          search fuel d s' = Some (Some r, s') ∧
          (d ∈ keys t → r ∈ addrs t ∧ next s' = next s) ∧
          (d ∉ keys t → r = next s ∧ next s' = S (next s)).
Proof.
  intros Hwf Hnew Hf. pose proof Hwf as (Hroot & Hsh & Hnd & Hb).
  assert (Hfind : ∀ s' r, root s' = Some r → data (get s' r) = d →
            search fuel d s' = Some (Some r, s')).
  { intros s' r Hr Hd. unfold search. rewrite Hr.
    destruct fuel as [|f]; [lia|]. simpl. by rewrite decide_True. }
  destruct (decide (d ∈ keys t)) as [Hd|Hd].
  - destruct (search_loop_shape t s None d fuel Hsh Hb ltac:(lia))
      as (r & Hr & Hin & _).
    destruct (Hin Hd) as (a & -> & Ha & Hda).
    destruct (splay_well_formed s t a fuel Hwf Ha ltac:(lia))
      as (s' & Hsp & Hrs & Hns & Hds).
    exists s', a. unfold insert, search. rewrite Hroot, Hr.
    split; [done|]. split; [done|]. split; [by rewrite Hds|].
    split; [|done]. apply Hfind; [done|by rewrite Hds].
  - destruct t as [|l a k r] eqn:Et.
    + exists (set_root (Some (next s)) (snd (alloc d s))), (next s).
      assert (Hdn : data (get (set_root (Some (next s)) (snd (alloc d s))) (next s)) = d).
      { unfold get. simpl. by rewrite lookup_insert_eq. }
      split.
      { unfold insert, search. rewrite Hroot. simpl.
        replace (search_loop fuel d None s) with (Some (@None nat))
          by (by destruct fuel).
        simpl. by rewrite Hroot. }
      split; [done|]. split; [exact Hdn|].
      split; [by apply (Hfind _ (next s))|]. split; [|done].
      intros H. by apply elem_of_nil in H.
    + rewrite <- Et in *.
      destruct (insert_links_leaf s t d fuel Hwf ltac:(by subst t) Hnew Hd ltac:(lia))
        as (s2 & -> & Hwf2 & Hn2 & Hd2).
      assert (Hin : next s ∈ addrs (attach t (next s) d)).
      { apply elem_of_addrs_attach. by left. }
      destruct (splay_well_formed s2 _ (next s) fuel Hwf2 Hin)
        as (s' & Hsp & Hrs & Hns & Hds).
      { rewrite length_addrs_attach. lia. }
      exists s', (next s). split; [done|]. split; [done|].
      split; [by rewrite Hds|]. split; [|split; [done|]].
      * apply Hfind; [done|by rewrite Hds].
      * intros _. split; [done|]. by rewrite Hns.
Qed.

Lemma insert_on_well_formed_returns_witness :
  well_formed chain3 chain3_tree ∧
  ∃ s' r, insert 4 2 chain3 = Some s' ∧
          getRoot s' = Some r ∧ data (get s' r) = 2 ∧
          search 4 2 s' = Some (Some r, s') ∧
          (2 ∈ keys chain3_tree → r ∈ addrs chain3_tree ∧ next s' = next chain3) ∧
          (2 ∉ keys chain3_tree → r = next chain3 ∧ next s' = S (next chain3)).
Proof.
  split; [exact chain3_wf|].
  apply (insert_on_well_formed_returns chain3 chain3_tree 2 4 chain3_wf
           chain3_next_fresh).
  simpl. lia.
Defined.

(** X8.  [insert(data)] of a key larger than every key of a well-formed
    tree returns a well-formed tree: the new node is at the root, its key
    is the last one in order, and the cells in use stay below the next
    fresh one. *)
Theorem insert_new_maximum_keeps_well_formed s t d fuel :
  well_formed s t → (∀ a, a ∈ addrs t → (a < next s)%nat) →
  (∀ k, k ∈ keys t → k < d) → (length (addrs t) < fuel)%nat →
  ∃ s' t', insert fuel d s = Some s' ∧ well_formed s' t' ∧
           keys t' = keys t ++ [d] ∧ getRoot s' = Some (next s) ∧
           ∀ a, a ∈ addrs t' → (a < next s')%nat.
Proof.
  intros Hwf Hfresh Hmax Hf.
  destruct (insert_max_wf s t d fuel Hwf) as (s' & t' & Hins & Hwf' & Hk' & Ha' & Hr' & Hn');
    auto.
  { intros Hin. apply Hfresh in Hin. lia. }
  exists s', t'. do 4 (split; [done|]).
  intros a. rewrite Ha', Hn', elem_of_app, list_elem_of_singleton.
  intros [Hin| ->]; [apply Hfresh in Hin|]; lia.
Qed.

Lemma insert_new_maximum_keeps_well_formed_witness :
  well_formed chain3 chain3_tree ∧
  ∃ s' t', insert 4 4 chain3 = Some s' ∧ well_formed s' t' ∧
           keys t' = keys chain3_tree ++ [4] ∧ getRoot s' = Some (next chain3) ∧
           ∀ a, a ∈ addrs t' → (a < next s')%nat.
Proof.
  split; [exact chain3_wf|].
  apply (insert_new_maximum_keeps_well_formed chain3 chain3_tree 4 4 chain3_wf
           chain3_fresh).
  - simpl. intros k. rewrite !elem_of_cons, elem_of_nil. lia.
  - simpl. lia.
Defined.

(** X9.  Inserting the keys of a strictly ascending list, in this order,
    into the empty tree returns at every call, builds a well-formed tree
    that holds exactly these keys, and [inorder()] then returns the list. *)
Theorem ascending_inserts_build_sorted_tree fuel (l : list Z) :
  StronglySorted Z.lt l → (length l < fuel)%nat →
  ∃ s t, run fuel (Insert <$> l) constructor = Some s ∧
         well_formed s t ∧ keys t = l ∧ inorder fuel s = Some l.
Proof.
  intros Hsorted Hf.
  destruct (ascending_inserts_wf fuel l Hsorted Hf)
    as (s & t & Hrun & Hwf & Hk & Hlen & _).
  exists s, t. do 3 (split; [done|]).
  destruct Hwf as (Hroot & Hsh & _). unfold inorder. rewrite Hroot.
  rewrite (inorderHelper_shape t s None fuel [] Hsh); [by rewrite Hk|lia].
Qed.

Lemma ascending_inserts_build_sorted_tree_witness :
  StronglySorted Z.lt [1; 2; 3] ∧
  ∃ s t, run 4 (Insert <$> [1; 2; 3]) constructor = Some s ∧
         well_formed s t ∧ keys t = [1; 2; 3] ∧ inorder 4 s = Some [1; 2; 3].
Proof.
  split; [exact sorted_123|].
  apply (ascending_inserts_build_sorted_tree 4 [1; 2; 3] sorted_123).
  simpl. lia.
Defined.

(** X10.  [delete(data)] of the largest key of a well-formed tree returns a
    well-formed tree that holds the other keys, in the same order, on nodes
    of the old tree; no cell is allocated. *)
Theorem delete_maximum_keeps_well_formed s t ks d fuel :
  well_formed s t → keys t = ks ++ [d] → (length (addrs t) < fuel)%nat →
  ∃ s' t', delete fuel d s = Some s' ∧ well_formed s' t' ∧ keys t' = ks ∧
           (∀ a, a ∈ addrs t' → a ∈ addrs t) ∧ next s' = next s.
Proof.
  intros Hwf Hk Hf. pose proof Hwf as (Hroot & Hsh & Hnd & Hb).
  assert (Ht : t ≠ Leaf) by (intros ->; by destruct ks).
  set (m := rightmost t 0%nat).
  assert (Hsearch : search fuel d s = Some (Some m, s)).
  { unfold search. rewrite Hroot.
    rewrite <- (rightmost_key_last s None t 0%nat ks d Hsh Hnd Hb Hk).
    rewrite (search_loop_rightmost t s None 0%nat fuel); auto. lia. }
  destruct (splay_rightmost_wf s t 0%nat fuel Hwf Ht ltac:(lia))
    as (s1 & t1 & Hsplay & Hwf1 & Hk1 & Ha1 & Hr1 & Hn1). fold m in Hsplay, Hr1.
  assert (Ht1 : t1 ≠ Leaf).
  { intros E. apply Ht, addrs_nil. by rewrite <- Ha1, E. }
  assert (Hm1 : rightmost t1 0%nat = m).
  { unfold m. by rewrite (rightmost_last t1 _ 0%nat Ht1),
      (rightmost_last t _ 0%nat Ht), Ha1. }
  destruct (rightmost_root s1 t1 0%nat m Hwf1 Hr1 Hm1) as (L & k & ->).
  simpl in Hk1. rewrite Hk in Hk1. apply app_inj_tail in Hk1 as [HkL ->].
  destruct (delete_from_root fuel d s m s1 L d Leaf Hsearch Hsplay Hwf1)
    as (s' & Hdel & Hn' & Hcase).
  { rewrite <- Ha1 in Hf. simpl in Hf. rewrite length_app in Hf. lia. }
  pose proof Hwf1 as (_ & _ & Hnd1 & _). simpl in Hnd1.
  apply NoDup_app in Hnd1 as (HndL & _).
  exists s'.
  destruct Hcase as [[-> ->]|(LL & mx & kx & Hr' & Hcell & HLL & _ & Hb' & Hk' & Ha')].
  - exists Leaf. split; [done|]. split; [|split; [done|split]].
    + split; [done|]. split; [done|]. split; [apply NoDup_nil_2|done].
    + intros a Ha. by apply elem_of_nil in Ha.
    + by rewrite <- Hn1.
  - exists (Br LL mx kx Leaf). split; [done|]. split; [|split; [|split]].
    + split; [done|]. split; [by split|]. split; [|done].
      simpl. by rewrite Ha'.
    + simpl. by rewrite Hk'.
    + intros a Ha. rewrite <- Ha1. simpl in Ha |- *. rewrite Ha' in Ha.
      apply elem_of_app. by left.
    + congruence.
Qed.

Lemma delete_maximum_keeps_well_formed_witness :
  well_formed chain3 chain3_tree ∧
  ∃ s' t', delete 4 3 chain3 = Some s' ∧ well_formed s' t' ∧ keys t' = [1; 2] ∧
           (∀ a, a ∈ addrs t' → a ∈ addrs chain3_tree) ∧ next s' = next chain3.
Proof.
  split; [exact chain3_wf|].
  apply (delete_maximum_keeps_well_formed chain3 chain3_tree [1; 2] 3 4 chain3_wf).
  - reflexivity.
  - simpl. lia.
Defined.

(** X11.  [delete(data)] of the key at the root of a well-formed tree
    returns; afterwards [inorder()] lists the keys of the left subtree
    followed by those of the right subtree, and [search(data)] returns
    absent. *)
Theorem delete_root_key_removes_it s tl node d tr fuel :
  well_formed s (Br tl node d tr) →
  (length (addrs (Br tl node d tr)) ≤ fuel)%nat →
  ∃ s', delete fuel d s = Some s' ∧
        inorder fuel s' = Some (keys tl ++ keys tr) ∧
        search fuel d s' = Some (None, s') ∧ next s' = next s.
Proof.
  intros Hwf Hf. pose proof Hwf as (Hroot & Hsh & Hnd & Hb).
  pose proof Hsh as (Hnode & HshL & HshR). apply get_heap in Hnode.
  pose proof Hb as (Bl & Br' & Hbl & Hbr).
  simpl in Hf. rewrite length_app in Hf. simpl in Hf.
  destruct fuel as [|f] eqn:Ef; [lia|]. rewrite <- Ef in *.
  assert (Hsearch : search fuel d s = Some (Some node, s)).
  { unfold search. rewrite Hroot, Ef. simpl. rewrite Hnode. simpl.
    by rewrite decide_True. }
  assert (Hsplay : splay fuel node s = Some s).
  { unfold splay. rewrite Hroot. simpl. by apply splay_loop_done. }
  destruct (delete_from_root fuel d s node s tl d tr Hsearch Hsplay Hwf ltac:(lia))
    as (s' & Hdel & Hn' & Hcase).
  assert (Hdtr : d ∉ keys tr) by (intros Hin; apply Br' in Hin; lia).
  exists s'. split; [done|].
  destruct Hcase as [[-> ->]|(LL & mx & kx & Hr' & Hcell & HLL & HR & Hb' & Hk' & Ha')].
  - assert (HR : shape (set_root (top tr) s) (Some node) tr).
    { by apply (shape_frame tr s). }
    split; [|split; [|done]].
    + unfold inorder. simpl root.
      rewrite (inorderHelper_shape tr _ (Some node) fuel []); [done|done|lia].
    + unfold search. simpl root.
      destruct (search_loop_shape tr _ (Some node) d fuel HR Hbr ltac:(lia))
        as (r & -> & _ & Hout). by rewrite (Hout Hdtr).
  - apply get_heap in Hcell.
    assert (Hlen : (length (addrs LL) ≤ f ∧ length (addrs tr) ≤ f)%nat).
    { rewrite <- Ha', length_app in Hf. lia. }
    assert (Hkx : kx < d).
    { apply Bl. rewrite <- Hk'. apply elem_of_app. right; left. }
    split; [|split; [|done]].
    + unfold inorder. rewrite Hr', Ef. cbn [inorderHelper]. rewrite Hcell.
      cbn [left right data].
      rewrite (inorderHelper_shape LL s' (Some mx) f []) by (done || lia).
      rewrite (inorderHelper_shape tr s' (Some node) f) by (done || lia).
      simpl. by rewrite Hk'.
    + unfold search. rewrite Hr', Ef. cbn [search_loop]. rewrite Hcell.
      cbn [left right data].
      rewrite decide_False by lia. rewrite decide_False by lia.
      destruct (search_loop_shape tr s' (Some node) d f HR Hbr ltac:(lia))
        as (r & -> & _ & Hout). by rewrite (Hout Hdtr).
Qed.

Lemma delete_root_key_removes_it_witness :
  well_formed balanced3 balanced3_tree ∧
  ∃ s', delete 3 2 balanced3 = Some s' ∧
        inorder 3 s' = Some [1; 3] ∧
        search 3 2 s' = Some (None, s') ∧ next s' = next balanced3.
Proof.
  split; [exact balanced3_wf|].
  apply (delete_root_key_removes_it balanced3 (Br Leaf 2%nat 1 Leaf) 1%nat 2
           (Br Leaf 0%nat 3 Leaf) 3 balanced3_wf).
  simpl. lia.
Defined.

(** X12.  No sequence of [insert], [delete] and [search] calls that returns
    rewrites the [data] field of a node allocated before it, and the
    allocation counter never goes down: rotations and splays move links
    only. *)
Theorem run_never_rewrites_keys fuel ops s s' :
  run fuel ops s = Some s' →
  (next s ≤ next s')%nat ∧
  ∀ y, (y < next s)%nat → data (get s' y) = data (get s y).
Proof.
  revert s s'. induction ops as [|o ops IH]; intros s s' H; simpl in H.
  - by injection H as <-.
  - destruct (run_op fuel o s) as [s1|] eqn:E1; [|done].
    apply run_op_keeps_data in E1 as [Hn1 Hd1].
    apply IH in H as [Hn Hd]. split; [lia|].
    intros y Hy. rewrite Hd by lia. by apply Hd1.
Qed.

Lemma run_never_rewrites_keys_witness :
  run 3 [Insert 4; Delete 2; Search 1; Insert 0] chain3
    = Some (built [Insert 1; Insert 2; Insert 3; Insert 4; Delete 2; Search 1; Insert 0]) ∧
  (next chain3 ≤ next (built [Insert 1; Insert 2; Insert 3; Insert 4; Delete 2; Search 1; Insert 0]))%nat ∧
  ∀ y, (y < next chain3)%nat →
       data (get (built [Insert 1; Insert 2; Insert 3; Insert 4; Delete 2; Search 1; Insert 0]) y)
         = data (get chain3 y).
Proof.
  assert (H : run 3 [Insert 4; Delete 2; Search 1; Insert 0] chain3
    = Some (built [Insert 1; Insert 2; Insert 3; Insert 4; Delete 2; Search 1; Insert 0]))
    by (vm_compute; reflexivity).
  split; [exact H|].
  exact (run_never_rewrites_keys 3 _ chain3 _ H).
Defined.

(** X13.  [rightRotate(node)] at a node of a well-formed tree whose left
    child has no children leaves a well-formed tree: the tree rotated right
    at that node, with the same keys in the same order.  There the subtree
    that the first assignment takes and the one it should take are both
    absent. *)
Theorem rightRotate_childless_left_is_rotation s t n l :
  well_formed s t → n ∈ addrs t →
  left (get s n) = Some l → left (get s l) = None → right (get s l) = None →
  well_formed (rightRotate n s) (rotr t n) ∧
  keys (rotr t n) = keys t ∧ addrs (rotr t n) = addrs t.
Proof.
  intros (Hroot & Hsh & Hnd & Hb) Hn Hleft Hll Hlr.
  assert (Hk : keys (rotr t n) = keys t).
  { apply keys_graft, keys_rotr_top. }
  assert (Ha : addrs (rotr t n) = addrs t).
  { apply addrs_graft, addrs_rotr_top. }
  split; [|done].
  destruct (shape_subtree t s None n Hsh Hnd Hn) as (Htop & Hsub & Hs & Hp & Hcase);
    [done|].
  pose proof (subtree_NoDup t n Hnd) as Hnds.
  unfold rotr in *.
  destruct (subtree t n) as [|A n' kn C] eqn:Esite; [done|].
  injection Htop as ->.
  pose proof Hs as (Hcn & HA & HC). apply get_heap in Hcn.
  destruct A as [|A0 l' kl B]; [by rewrite Hcn in Hleft|].
  assert (l' = l) as -> by (rewrite Hcn in Hleft; simpl in Hleft; congruence).
  pose proof HA as (Hcl & HA0 & HB). apply get_heap in Hcl.
  destruct A0 as [|? ? ? ?]; [|by rewrite Hcl in Hll].
  destruct B as [|? ? ? ?]; [|by rewrite Hcl in Hlr].
  clear HA0 HB.
  set (pn := parent (get s n)) in *.
  simpl in Hnds. apply NoDup_cons in Hnds as [HlR Hnds].
  apply NoDup_cons in Hnds as [HnC HndC].
  assert (Hln : l ≠ n) by (intros ->; apply HlR; left).
  assert (HlC : l ∉ addrs C) by (intros ?; apply HlR; by right).
  assert (Hp1 : pn ≠ Some n).
  { intros Hx. apply (Hp _ Hx). simpl. right; left. }
  assert (Hp2 : pn ≠ Some l).
  { intros Hx. apply (Hp _ Hx). simpl. left. }
  assert (Hget : ∀ y,
    get (rightRotate n s) y =
      if decide (y = n) then mkNode kn None (top C) (Some l)
      else if decide (y = l) then mkNode kl None (Some n) pn
      else if decide (pn = Some y) then
        (if decide (right (get s y) = Some n)
         then mkNode (data (get s y)) (left (get s y)) (Some l) (parent (get s y))
         else mkNode (data (get s y)) (Some l) (right (get s y)) (parent (get s y)))
      else get s y).
  { intros y. rewrite (rightRotate_get s n l y Hleft Hln Hp1 Hp2).
    - rewrite Hcn, Hcl. done.
    - by rewrite Hlr. }
  assert (Hlook : ∀ y, is_Some (heap s !! y) →
    heap (rightRotate n s) !! y = Some (get (rightRotate n s) y)).
  { intros y Hy. by apply lookup_get, alloc_rightRotate. }
  assert (Hsame : ∀ y, is_Some (heap s !! y) →
    y ≠ n → y ≠ l → pn ≠ Some y →
    heap (rightRotate n s) !! y = heap s !! y).
  { intros y Hy H1 H2 H4. rewrite (Hlook y Hy), (Hget y).
    rewrite !decide_False by done. by rewrite lookup_get. }
  assert (Halloc : ∀ y, y ∈ addrs (Br (Br Leaf l kl Leaf) n kn C) →
    is_Some (heap s !! y)).
  { intros y Hy. exact (shape_allocated _ s pn y Hs Hy). }
  assert (Hu : shape (rightRotate n s) pn (Br Leaf l kl (Br Leaf n kn C))).
  { split; [|split; [done|split; [|split; [done|]]]].
    - rewrite (Hlook l) by (apply Halloc; simpl; left). rewrite Hget.
      rewrite decide_False by done. by rewrite decide_True.
    - rewrite (Hlook n) by (apply Halloc; simpl; right; left). rewrite Hget.
      by rewrite decide_True.
    - apply (shape_frame C s); [done|]. intros y Hy. apply Hsame.
      + apply Halloc. simpl. right; by right.
      + by intros ->.
      + by intros ->.
      + intros Hx. apply (Hp y Hx). simpl. right; by right. }
  split; [|split; [|split]].
  - rewrite (rightRotate_root s n l Hleft Hln).
    2: { by rewrite Hlr. }
    fold pn. destruct Hcase as [[Ht Hpar]|(Ht & p & Hpar & _)].
    + rewrite Hpar. by rewrite (top_graft_eq t n _ Ht).
    + rewrite Hpar. by rewrite top_graft_ne.
  - apply (graft_shape s (rightRotate n s) n l _
             (addrs (Br (Br Leaf l kl Leaf) n kn C))); auto.
    + intros y Hy Hsite Hpy. fold pn in Hpy. apply Hsame; auto.
      * intros ->. apply Hsite. simpl. right; left.
      * intros ->. apply Hsite. simpl. left.
    + intros p Hpar. fold pn in Hpar.
      assert (Hpa : is_Some (heap s !! p)).
      { destruct Hcase as [[_ Hx]|(_ & p' & Hx & Hin)]; [congruence|].
        assert (p' = p) as -> by congruence. by apply (shape_allocated t s None). }
      assert (Hgp : get (rightRotate n s) p =
        if decide (right (get s p) = Some n)
        then mkNode (data (get s p)) (left (get s p)) (Some l) (parent (get s p))
        else mkNode (data (get s p)) (Some l) (right (get s p)) (parent (get s p))).
      { rewrite Hget.
        rewrite decide_False by (intros ->; congruence).
        rewrite decide_False by (intros ->; congruence).
        by rewrite decide_True. }
      rewrite (Hlook p Hpa), Hgp. split; intros H1 H2.
      * by rewrite decide_False.
      * by rewrite decide_True.
    + done.
    + by rewrite Esite.
  - by rewrite Ha.
  - apply bst_graft; [done| |].
    + apply (bst_rotr_top (Br (Br Leaf l kl Leaf) n kn C)).
      rewrite <- Esite. by apply bst_subtree.
    + rewrite Esite. apply (keys_rotr_top (Br (Br Leaf l kl Leaf) n kn C)).
Qed.

Lemma rightRotate_childless_left_is_rotation_witness :
  well_formed chain3 chain3_tree ∧
  well_formed (rightRotate 1%nat chain3) (rotr chain3_tree 1%nat) ∧
  keys (rotr chain3_tree 1%nat) = keys chain3_tree ∧
  addrs (rotr chain3_tree 1%nat) = addrs chain3_tree.
Proof.
  split; [exact chain3_wf|].
  apply (rightRotate_childless_left_is_rotation chain3 chain3_tree 1%nat 0%nat
           chain3_wf).
  - simpl. right; left.
  - reflexivity.
  - reflexivity.
  - reflexivity.
Defined.
